(** * PyTransit: the swift transit model kernels and the Gaussian likelihood

    A shallow embedding of [pytransit/models/numba/swiftmodel.py] and of the
    likelihood kernel of [pytransit/lpf/lpf.py].

    Numbers.  A Python float is modelled as an extended real: a finite real
    number, one of the two infinities, or NaN.  Arithmetic on finite values is
    exact (no rounding), NaN propagates, every ordered comparison with NaN is
    false, and [fdiv] follows IEEE 754 on a zero divisor, as NumPy's array
    arithmetic does.  Signed zeros are not distinguished.

    What the model leaves out, and how the theorems account for it:
    - rounding: a result that holds on a boundary of the exact reals (two
      circles exactly tangent) need not hold in binary64, so the theorems keep
      away from such boundaries, and the one place where the code itself sits
      on one is evaluated in binary64 (section Binary64 below);
    - a scalar division in compiled code raises [ZeroDivisionError] on a zero
      divisor: this is modelled where the divisor is computed by the code (the
      row sum in the weight tables, the count [nk]); elsewhere the theorems
      assume the divisor is not zero;
    - [dot] requires operands of matching sizes (NumPy raises [ValueError]
      otherwise): the theorems state the sizes where a result depends on it;
    - the kernels compiled with [fastmath] are not defined on NaN and
      infinite operands: the theorems on them take finite operands.

    Arrays.  A one-dimensional array is a list, a two-dimensional array a list
    of rows.  Reading an element goes through [getitem], which implements
    Python's negative indices and fails with [IndexError] out of range. *)

From Stdlib Require Import Reals Lra Lia ZArith List Bool.
From Stdlib Require Import Zfloor Permutation FinFun Sorted.
From Stdlib Require PrimFloat Uint63.
Import ListNotations.

Local Open Scope R_scope.

(** ** Extended reals *)

Inductive float : Type :=
| Fin (x : R)
| PInf
| NInf
| NaN.

Coercion Fin : R >-> float.

Definition Rltb (x y : R) : bool := if Rlt_dec x y then true else false.
Definition Rleb (x y : R) : bool := if Rle_dec x y then true else false.
Definition Reqb (x y : R) : bool := if Req_dec_T x y then true else false.

(** [x * inf] for a finite [x]. *)
Definition scale_inf (x : R) : float :=
  if Rltb 0 x then PInf else if Rltb x 0 then NInf else NaN.

Definition fneg (a : float) : float :=
  match a with
  | Fin x => Fin (- x)
  | PInf => NInf
  | NInf => PInf
  | NaN => NaN
  end.

Definition fadd (a b : float) : float :=
  match a, b with
  | Fin x, Fin y => Fin (x + y)
  | NaN, _ | _, NaN => NaN
  | PInf, NInf | NInf, PInf => NaN
  | PInf, _ | _, PInf => PInf
  | NInf, _ | _, NInf => NInf
  end.

Definition fsub (a b : float) : float := fadd a (fneg b).

Definition fmul (a b : float) : float :=
  match a, b with
  | Fin x, Fin y => Fin (x * y)
  | NaN, _ | _, NaN => NaN
  | Fin x, PInf | PInf, Fin x => scale_inf x
  | Fin x, NInf | NInf, Fin x => scale_inf (- x)
  | PInf, PInf | NInf, NInf => PInf
  | PInf, NInf | NInf, PInf => NInf
  end.

Definition fdiv (a b : float) : float :=
  match a, b with
  | Fin x, Fin y => if Reqb y 0 then scale_inf x else Fin (x / y)
  | NaN, _ | _, NaN => NaN
  | Fin _, (PInf | NInf) => Fin 0
  | PInf, Fin y => if Rltb y 0 then NInf else PInf
  | NInf, Fin y => if Rltb y 0 then PInf else NInf
  | (PInf | NInf), (PInf | NInf) => NaN
  end.

(** [x ** 2] *)
Definition fsqr (a : float) : float := fmul a a.

Definition fltb (a b : float) : bool :=
  match a, b with
  | Fin x, Fin y => Rltb x y
  | Fin _, PInf | NInf, Fin _ | NInf, PInf => true
  | _, _ => false
  end.

Definition fleb (a b : float) : bool :=
  match a, b with
  | Fin x, Fin y => Rleb x y
  | NaN, _ | _, NaN => false
  | _, PInf | NInf, _ => true
  | _, _ => false
  end.

Definition fgtb (a b : float) : bool := fltb b a.
Definition fgeb (a b : float) : bool := fleb b a.

Definition isnan (a : float) : bool :=
  match a with NaN => true | _ => false end.

(** [a == 0.0] *)
Definition is_zero (a : float) : bool :=
  match a with Fin x => Reqb x 0 | _ => false end.

(** numpy's [sqrt] and [arccos]: NaN outside the domain. *)
Definition fsqrt (a : float) : float :=
  match a with
  | Fin x => if Rleb 0 x then Fin (sqrt x) else NaN
  | PInf => PInf
  | _ => NaN
  end.

Definition arccos (a : float) : float :=
  match a with
  | Fin x => if Rleb (-1) x && Rleb x 1 then Fin (acos x) else NaN
  | _ => NaN
  end.

(** numpy's [log], and [10 ** x]. *)
Definition flog (a : float) : float :=
  match a with
  | Fin x => if Rltb 0 x then Fin (ln x) else if Reqb x 0 then NInf else NaN
  | PInf => PInf
  | _ => NaN
  end.

Definition fpow10 (a : float) : float :=
  match a with
  | Fin x => Fin (Rpower 10 x)
  | PInf => PInf
  | NInf => Fin 0
  | NaN => NaN
  end.

(** An integer used in float arithmetic. *)
Definition of_int (n : Z) : float := Fin (IZR n).

Declare Scope float_scope.
Delimit Scope float_scope with flt.
Bind Scope float_scope with float.
Notation "a + b" := (fadd a b) : float_scope.
Notation "a - b" := (fsub a b) : float_scope.
Notation "a * b" := (fmul a b) : float_scope.
Notation "a / b" := (fdiv a b) : float_scope.
Notation "- a" := (fneg a) : float_scope.
Notation "a <? b" := (fltb a b) (at level 70) : float_scope.
Notation "a <=? b" := (fleb a b) (at level 70) : float_scope.
Notation "a >? b" := (fgtb a b) (at level 70) : float_scope.
Notation "a >=? b" := (fgeb a b) (at level 70) : float_scope.

(** ** Errors *)

Inductive exn : Type :=
| ValueError
| IndexError
| OverflowError
| ZeroDivisionError.

Inductive res (A : Type) : Type :=
| Ok (a : A)
| Err (e : exn).
Arguments Ok {A} a.
Arguments Err {A} e.

Definition bind {A B : Type} (m : res A) (f : A -> res B) : res B :=
  match m with
  | Ok a => f a
  | Err e => Err e
  end.

Notation "x <- m ;; k" := (bind m (fun x => k))
  (at level 61, m at next level, right associativity).

Notation "' pat <- m ;; k" := (bind m (fun x => match x with pat => k end))
  (at level 61, pat pattern, m at next level, right associativity).

Fixpoint mapM {A B : Type} (f : A -> res B) (l : list A) : res (list B) :=
  match l with
  | [] => Ok []
  | x :: l' => y <- f x ;; ys <- mapM f l' ;; Ok (y :: ys)
  end.

Fixpoint foldM {A B : Type} (f : B -> A -> res B) (l : list A) (acc : B) : res B :=
  match l with
  | [] => Ok acc
  | x :: l' => acc' <- f acc x ;; foldM f l' acc'
  end.

(** ** Arrays *)

Definition size {A : Type} (l : list A) : Z := Z.of_nat (length l).

(** [l[i]] with Python's negative indices; numba leaves an out-of-range read
    unchecked, Python raises [IndexError]: both are a failure here. *)
Definition getitem {A : Type} (l : list A) (i : Z) : res A :=
  let j := (if i <? 0 then i + size l else i)%Z in
  if (j <? 0)%Z then Err IndexError
  else match nth_error l (Z.to_nat j) with
       | Some x => Ok x
       | None => Err IndexError
       end.

(** [l[i] = x] *)
Fixpoint update {A : Type} (l : list A) (n : nat) (x : A) : list A :=
  match l, n with
  | [], _ => []
  | _ :: l', O => x :: l'
  | y :: l', S n' => y :: update l' n' x
  end.

Definition setitem {A : Type} (l : list A) (i : Z) (x : A) : res (list A) :=
  let j := (if i <? 0 then i + size l else i)%Z in
  if (j <? 0)%Z || (size l <=? j)%Z then Err IndexError
  else Ok (update l (Z.to_nat j) x).

(** [range(a, b)] *)
Definition range (a b : Z) : list Z :=
  map (fun n => (a + Z.of_nat n)%Z) (seq 0 (Z.to_nat (b - a))).

(** [zeros(n)] *)
Definition zeros (n : Z) : list float := repeat (Fin 0) (Z.to_nat n).

(** A loop [for j in ...: body] whose body mentions the output array only at
    index [j]: the body is a function of the cell it rewrites.  [order] is the
    order in which the iterations run: [range 0 n] for a serial [range(n)]
    loop, and any schedule of the same iterations for a [prange(n)] loop. *)
Fixpoint for_cells {A : Type} (body : Z -> A -> res A) (order : list Z)
    (arr : list A) : res (list A) :=
  match order with
  | [] => Ok arr
  | j :: rest =>
      x <- getitem arr j ;;
      y <- body j x ;;
      arr' <- setitem arr j y ;;
      for_cells body rest arr'
  end.

(** Two runs agree when they return the same value or both fail. *)
Definition same_result {A : Type} (r1 r2 : res A) : Prop :=
  forall x, r1 = Ok x <-> r2 = Ok x.

(** Element-wise arithmetic on two arrays of one shape. *)
Fixpoint map2 {A B C : Type} (f : A -> B -> C) (l1 : list A) (l2 : list B) : list C :=
  match l1, l2 with
  | x :: l1', y :: l2' => f x y :: map2 f l1' l2'
  | _, _ => []
  end.

(** [l[start:stop]] for non-negative bounds. *)
Definition slice {A : Type} (l : list A) (start stop : Z) : list A :=
  firstn (Z.to_nat (stop - start)) (skipn (Z.to_nat start) l).

(** [dot] of two vectors of one size, and of a matrix with a vector of the
    size of its rows. *)
Fixpoint dot (u v : list float) : float :=
  match u, v with
  | x :: u', y :: v' => (x * y + dot u' v')%flt
  | _, _ => Fin 0
  end.

Definition matvec (m : list (list float)) (v : list float) : list float :=
  map (fun row => dot row v) m.

(** The sum of the entries of a row. *)
Fixpoint fsum (l : list float) : float :=
  match l with
  | [] => Fin 0
  | x :: l' => (x + fsum l')%flt
  end.

(** [int(floor(x))]: Python refuses NaN and the infinities. *)
Definition int_floor (a : float) : res Z :=
  match a with
  | Fin x => Ok (Zfloor x)
  | NaN => Err ValueError
  | _ => Err OverflowError
  end.

(** [linspace(start, stop, num)] for [num >= 0]: [num] evenly spaced samples,
    the last one set to [stop].  NumPy refuses a negative [num]; the callers
    make that test. *)
Definition linspace (start stop : float) (num : Z) : list float :=
  if (num <=? 0)%Z then []
  else if (num =? 1)%Z then [start]
  else
    let step := ((stop - start) / of_int (num - 1))%flt in
    map (fun i => (start + of_int i * step)%flt) (range 0 (num - 1)) ++ [stop].

(** ** Geometry: circle-circle intersection area *)

Definition circle_circle_intersection_area (r1 r2 b : float) : float :=
  (if r1 <? b - r2 then Fin 0
   else if r1 >=? b + r2 then Fin PI * fsqr r2
   else if b - r2 <=? - r1 then Fin PI * fsqr r1
   else
     fsqr r2 * arccos ((fsqr b + fsqr r2 - fsqr r1) / (Fin 2 * b * r2)) +
     fsqr r1 * arccos ((fsqr b + fsqr r1 - fsqr r2) / (Fin 2 * b * r1)) -
     Fin 0.5 * fsqrt ((- b + r2 + r1) * (b + r2 - r1) * (b - r2 + r1) * (b + r2 + r1)))%flt.

Definition circle_circle_intersection_area_v (r1 r2 : float) (bs : list float)
  : list float :=
  map (fun b =>
    (if r1 <? b - r2 then Fin 0
     else if r1 >=? b + r2 then Fin PI * fsqr r2
     else if b - r2 <=? - r1 then Fin PI * fsqr r1
     else
       fsqr r2 * arccos ((fsqr b + fsqr r2 - fsqr r1) / (Fin 2 * b * r2)) +
       fsqr r1 * arccos ((fsqr b + fsqr r1 - fsqr r2) / (Fin 2 * b * r1)) -
       Fin 0.5 * fsqrt ((- b + r2 + r1) * (b + r2 - r1) * (b - r2 + r1) * (b + r2 + r1)))%flt)
    bs.

(** The closed-form lens area of two properly intersecting circles. *)
Definition lens_area (r1 r2 b : R) : R :=
  r2 ^ 2 * acos ((b ^ 2 + r2 ^ 2 - r1 ^ 2) / (2 * b * r2)) +
  r1 ^ 2 * acos ((b ^ 2 + r1 ^ 2 - r2 ^ 2) / (2 * b * r1)) -
  0.5 * sqrt ((- b + r2 + r1) * (b + r2 - r1) * (b - r2 + r1) * (b + r2 + r1)).


(** The overlap area as a real function of real radii and separation. *)
Definition overlap_area (r1 r2 b : R) : R :=
  if Rltb r1 (b - r2) then 0
  else if Rleb (b + r2) r1 then PI * r2 ^ 2
  else if Rleb (b - r2) (- r1) then PI * r1 ^ 2
  else lens_area r1 r2 b.

(** The sum of a list of reals. *)
Fixpoint Rsum (l : list R) : R :=
  match l with
  | [] => 0
  | x :: l' => x + Rsum l'
  end.

(** The dot product of two lists of reals. *)
Fixpoint Rdot (u v : list R) : R :=
  match u, v with
  | x :: u', y :: v' => x * y + Rdot u' v'
  | _, _ => 0
  end.
(** ** Grid and weight builders *)

(** The inner loop of the weight builders, [for i in range(1, nz)]: the
    successive differences of the overlap area across the z-grid edges, with
    the running area [a0] and the running row sum [s]. *)
Fixpoint area_differences (k b : float) (zs : list float) (a0 s : float)
  : list float * float :=
  match zs with
  | [] => ([], s)
  | z :: zs' =>
      let a1 := circle_circle_intersection_area z k b in
      let w := (a1 - a0)%flt in
      let '(ws, s') := area_differences k b zs' a1 (s + w)%flt in
      (w :: ws, s')
  end.

(** One row of the table: the body of the loop over the grazing index.  The
    normalisation [weights[ig, i] /= s] is a scalar division: it raises
    [ZeroDivisionError] when the row sum is zero. *)
Definition weights_row (k : float) (ze : list float) (b : float) : res (list float) :=
  z0 <- getitem ze 0 ;;
  let a0 := circle_circle_intersection_area z0 k b in
  let '(ws, s) := area_differences k b (tl ze) a0 a0 in
  if is_zero s then Err ZeroDivisionError
  else Ok (map (fun w => (w / s)%flt) (a0 :: ws)).

(** [linspace] refuses a negative number of samples. *)
Definition calculate_weights_2d (k : float) (ze : list float) (ng : Z)
  : res (list float * float * list (list float)) :=
  if (ng <? 0)%Z then Err ValueError
  else
    let gs := linspace 0 (Fin (1 - 1e-7)) ng in
    weights <- mapM (fun g => weights_row k ze (g * (1 + k))%flt) gs ;;
    g1 <- getitem gs 1 ;;
    g0 <- getitem gs 0 ;;
    Ok (gs, (g1 - g0)%flt, weights).

(** The step [(k1 - k0) / nk] is computed first when the result is returned:
    it raises [ZeroDivisionError] for [nk = 0]. *)
Definition calculate_weights_3d (nk : Z) (k0 k1 : float) (ze : list float) (ng : Z)
  : res (float * float * list (list (list float))) :=
  if (nk <? 0)%Z || (ng <? 0)%Z then Err ValueError
  else
    let ks := linspace k0 k1 nk in
    let gs := linspace 0 (Fin (1 - 1e-7)) ng in
    weights <-
      mapM (fun k => mapM (fun g => weights_row k ze (g * (1 + k))%flt) gs) ks ;;
    if (nk =? 0)%Z then Err ZeroDivisionError
    else
      g1 <- getitem gs 1 ;;
      g0 <- getitem gs 0 ;;
      Ok (((k1 - k0) / of_int nk)%flt, (g1 - g0)%flt, weights).

(** The grazing step of an [ng]-row table, [gs[1] - gs[0]] in exact
    arithmetic. *)
Definition grazing_step (ng : Z) : R := (1 - 1e-7) / (IZR ng - 1).

(** ** Limb-darkening interpolation *)

(** [while z > mz[i + 1]: i += 1].  A read past the end stops the loop, so
    it runs at most [mz.size] times. *)
Fixpoint search_up (fuel : nat) (z : float) (mz : list float) (i : Z) : res Z :=
  match fuel with
  | O => Err IndexError
  | S fuel' =>
      m <- getitem mz (i + 1) ;;
      if (z >? m)%flt then search_up fuel' z mz (i + 1) else Ok i
  end.

(** [while z < mz[i]: i -= 1].  Negative indices wrap around once before a
    read fails, so the loop runs at most [2 * mz.size + 1] times. *)
Fixpoint search_down (fuel : nat) (z : float) (mz : list float) (i : Z) : res Z :=
  match fuel with
  | O => Err IndexError
  | S fuel' =>
      m <- getitem mz i ;;
      if (z <? m)%flt then search_down fuel' z mz (i - 1) else Ok i
  end.

Definition interpolate_limb_darkening_s (z : float) (mz ldp : list float) : res float :=
  if (z <? 0)%flt then Ok NaN
  else
    mlast <- getitem mz (-1) ;;
    if (z >? mlast)%flt then getitem ldp (-1)
    else
      let i0 := (size mz / 2)%Z in
      mi0 <- getitem mz i0 ;;
      i <- (if (z >? mi0)%flt then search_up (length mz) z mz i0
            else search_down (2 * length mz + 1) z mz i0) ;;
      mi <- getitem mz i ;;
      mi1 <- getitem mz (i + 1) ;;
      let a := ((z - mi) / (mi1 - mi))%flt in
      li <- getitem ldp i ;;
      li1 <- getitem ldp (i + 1) ;;
      Ok ((1 - a) * li + a * li1)%flt.

Definition interpolate_limb_darkening_v (zs mz ldp : list float) : res (list float) :=
  mapM (fun z =>
    if (z <? 0)%flt then Ok NaN
    else
      mlast <- getitem mz (-1) ;;
      if (z >? mlast)%flt then getitem ldp (-1)
      else
        let i0 := (size mz / 2)%Z in
        mi0 <- getitem mz i0 ;;
        i <- (if (z >? mi0)%flt then search_up (length mz) z mz i0
              else search_down (2 * length mz + 1) z mz i0) ;;
        mi <- getitem mz i ;;
        mi1 <- getitem mz (i + 1) ;;
        let a := ((z - mi) / (mi1 - mi))%flt in
        li <- getitem ldp i ;;
        li1 <- getitem ldp (i + 1) ;;
        Ok ((1 - a) * li + a * li1)%flt) zs.

(** The straight line through [(m0, l0)] and [(m1, l1)], at [z]. *)
Definition linear_interpolation (z m0 m1 l0 l1 : R) : R :=
  let a := (z - m0) / (m1 - m0) in
  (1 - a) * l0 + a * l1.

Definition lerp (g dg : float) (ldw : list float) : res float :=
  if (g >=? 1)%flt then Ok (Fin 0)
  else
    let ng := (g / dg)%flt in
    ig <- int_floor ng ;;
    let ag := (ng - of_int ig)%flt in
    l0 <- getitem ldw ig ;;
    l1 <- getitem ldw (ig + 1) ;;
    Ok ((1 - ag) * l0 + ag * l1)%flt.

Definition im_p_s (g dg : float) (weights : list (list float)) (ldp : list float)
  : res float :=
  if (g >=? 1)%flt then Ok (Fin 0)
  else
    let ng := (g / dg)%flt in
    ig <- int_floor ng ;;
    let ag := (ng - of_int ig)%flt in
    w0 <- getitem weights ig ;;
    w1 <- getitem weights (ig + 1) ;;
    Ok ((1 - ag) * dot w0 ldp + ag * dot w1 ldp)%flt.

Definition im_p_s_3d (k g dk dg : float) (weights : list (list (list float)))
    (ldp : list float) (k0 : float) : res float :=
  if (g >=? 1)%flt then Ok (Fin 0)
  else
    let nk := ((k - k0) / dg)%flt in
    ik <- int_floor nk ;;
    let ak1 := (nk - of_int ik)%flt in
    let ak2 := (1 - ak1)%flt in
    let ng := (g / dg)%flt in
    ig <- int_floor ng ;;
    let ag1 := (ng - of_int ig)%flt in
    let ag2 := (1 - ag1)%flt in
    wk <- getitem weights ik ;;
    w00 <- getitem wk ig ;;
    let l00 := dot w00 ldp in
    w01 <- getitem wk (ig + 1) ;;
    let l01 := dot w01 ldp in
    wk1 <- getitem weights (ik + 1) ;;
    w10 <- getitem wk1 ig ;;
    let l10 := dot w10 ldp in
    w11 <- getitem wk1 (ig + 1) ;;
    let l11 := dot w11 ldp in
    Ok (l00 * ak2 * ag2 + l10 * ak1 * ag2 + l01 * ak2 * ag1 + l11 * ak1 * ag1)%flt.

Definition im_p_v (gs : list float) (dg : float) (weights : list (list float))
    (ldp : list float) : res (list float) :=
  let ldw := matvec weights ldp in
  mapM (fun g =>
    if (g >=? 1)%flt then Ok (Fin 0)
    else
      let ng := (g / dg)%flt in
      ig <- int_floor ng ;;
      let ag := (ng - of_int ig)%flt in
      l0 <- getitem ldw ig ;;
      l1 <- getitem ldw (ig + 1) ;;
      Ok ((1 - ag) * l0 + ag * l1)%flt) gs.

Definition im_p_v2 (gs : list float) (dg : float) (ldw : list float)
  : res (list float) :=
  mapM (fun g =>
    if (g >=? 1)%flt then Ok (Fin 0)
    else
      let ng := (g / dg)%flt in
      ig <- int_floor ng ;;
      let ag := (ng - of_int ig)%flt in
      l0 <- getitem ldw ig ;;
      l1 <- getitem ldw (ig + 1) ;;
      Ok ((1 - ag) * l0 + ag * l1)%flt) gs.

(** ** Flux evaluators *)

Section Evaluators.

(** The orbit geometry of [pytransit.orbits.orbits_py]: the projected
    planet-star separation at a time, for the orbital parameters
    [t0 p a i e w] and the precomputed tables [es ms tae]. *)
Variable z_ip_s :
  float -> float -> float -> float -> float -> float -> float ->
  list float -> list float -> list (list float) -> float.

Variable z_ip_v :
  list float -> float -> float -> float -> float -> float -> float ->
  list float -> list float -> list (list float) -> list float.



Definition swmodel_direct_s_simple (t k : list float) (t0 p a i e w : float)
    (ldp : list (list (list float))) (istar : list (list float))
    (ze zm : list float) (ng : Z) (splimit : float)
    (lcids pbids nsamples : list Z) (exptimes : list float)
    (es ms : list float) (tae : list (list float)) (parallel : bool)
  : res (list float) :=
  let z := z_ip_v t t0 p a i e w es ms tae in
  k0 <- getitem k 0 ;;
  iplanet <-
    (if (k0 >? splimit)%flt then
       '(gs, dg, weights) <- calculate_weights_2d k0 ze ng ;;
       ldp0 <- getitem ldp 0 ;;
       ldp00 <- getitem ldp0 0 ;;
       let ldw := matvec weights ldp00 in
       im_p_v2 (map (fun zi => (zi / (1 + k0))%flt) z) dg ldw
     else
       ldp0 <- getitem ldp 0 ;;
       ldp00 <- getitem ldp0 0 ;;
       interpolate_limb_darkening_v z zm ldp00) ;;
  let aplanet := circle_circle_intersection_area_v 1 k0 z in
  istar0 <- getitem istar 0 ;;
  istar00 <- getitem istar0 0 ;;
  Ok (map2 (fun ip ap => ((istar00 - ip * ap) / istar00)%flt) iplanet aplanet).

(** The body of the sample loop of [_eval_s_serial]: one sub-exposure of point
    [j], added to the running flux [fj]. *)
Definition _eval_s_serial_sample (t k : list float) (t0 p a i e w : float)
    (istar : list (list float)) (zm : list float) (dg : float)
    (ldp : list (list (list float))) (ldw : list (list float)) (splimit : float)
    (lcids pbids nsamples : list Z) (exptimes : list float)
    (es ms : list float) (tae : list (list float))
    (j ilc ipb : Z) (_k : float) (fj : float) (isample : Z) : res float :=
  et <- getitem exptimes ilc ;;
  ns <- getitem nsamples ilc ;;
  let time_offset := (et * ((of_int isample - 0.5) / of_int ns - 0.5))%flt in
  tj <- getitem t j ;;
  let z := z_ip_s (tj + time_offset)%flt t0 p a i e w es ms tae in
  if (z >? 1 + _k)%flt then Ok (fj + 1)%flt
  else
    iplanet <-
      (if (_k >? splimit)%flt then
         ldw_pb <- getitem ldw ipb ;;
         lerp (z / (1 + _k))%flt dg ldw_pb
       else
         ldp0 <- getitem ldp 0 ;;
         ldp_pb <- getitem ldp0 ipb ;;
         interpolate_limb_darkening_s z zm ldp_pb) ;;
    let aplanet := circle_circle_intersection_area 1 _k z in
    istar0 <- getitem istar 0 ;;
    istar_pb <- getitem istar0 ipb ;;
    Ok (fj + (istar_pb - iplanet * aplanet) / istar_pb)%flt.

(** The body of the loop over the points of [_eval_s_serial]. *)
Definition _eval_s_serial_point (t k : list float) (t0 p a i e w : float)
    (istar : list (list float)) (zm : list float) (dg : float)
    (ldp : list (list (list float))) (ldw : list (list float)) (splimit : float)
    (lcids pbids nsamples : list Z) (exptimes : list float)
    (es ms : list float) (tae : list (list float))
    (j : Z) (fj : float) : res float :=
  ilc <- getitem lcids j ;;
  ipb <- getitem pbids ilc ;;
  _k <- (if (size k =? 1)%Z then getitem k 0 else getitem k ipb) ;;
  ns <- getitem nsamples ilc ;;
  fj <- foldM (_eval_s_serial_sample t k t0 p a i e w istar zm dg ldp ldw splimit
                 lcids pbids nsamples exptimes es ms tae j ilc ipb _k)
              (range 1 (ns + 1)) fj ;;
  ns <- getitem nsamples ilc ;;
  Ok (fj / of_int ns)%flt.

Definition _eval_s_serial (t k : list float) (t0 p a i e w : float)
    (istar : list (list float)) (zm : list float) (dg : float)
    (ldp : list (list (list float))) (ldw : list (list float)) (splimit : float)
    (lcids pbids nsamples : list Z) (exptimes : list float)
    (es ms : list float) (tae : list (list float)) : res (list float) :=
  let npt := size t in
  let flux := zeros npt in
  for_cells (_eval_s_serial_point t k t0 p a i e w istar zm dg ldp ldw splimit
               lcids pbids nsamples exptimes es ms tae)
            (range 0 npt) flux.

(** The body of the sample loop of [_eval_s_parallel]: one sub-exposure of point
    [j], added to the running flux [fj]. *)
Definition _eval_s_parallel_sample (t k : list float) (t0 p a i e w : float)
    (istar : list (list float)) (zm : list float) (dg : float)
    (ldp : list (list (list float))) (ldw : list (list float)) (splimit : float)
    (lcids pbids nsamples : list Z) (exptimes : list float)
    (es ms : list float) (tae : list (list float))
    (j ilc ipb : Z) (_k : float) (fj : float) (isample : Z) : res float :=
  et <- getitem exptimes ilc ;;
  ns <- getitem nsamples ilc ;;
  let time_offset := (et * ((of_int isample - 0.5) / of_int ns - 0.5))%flt in
  tj <- getitem t j ;;
  let z := z_ip_s (tj + time_offset)%flt t0 p a i e w es ms tae in
  if (z >? 1 + _k)%flt then Ok (fj + 1)%flt
  else
    iplanet <-
      (if (_k >? splimit)%flt then
         ldw_pb <- getitem ldw ipb ;;
         lerp (z / (1 + _k))%flt dg ldw_pb
       else
         ldp0 <- getitem ldp 0 ;;
         ldp_pb <- getitem ldp0 ipb ;;
         interpolate_limb_darkening_s z zm ldp_pb) ;;
    let aplanet := circle_circle_intersection_area 1 _k z in
    istar0 <- getitem istar 0 ;;
    istar_pb <- getitem istar0 ipb ;;
    Ok (fj + (istar_pb - iplanet * aplanet) / istar_pb)%flt.

(** The body of the loop over the points of [_eval_s_parallel]. *)
Definition _eval_s_parallel_point (t k : list float) (t0 p a i e w : float)
    (istar : list (list float)) (zm : list float) (dg : float)
    (ldp : list (list (list float))) (ldw : list (list float)) (splimit : float)
    (lcids pbids nsamples : list Z) (exptimes : list float)
    (es ms : list float) (tae : list (list float))
    (j : Z) (fj : float) : res float :=
  ilc <- getitem lcids j ;;
  ipb <- getitem pbids ilc ;;
  _k <- (if (size k =? 1)%Z then getitem k 0 else getitem k ipb) ;;
  ns <- getitem nsamples ilc ;;
  fj <- foldM (_eval_s_parallel_sample t k t0 p a i e w istar zm dg ldp ldw splimit
                 lcids pbids nsamples exptimes es ms tae j ilc ipb _k)
              (range 1 (ns + 1)) fj ;;
  ns <- getitem nsamples ilc ;;
  Ok (fj / of_int ns)%flt.

Definition _eval_s_parallel (sched : list Z) (t k : list float) (t0 p a i e w : float)
    (istar : list (list float)) (zm : list float) (dg : float)
    (ldp : list (list (list float))) (ldw : list (list float)) (splimit : float)
    (lcids pbids nsamples : list Z) (exptimes : list float)
    (es ms : list float) (tae : list (list float)) : res (list float) :=
  let npt := size t in
  let flux := zeros npt in
  for_cells (_eval_s_parallel_point t k t0 p a i e w istar zm dg ldp ldw splimit
               lcids pbids nsamples exptimes es ms tae)
            sched flux.

Definition swmodel_direct_s (sched : list Z) (t k : list float)
    (t0 p a i e w : float)
    (ldp : list (list (list float))) (istar : list (list float))
    (ze zm : list float) (ng : Z) (splimit : float)
    (lcids pbids nsamples : list Z) (exptimes : list float)
    (es ms : list float) (tae : list (list float)) (parallel : bool)
  : res (list float) :=
  ldp0 <- getitem ldp 0 ;;
  let npb := size ldp0 in
  k0 <- getitem k 0 ;;
  '(gs, dg, weights) <- calculate_weights_2d k0 ze ng ;;
  ldw <- mapM (fun ipb => l <- getitem ldp0 ipb ;; Ok (matvec weights l))
              (range 0 npb) ;;
  if parallel then
    _eval_s_parallel sched t k t0 p a i e w istar zm dg ldp ldw splimit
      lcids pbids nsamples exptimes es ms tae
  else
    _eval_s_serial t k t0 p a i e w istar zm dg ldp ldw splimit
      lcids pbids nsamples exptimes es ms tae.

Definition swmodel_interpolated_s (sched : list Z) (t k : list float)
    (t0 p a i e w : float)
    (ldp : list (list (list float))) (istar : list (list float))
    (weights : list (list (list float))) (zm : list float)
    (dk k0 dg splimit : float)
    (lcids pbids nsamples : list Z) (exptimes : list float)
    (es ms : list float) (tae : list (list float)) (parallel : bool)
  : res (list float) :=
  ldp0 <- getitem ldp 0 ;;
  let npb := size ldp0 in
  k_0 <- getitem k 0 ;;
  let nk := ((k_0 - k0) / dk)%flt in
  ik <- int_floor nk ;;
  let ak := (nk - of_int ik)%flt in
  ldw <- mapM (fun ipb =>
            wk <- getitem weights ik ;;
            l <- getitem ldp0 ipb ;;
            wk1 <- getitem weights (ik + 1) ;;
            Ok (map2 (fun x y => ((1 - ak) * x + ak * y)%flt)
                     (matvec wk l) (matvec wk1 l)))
          (range 0 npb) ;;
  if parallel then
    _eval_s_parallel sched t k t0 p a i e w istar zm dg ldp ldw splimit
      lcids pbids nsamples exptimes es ms tae
  else
    _eval_s_serial t k t0 p a i e w istar zm dg ldp ldw splimit
      lcids pbids nsamples exptimes es ms tae.

(** The body of the sample loop of [swmodel_direct_v], for the population member
    [ipv] and the point [j]. *)
Definition swmodel_direct_v_sample (t : list float) (t0 p a i e w : list float)
    (istar : list (list float)) (dg : float) (ldw : list (list float))
    (nsamples : list Z) (exptimes : list float)
    (es ms : list float) (tae : list (list float))
    (ipv j ilc ipb : Z) (_k : float) (fj : float) (isample : Z) : res float :=
  et <- getitem exptimes ilc ;;
  ns <- getitem nsamples ilc ;;
  let time_offset := (et * ((of_int isample - 0.5) / of_int ns - 0.5))%flt in
  tj <- getitem t j ;;
  t0_pv <- getitem t0 ipv ;;
  p_pv <- getitem p ipv ;;
  a_pv <- getitem a ipv ;;
  i_pv <- getitem i ipv ;;
  e_pv <- getitem e ipv ;;
  w_pv <- getitem w ipv ;;
  let z := z_ip_s (tj + time_offset)%flt t0_pv p_pv a_pv i_pv e_pv w_pv es ms tae in
  if (z >? 1 + _k)%flt then Ok (fj + 1)%flt
  else
    ldw_pb <- getitem ldw ipb ;;
    iplanet <- lerp (z / (1 + _k))%flt dg ldw_pb ;;
    let aplanet := circle_circle_intersection_area 1 _k z in
    istar_pv <- getitem istar ipv ;;
    istar_pb <- getitem istar_pv ipb ;;
    Ok (fj + (istar_pb - iplanet * aplanet) / istar_pb)%flt.

(** The body of the loop over the points of [swmodel_direct_v]; [k_pv] is the
    row [k[ipv]] of the radius ratios. *)
Definition swmodel_direct_v_point (t : list float) (k_pv : list float)
    (t0 p a i e w : list float)
    (istar : list (list float)) (dg : float) (ldw : list (list float))
    (lcids pbids nsamples : list Z) (exptimes : list float)
    (es ms : list float) (tae : list (list float))
    (ipv j : Z) (fj : float) : res float :=
  ilc <- getitem lcids j ;;
  ipb <- getitem pbids ilc ;;
  _k <- (if (size k_pv =? 1)%Z then getitem k_pv 0 else getitem k_pv ipb) ;;
  invalid <-
    (if isnan _k then Ok true
     else a_pv <- getitem a ipv ;;
          if isnan a_pv then Ok true
          else i_pv <- getitem i ipv ;; Ok (isnan i_pv)) ;;
  if invalid : bool then Ok PInf
  else
    ns <- getitem nsamples ilc ;;
    fj <- foldM (swmodel_direct_v_sample t t0 p a i e w istar dg ldw nsamples exptimes
                   es ms tae ipv j ilc ipb _k)
                (range 1 (ns + 1)) fj ;;
    ns <- getitem nsamples ilc ;;
    Ok (fj / of_int ns)%flt.

(** The body of the [prange] loop over the population of [swmodel_direct_v]:
    the flux row of the member [ipv]. *)
Definition swmodel_direct_v_member (t : list float)
    (k : list (list float)) (t0 p a i e w : list float)
    (ldp : list (list (list float))) (istar : list (list float))
    (ze : list float) (ng : Z)
    (lcids pbids nsamples : list Z) (exptimes : list float) (npb : Z)
    (es ms : list float) (tae : list (list float))
    (ipv : Z) (flux_pv : list float) : res (list float) :=
  let npt := size t in
  k_pv <- getitem k ipv ;;
  k_pv0 <- getitem k_pv 0 ;;
  '(gs, dg, weights) <- calculate_weights_2d k_pv0 ze ng ;;
  ldp_pv <- getitem ldp ipv ;;
  ldw <- mapM (fun ipb => l <- getitem ldp_pv ipb ;; Ok (matvec weights l))
              (range 0 npb) ;;
  for_cells (swmodel_direct_v_point t k_pv t0 p a i e w istar dg ldw
               lcids pbids nsamples exptimes es ms tae ipv)
            (range 0 npt) flux_pv.

(** A three-dimensional array is a list of equally shaped members, so its
    second dimension is checked on every member. *)
Definition swmodel_direct_v (sched : list Z) (t : list float)
    (k : list (list float)) (t0 p a i e w : list float)
    (ldp : list (list (list float))) (istar : list (list float))
    (ze : list float) (ng : Z)
    (lcids pbids nsamples : list Z) (exptimes : list float) (npb : Z)
    (es ms : list float) (tae : list (list float)) : res (list (list float)) :=
  let npv := size k in
  let npt := size t in
  if negb (size ldp =? npv)%Z || negb (forallb (fun m => (size m =? npb)%Z) ldp)
  then Err ValueError
  else
    let flux := repeat (zeros npt) (Z.to_nat npv) in
    for_cells (swmodel_direct_v_member t k t0 p a i e w ldp istar ze ng
                 lcids pbids nsamples exptimes npb es ms tae)
              sched flux.

(** The body of the sample loop of [swmodel_interpolated_v], for the population member
    [ipv] and the point [j]. *)
Definition swmodel_interpolated_v_sample (t : list float) (t0 p a i e w : list float)
    (istar : list (list float)) (dg : float) (ldw : list (list float))
    (nsamples : list Z) (exptimes : list float)
    (es ms : list float) (tae : list (list float))
    (ipv j ilc ipb : Z) (_k : float) (fj : float) (isample : Z) : res float :=
  et <- getitem exptimes ilc ;;
  ns <- getitem nsamples ilc ;;
  let time_offset := (et * ((of_int isample - 0.5) / of_int ns - 0.5))%flt in
  tj <- getitem t j ;;
  t0_pv <- getitem t0 ipv ;;
  p_pv <- getitem p ipv ;;
  a_pv <- getitem a ipv ;;
  i_pv <- getitem i ipv ;;
  e_pv <- getitem e ipv ;;
  w_pv <- getitem w ipv ;;
  let z := z_ip_s (tj + time_offset)%flt t0_pv p_pv a_pv i_pv e_pv w_pv es ms tae in
  if (z >? 1 + _k)%flt then Ok (fj + 1)%flt
  else
    ldw_pb <- getitem ldw ipb ;;
    iplanet <- lerp (z / (1 + _k))%flt dg ldw_pb ;;
    let aplanet := circle_circle_intersection_area 1 _k z in
    istar_pv <- getitem istar ipv ;;
    istar_pb <- getitem istar_pv ipb ;;
    Ok (fj + (istar_pb - iplanet * aplanet) / istar_pb)%flt.

(** The body of the loop over the points of [swmodel_interpolated_v]; [k_pv] is the
    row [k[ipv]] of the radius ratios. *)
Definition swmodel_interpolated_v_point (t : list float) (k_pv : list float)
    (t0 p a i e w : list float)
    (istar : list (list float)) (dg : float) (ldw : list (list float))
    (lcids pbids nsamples : list Z) (exptimes : list float)
    (es ms : list float) (tae : list (list float))
    (ipv j : Z) (fj : float) : res float :=
  ilc <- getitem lcids j ;;
  ipb <- getitem pbids ilc ;;
  _k <- (if (size k_pv =? 1)%Z then getitem k_pv 0 else getitem k_pv ipb) ;;
  invalid <-
    (if isnan _k then Ok true
     else a_pv <- getitem a ipv ;;
          if isnan a_pv then Ok true
          else i_pv <- getitem i ipv ;; Ok (isnan i_pv)) ;;
  if invalid : bool then Ok PInf
  else
    ns <- getitem nsamples ilc ;;
    fj <- foldM (swmodel_interpolated_v_sample t t0 p a i e w istar dg ldw nsamples exptimes
                   es ms tae ipv j ilc ipb _k)
                (range 1 (ns + 1)) fj ;;
    ns <- getitem nsamples ilc ;;
    Ok (fj / of_int ns)%flt.

(** The body of the [prange] loop over the population of [swmodel_interpolated_v]:
    the flux row of the member [ipv]. *)
Definition swmodel_interpolated_v_member (t : list float)
    (k : list (list float)) (t0 p a i e w : list float)
    (ldp : list (list (list float))) (istar : list (list float))
    (weights : list (list (list float))) (dk k0 dg : float)
    (lcids pbids nsamples : list Z) (exptimes : list float) (npb : Z)
    (es ms : list float) (tae : list (list float))
    (ipv : Z) (flux_pv : list float) : res (list float) :=
  let npt := size t in
  k_pv <- getitem k ipv ;;
  k_pv0 <- getitem k_pv 0 ;;
  let nk := ((k_pv0 - k0) / dk)%flt in
  ik <- int_floor nk ;;
  let ak := (nk - of_int ik)%flt in
  ldp_pv <- getitem ldp ipv ;;
  ldw <- mapM (fun ipb =>
            wk <- getitem weights ik ;;
            l <- getitem ldp_pv ipb ;;
            wk1 <- getitem weights (ik + 1) ;;
            Ok (map2 (fun x y => ((1 - ak) * x + ak * y)%flt)
                     (matvec wk l) (matvec wk1 l)))
          (range 0 npb) ;;
  for_cells (swmodel_interpolated_v_point t k_pv t0 p a i e w istar dg ldw
               lcids pbids nsamples exptimes es ms tae ipv)
            (range 0 npt) flux_pv.

(** A three-dimensional array is a list of equally shaped members, so its
    second dimension is checked on every member. *)
Definition swmodel_interpolated_v (sched : list Z) (t : list float)
    (k : list (list float)) (t0 p a i e w : list float)
    (ldp : list (list (list float))) (istar : list (list float))
    (weights : list (list (list float))) (dk k0 dg : float)
    (lcids pbids nsamples : list Z) (exptimes : list float) (npb : Z)
    (es ms : list float) (tae : list (list float)) : res (list (list float)) :=
  let npv := size k in
  let npt := size t in
  if negb (size ldp =? npv)%Z || negb (forallb (fun m => (size m =? npb)%Z) ldp)
  then Err ValueError
  else
    let flux := repeat (zeros npt) (Z.to_nat npv) in
    for_cells (swmodel_interpolated_v_member t k t0 p a i e w ldp istar weights dk k0 dg
                 lcids pbids nsamples exptimes npb es ms tae)
              sched flux.

End Evaluators.

(** ** The Gaussian log-likelihood *)

Definition lnlike_normal_v (sched : list Z) (o : list float)
    (m e : list (list float)) (wnids lcids : list Z) : res (list float) :=
  let npv := size m in
  let npt := size o in
  let lnl := zeros npv in
  for_cells (fun i lnl_i =>
      foldM (fun lnl_i j =>
          lc <- getitem lcids j ;;
          k <- getitem wnids lc ;;
          e_i <- getitem e i ;;
          e_ik <- getitem e_i k ;;
          o_j <- getitem o j ;;
          m_i <- getitem m i ;;
          m_ij <- getitem m_i j ;;
          Ok (lnl_i + (- flog e_ik - 0.5 * flog (2 * PI)%R
                       - 0.5 * fsqr ((o_j - m_ij) / e_ik)))%flt)
        (range 0 npt) lnl_i)
    sched lnl.

(** The part of a [BaseLPF] the likelihood reads: the concatenated observed
    fluxes, the index maps, the slice of the parameter vector that holds the
    log10 errors, and the flux model (baseline, transit model and trends, all
    owned by collaborators) as a function of the parameter population. *)
Record BaseLPF : Type := {
  ofluxa : list float;
  noise_ids : list Z;
  lcids : list Z;
  _sl_err : Z * Z;
  flux_model : list (list float) -> list (list float)
}.

Definition lnlikelihood (self : BaseLPF) (sched : list Z) (pv : list (list float))
  : res (list float) :=
  let flux_m := flux_model self pv in
  let wn := map (fun row =>
                   map fpow10 (slice row (fst (_sl_err self)) (snd (_sl_err self))))
                pv in
  lnlike_normal_v sched (ofluxa self) flux_m wn (noise_ids self) (lcids self).

(** The closed-form normal log-density of one observation [o] with mean [m]
    and standard deviation [e], and its sum over the data points, with the
    noise scale of each point given by [e]. *)
Definition normal_logpdf (o m e : R) : R :=
  - ln e - 0.5 * ln (2 * PI) - 0.5 * ((o - m) / e) ^ 2.

Definition gaussian_lnlike (o m : list R) (e : Z -> R) : R :=
  Rsum (map (fun j => normal_logpdf (nth (Z.to_nat j) o 0) (nth (Z.to_nat j) m 0) (e j))
            (range 0 (size o))).

(** The noise scale of point [j] for the parameter vector [pv]: ten to the
    power of the log-error of the noise block of the light curve of [j]. *)
Definition noise_scale (self : BaseLPF) (pv : list R) (j : Z) : R :=
  let lc := nth (Z.to_nat j) (lcids self) 0%Z in
  let k := nth (Z.to_nat lc) (noise_ids self) 0%Z in
  Rpower 10 (nth (Z.to_nat (fst (_sl_err self) + k)) pv 0).

(** ** Notions used to state the properties of the evaluators *)

(** The mid-time of sub-exposure [isample] out of [ns], for an exposure of
    length [et] centred on [tj]. *)
Definition sample_time (tj et : float) (ns isample : Z) : float :=
  (tj + et * ((of_int isample - 0.5) / of_int ns - 0.5))%flt.

(** The exact geometric branch: the weight-table row dotted with the
    limb-darkening profile, interpolated at the grazing parameter
    [z / (1 + k)]. *)
Definition exact_intensity (dg : float) (ldw : list (list float)) (ipb : Z)
    (_k z : float) : res float :=
  ldw_pb <- getitem ldw ipb ;;
  lerp (z / (1 + _k))%flt dg ldw_pb.

(** The small-planet branch: the limb-darkening profile interpolated
    linearly at [z]. *)
Definition small_planet_intensity (zm : list float)
    (ldp : list (list (list float))) (ipb : Z) (z : float) : res float :=
  ldp0 <- getitem ldp 0 ;;
  ldp_pb <- getitem ldp0 ipb ;;
  interpolate_limb_darkening_s z zm ldp_pb.

(** The flux left by a planet that blocks the intensity [intensity z] over
    the circle-circle overlap area. *)
Definition blocked_flux (intensity : float -> res float)
    (istar : list (list float)) (ipb : Z) (_k z : float) : res float :=
  iplanet <- intensity z ;;
  let aplanet := circle_circle_intersection_area 1 _k z in
  istar0 <- getitem istar 0 ;;
  istar_pb <- getitem istar0 ipb ;;
  Ok ((istar_pb - iplanet * aplanet) / istar_pb)%flt.

(** A float that is a number (neither NaN nor infinite), a number other than
    zero, and a number that can be a radius ratio. *)
Definition is_number (a : float) : Prop := exists x : R, a = Fin x.

Definition nonzero_number (a : float) : Prop := exists x : R, a = Fin x /\ x <> 0.

Definition radius_ratio (a : float) : Prop := exists x : R, a = Fin x /\ 0 <= x.

(** Inputs for which no division of the loop over the points has a zero
    divisor: the radius ratios are non-negative numbers, the stellar
    intensities are numbers other than zero and every light curve has one
    sample or more.  For a population a radius ratio may also be NaN. *)
Definition regular_series (k : list float) (istar : list (list float))
    (nsamples : list Z) : Prop :=
  Forall radius_ratio k /\
  Forall (Forall nonzero_number) istar /\
  Forall (fun n => (1 <= n)%Z) nsamples.

Definition regular_population (k : list (list float)) (istar : list (list float))
    (nsamples : list Z) : Prop :=
  Forall (Forall (fun x => isnan x = true \/ radius_ratio x)) k /\
  Forall (Forall nonzero_number) istar /\
  Forall (fun n => (1 <= n)%Z) nsamples.

(** The nodes of the small-planet interpolation are numbers that increase
    strictly. *)
Definition increasing_nodes (zm : list float) : Prop :=
  exists mzs : list R, zm = map Fin mzs /\ StronglySorted Rlt mzs.

(** The radius ratio that applies to a point of passband [ipb]: [k[0]] when
    [k] holds a single radius ratio, the one of the passband otherwise. *)
Definition effective_k (k : list float) (ipb : Z) : res float :=
  if (size k =? 1)%Z then getitem k 0 else getitem k ipb.

(** The blocked intensity of the branch that the radius ratio [_k] selects:
    the exact geometric branch above the threshold [splimit], the
    small-planet branch otherwise. *)
Definition branch_intensity (splimit dg : float) (ldw : list (list float))
    (zm : list float) (ldp : list (list (list float))) (ipb : Z) (_k : float)
  : float -> res float :=
  if (_k >? splimit)%flt then exact_intensity dg ldw ipb _k
  else small_planet_intensity zm ldp ipb.

(** The flux of sub-exposure [isample] out of [ns] of point [j]: 1 when the
    planet is off the disk, the flux left by the blocked intensity
    otherwise. *)
Definition sample_flux
    (z_ip_s : float -> float -> float -> float -> float -> float -> float ->
              list float -> list float -> list (list float) -> float)
    (intensity : float -> res float)
    (t : list float) (t0 p a i e w : float) (istar : list (list float))
    (exptimes : list float) (es ms : list float) (tae : list (list float))
    (j ilc ipb ns : Z) (_k : float) (isample : Z) : res float :=
  et <- getitem exptimes ilc ;;
  tj <- getitem t j ;;
  let z := z_ip_s (sample_time tj et ns isample) t0 p a i e w es ms tae in
  if (z >? 1 + _k)%flt then Ok (Fin 1)
  else blocked_flux intensity istar ipb _k z.

(** The flux of point [j]: the mean of the fluxes of its sub-exposures, summed
    in order; [intensity ipb _k] is the blocked intensity used for a point of
    passband [ipb] and radius ratio [_k]. *)
Definition point_flux
    (z_ip_s : float -> float -> float -> float -> float -> float -> float ->
              list float -> list float -> list (list float) -> float)
    (intensity : Z -> float -> float -> res float)
    (t k : list float) (t0 p a i e w : float) (istar : list (list float))
    (lcids pbids nsamples : list Z) (exptimes : list float)
    (es ms : list float) (tae : list (list float)) (j : Z) : res float :=
  ilc <- getitem lcids j ;;
  ipb <- getitem pbids ilc ;;
  _k <- effective_k k ipb ;;
  ns <- getitem nsamples ilc ;;
  fs <- mapM (sample_flux z_ip_s (intensity ipb _k) t t0 p a i e w istar exptimes
                es ms tae j ilc ipb ns _k)
             (range 1 (ns + 1)) ;;
  Ok (fold_left fadd fs (Fin 0) / of_int ns)%flt.

(** The flux series: the flux of every point of [t]. *)
Definition series_flux
    (z_ip_s : float -> float -> float -> float -> float -> float -> float ->
              list float -> list float -> list (list float) -> float)
    (intensity : Z -> float -> float -> res float)
    (t k : list float) (t0 p a i e w : float) (istar : list (list float))
    (lcids pbids nsamples : list Z) (exptimes : list float)
    (es ms : list float) (tae : list (list float)) : res (list float) :=
  mapM (point_flux z_ip_s intensity t k t0 p a i e w istar lcids pbids nsamples
          exptimes es ms tae)
       (range 0 (size t)).

(** The weight table dotted with every profile of [ldp0], and the same for
    two planes of the precomputed table blended with the weight [ak]. *)
Definition table_profiles (weights : list (list float))
    (ldp0 : list (list float)) : list (list float) :=
  map (matvec weights) ldp0.

Definition blended_profiles (ak : float) (wk wk1 : list (list float))
    (ldp0 : list (list float)) : list (list float) :=
  map (fun l => map2 (fun x y => ((1 - ak) * x + ak * y)%flt)
                     (matvec wk l) (matvec wk1 l)) ldp0.

(** The flux series of the simple evaluator for one choice of branch. *)
Definition simple_flux (intensity : float -> res float) (istar00 k0 : float)
    (z : list float) : res (list float) :=
  mapM (fun zi =>
          iplanet <- intensity zi ;;
          Ok ((istar00 - iplanet * circle_circle_intersection_area 1 k0 zi)
              / istar00)%flt) z.

(** A population array without its member [m]. *)
Definition drop_member {A : Type} (m : nat) (l : list A) : list A :=
  firstn m l ++ skipn (S m) l.

(** A flux table with the row [r] put back at position [m]. *)
Definition insert_row {A : Type} (m : nat) (r : A) (l : list A) : list A :=
  firstn m l ++ r :: skipn m l.

(** Point [j] is read without error, is sampled at least once and the planet
    is off the stellar disk, [z > 1 + k], at every one of its samples.
    [k_row] holds the radius ratios (one, or one per passband) and
    [t0 p a i e w] the orbit the separation is computed for. *)
Definition off_disk_point
    (z_ip_s : float -> float -> float -> float -> float -> float -> float ->
              list float -> list float -> list (list float) -> float)
    (t k_row : list float) (t0 p a i e w : float)
    (lcids pbids nsamples : list Z) (exptimes : list float)
    (es ms : list float) (tae : list (list float)) (j : Z) : Prop :=
  exists ilc ipb _k ns et tj,
    getitem lcids j = Ok ilc /\
    getitem pbids ilc = Ok ipb /\
    (if (size k_row =? 1)%Z then getitem k_row 0 else getitem k_row ipb) = Ok _k /\
    getitem nsamples ilc = Ok ns /\
    (1 <= ns)%Z /\
    getitem exptimes ilc = Ok et /\
    getitem t j = Ok tj /\
    forall isample, (1 <= isample <= ns)%Z ->
      (z_ip_s (sample_time tj et ns isample) t0 p a i e w es ms tae >? 1 + _k)%flt
      = true.

(** The orbit of the population member [ipv] is read without error and its
    semi-major axis and inclination are numbers. *)
Definition member_orbit (t0 p a i e w : list float) (ipv : Z)
    (t0v pv av iv ev wv : float) : Prop :=
  getitem t0 ipv = Ok t0v /\ getitem p ipv = Ok pv /\
  getitem a ipv = Ok av /\ getitem i ipv = Ok iv /\
  getitem e ipv = Ok ev /\ getitem w ipv = Ok wv /\
  isnan av = false /\ isnan iv = false.


(** The weight table of the member [ipv] is built ([swmodel_direct_v]), or
    its two planes are found in the precomputed table
    ([swmodel_interpolated_v]). *)
Definition direct_table_built (k : list (list float)) (ze : list float) (ng : Z)
    (ipv : Z) : Prop :=
  exists k_pv k_pv0 tbl,
    getitem k ipv = Ok k_pv /\ getitem k_pv 0 = Ok k_pv0 /\
    calculate_weights_2d k_pv0 ze ng = Ok tbl.

Definition interpolated_table_read (k : list (list float))
    (weights : list (list (list float))) (dk k0 : float) (ipv : Z) : Prop :=
  exists k_pv k_pv0 ik wk wk1,
    getitem k ipv = Ok k_pv /\ getitem k_pv 0 = Ok k_pv0 /\
    int_floor ((k_pv0 - k0) / dk)%flt = Ok ik /\
    getitem weights ik = Ok wk /\ getitem weights (ik + 1) = Ok wk1.

(** The limb-darkening profile array has the shape [npv, npb, _]. *)
Definition well_shaped (ldp : list (list (list float))) (npv npb : Z) : Prop :=
  size ldp = npv /\ Forall (fun m => size m = npb) ldp.

(** Every limb-darkening profile [ldp[ipv][ipb]] has [n] values: the size
    [dot] requires, the length of the rows of the weight table. *)
Definition profile_size (ldp : list (list (list float))) (n : nat) : Prop :=
  Forall (Forall (fun l => length l = n)) ldp.

(** The precomputed table is an array of shape [_, ng, nz]. *)
Definition table_shape (weights : list (list (list float))) (ng nz : nat) : Prop :=
  Forall (fun plane => length plane = ng /\
                       Forall (fun row => length row = nz) plane) weights.

(** Point [j] is read without error and the member [ipv] is invalid for it:
    the radius ratio that applies to the point ([k_pv[0]] when there is a
    single one, the one of the point's passband otherwise), the semi-major
    axis or the inclination of the member is NaN. *)
Definition flagged_point (k_pv a i : list float) (lcids pbids : list Z)
    (ipv j : Z) : Prop :=
  exists ilc ipb _k,
    getitem lcids j = Ok ilc /\
    getitem pbids ilc = Ok ipb /\
    (if (size k_pv =? 1)%Z then getitem k_pv 0 else getitem k_pv ipb) = Ok _k /\
    (isnan _k = true \/
     exists av, getitem a ipv = Ok av /\
       (isnan av = true \/
        exists iv, getitem i ipv = Ok iv /\ isnan iv = true)).

(** The member [ipv] is invalid for every point of the series. *)
Definition flagged_member (t : list float) (k : list (list float))
    (a i : list float) (lcids pbids : list Z) (ipv : Z) : Prop :=
  exists k_pv,
    getitem k ipv = Ok k_pv /\
    forall j, (0 <= j < size t)%Z -> flagged_point k_pv a i lcids pbids ipv j.

(** The index, in the full population, of the member that has index [i]
    once the member [m] is dropped. *)
Definition shift_index (m : nat) (i : Z) : Z :=
  if (i <? Z.of_nat m)%Z then i else (i + 1)%Z.

(** ** The z grids *)

(** [create_z_grid(zcut, nin, nedge)]: [nin] edges evenly spaced in z up to
    [zcut], then [nedge] edges evenly spaced in mu from [zcut] to the limb,
    and the mid-points of the cells. *)
Definition create_z_grid (zcut : float) (nin nedge : Z)
  : res (list float * list float) :=
  let mucut := fsqrt (1 - fsqr zcut)%flt in
  let dz := (zcut / of_int nin)%flt in
  let dmu := (mucut / of_int nedge)%flt in
  if (nin + nedge <? 0)%Z then Err ValueError
  else
    let z_edges := zeros (nin + nedge) in
    let z_means := zeros (nin + nedge) in
    z_edges <- foldM (fun z_edges i => setitem z_edges i (of_int (i + 1) * dz)%flt)
                     (range 0 (nin - 1)) z_edges ;;
    z_edges <- foldM (fun z_edges i =>
                        setitem z_edges (- i - 1)
                                (fsqrt (1 - fsqr (of_int i * dmu)))%flt)
                     (range 0 (nedge + 1)) z_edges ;;
    z_means <- foldM (fun z_means i =>
                        e0 <- getitem z_edges i ;;
                        e1 <- getitem z_edges (i + 1) ;;
                        setitem z_means (i + 1) (0.5 * (e0 + e1))%flt)
                     (range 0 (nin + nedge - 1)) z_means ;;
    Ok (z_edges, z_means).

(** [create_z_grid_acos(nz)]: edges evenly spaced in the angle from the disk
    centre. *)
Definition create_z_grid_acos (nz : Z) : res (list float * list float) :=
  let z_edges := map (fun x => (arccos x / (0.5 * PI)%R)%flt) (linspace 1 0 nz) in
  if (nz <? 0)%Z then Err ValueError
  else
    let z_means := zeros nz in
    z_means <- foldM (fun z_means i =>
                        e0 <- getitem z_edges i ;;
                        e1 <- getitem z_edges (i + 1) ;;
                        setitem z_means (i + 1) (0.5 * (e0 + e1))%flt)
                     (range 0 (nz - 1)) z_means ;;
    Ok (z_edges, z_means).

(** ** Evaluators over a given separation array, from a precomputed table *)

Definition swmodel_z_interpolated_serial (z : list float) (k istar : float)
    (ldp : list float) (weights : list (list (list float))) (dk k0 dg : float)
  : res (list float) :=
  let nk := ((k - k0) / dk)%flt in
  ik <- int_floor nk ;;
  let ak := (nk - of_int ik)%flt in
  wk <- getitem weights ik ;;
  wk1 <- getitem weights (ik + 1) ;;
  let ldw := map2 (fun x y => ((1 - ak) * x + ak * y)%flt)
                  (matvec wk ldp) (matvec wk1 ldp) in
  let ztog := (1 / (1 + k))%flt in
  iplanet <- im_p_v2 (map (fun zi => (zi * ztog)%flt) z) dg ldw ;;
  let aplanet := circle_circle_intersection_area_v 1 k z in
  Ok (map2 (fun ip ap => ((istar - ip * ap) / istar)%flt) iplanet aplanet).

Definition swmodel_z_interpolated_parallel (sched : list Z) (z : list float)
    (k istar : float) (ldp : list float) (weights : list (list (list float)))
    (dk k0 dg : float) : res (list float) :=
  let flux := zeros (size z) in
  let nk := ((k - k0) / dk)%flt in
  ik <- int_floor nk ;;
  let ak := (nk - of_int ik)%flt in
  wk <- getitem weights ik ;;
  wk1 <- getitem weights (ik + 1) ;;
  let ldw := map2 (fun x y => ((1 - ak) * x + ak * y)%flt)
                  (matvec wk ldp) (matvec wk1 ldp) in
  let ztog := (1 / (1 + k))%flt in
  for_cells (fun i _ =>
      zi <- getitem z i ;;
      iplanet <- lerp (zi * ztog)%flt dg ldw ;;
      let aplanet := circle_circle_intersection_area 1 k zi in
      Ok ((istar - iplanet * aplanet) / istar)%flt)
    sched flux.

(** The edges and the cell mid-points of the grid of [create_z_grid] in closed
    form: cell [j] ends at [z_edge j]; the first [nin - 1] edges are evenly
    spaced in z, the others evenly spaced in mu, counted from the limb. *)
Definition z_edge (zcut : R) (nin nedge : Z) (j : Z) : R :=
  if (j <? nin - 1)%Z then IZR (j + 1) * (zcut / IZR nin)
  else sqrt (1 - (IZR (nin + nedge - 1 - j) * (sqrt (1 - zcut ^ 2) / IZR nedge)) ^ 2).

Definition z_mean (edge : Z -> R) (j : Z) : R :=
  if (j <=? 0)%Z then 0 else 0.5 * (edge (j - 1)%Z + edge j).

(** The edges of the grid of [create_z_grid_acos]. *)
Definition z_edge_acos (nz : Z) (j : Z) : R :=
  acos (1 + IZR j * ((0 - 1) / IZR (nz - 1))) / (0.5 * PI).

(** ** The scalar likelihood kernels *)

(** Element-wise arithmetic of two one-dimensional arrays under NumPy's
    broadcasting: arrays of one size are combined entry by entry, an array
    of size one is stretched over the other, and any other pair of sizes
    raises [ValueError]. *)
Definition broadcast (f : float -> float -> float) (a b : list float)
  : res (list float) :=
  if (size a =? size b)%Z then Ok (map2 f a b)
  else
    match a, b with
    | [x], _ => Ok (map (f x) b)
    | _, [y] => Ok (map (fun x => f x y) a)
    | _, _ => Err ValueError
    end.

(** [lnlike_normal(o, m, e)], with one error per point. *)
Definition lnlike_normal (o m e : list float) : res float :=
  d <- broadcast fsub o m ;;
  q <- broadcast fdiv (map fsqr d) (map fsqr e) ;;
  Ok (- fsum (map flog e) - 0.5 * of_int (size o) * flog (2 * PI)%R
      - 0.5 * fsum q)%flt.

(** [lnlike_normal_s(o, m, e)], with one error for all points. *)
Definition lnlike_normal_s (o m : list float) (e : float) : res float :=
  d <- broadcast fsub o m ;;
  Ok (of_int (- size o) * flog e - 0.5 * of_int (size o) * flog (2 * PI)%R
      - 0.5 * fsum (map fsqr d) / fsqr e)%flt.

(** The errors of the points of a series for the population member whose
    noise scales are [e_i]: point [j] has the scale of the noise block of its
    light curve. *)
Definition point_errors (e_i : list R) (wnids lcids : list Z) (npt : Z) : list R :=
  map (fun j => nth (Z.to_nat (nth (Z.to_nat (nth (Z.to_nat j) lcids 0%Z)) wnids 0%Z))
                    e_i 0)
      (range 0 npt).

(** ** The limb-darkening coefficient mapping *)

(** [l[0::2]]; [l[1::2]] is [stride2 (tl l)]. *)
Fixpoint stride2 {A : Type} (l : list A) : list A :=
  match l with
  | [] => []
  | x :: l' => x :: match l' with
                    | [] => []
                    | _ :: l'' => stride2 l''
                    end
  end.

(** The entries of [row] at the even positions replaced by [vals], one value
    per position. *)
Fixpoint put_stride2 (row vals : list float) : list float :=
  match row, vals with
  | x :: row', v :: vals' =>
      v :: match row' with
           | [] => []
           | y :: row'' => y :: put_stride2 row'' vals'
           end
  | _, _ => row
  end.

(** [row[0::2] = vals]: [vals] has the size of [row[0::2]], or size one. *)
Definition set_stride2 (row vals : list float) : res (list float) :=
  if (size vals =? size (stride2 row))%Z then Ok (put_stride2 row vals)
  else
    match vals with
    | [v] => Ok (put_stride2 row (repeat v (length (stride2 row))))
    | _ => Err ValueError
    end.

(** [row[1::2] = vals] *)
Definition set_stride2_odd (row vals : list float) : res (list float) :=
  match row with
  | [] => set_stride2 [] vals
  | x :: row' => row'' <- set_stride2 row' vals ;; Ok (x :: row'')
  end.

(** [map_ldc(ldc)]: each row of [ldc] holds the coefficient pairs
    [q1, q2, q1, q2, ...] of the passbands. *)
Definition map_ldc (ldc : list (list float)) : res (list (list float)) :=
  mapM (fun row =>
          let uv := map (fun _ => Fin 0) row in
          let a := map fsqrt (stride2 row) in
          let b := map (fun x => (2 * x)%flt) (stride2 (tl row)) in
          ab <- broadcast fmul a b ;;
          uv <- set_stride2 uv ab ;;
          ab' <- broadcast fmul a (map (fun x => (1 - x)%flt) b) ;;
          set_stride2_odd uv ab')
       ldc.

(** A row of coefficient pairs as the flat array the code works on. *)
Definition flat_pairs (qs : list (R * R)) : list float :=
  flat_map (fun q => [Fin (fst q); Fin (snd q)]) qs.

(** The quadratic limb-darkening coefficients (u, v) of the pair (q1, q2). *)
Definition quadratic_coefficients (q : R * R) : R * R :=
  (sqrt (fst q) * (2 * snd q), sqrt (fst q) * (1 - 2 * snd q)).

(** The array [x0, y0, x1, y1, ...]. *)
Fixpoint interleave {A : Type} (xs ys : list A) : list A :=
  match xs, ys with
  | x :: xs', y :: ys' => x :: y :: interleave xs' ys'
  | _, _ => []
  end.


(** ** Binary64 *)

(** The code computes in IEEE 754 binary64, round to nearest even.  Where a
    result of the exact model sits on a boundary, the rational part of the
    computation is repeated here in that arithmetic, with the primitive floats
    of the standard library.  [b64_of_Z z] is exact for 0 <= z < 2^53, and
    [b64_ratio n d] is then the double nearest to n/d: the value of the
    decimal literal. *)
Definition b64_of_Z (z : Z) : PrimFloat.float := PrimFloat.of_uint63 (Uint63.of_Z z).

Definition b64_ratio (n d : Z) : PrimFloat.float :=
  PrimFloat.div (b64_of_Z n) (b64_of_Z d).

(** What [circle_circle_intersection_area] returns, up to its calls of
    [arccos] and [sqrt] and the product with [pi]: [DiskArea q] stands for
    [pi * q], and [LensArea q2 c2 q1 c1 h] for
    [q2 * arccos(c2) + q1 * arccos(c1) - 0.5 * sqrt(h)]. *)
Inductive area_b64 : Type :=
| ZeroArea
| DiskArea (q : PrimFloat.float)
| LensArea (q2 c2 q1 c1 h : PrimFloat.float).

Definition circle_circle_intersection_area_b64 (r1 r2 b : PrimFloat.float)
  : area_b64 :=
  let add := PrimFloat.add in
  let sub := PrimFloat.sub in
  let mul := PrimFloat.mul in
  let sqr := fun x => PrimFloat.mul x x in
  let two := b64_of_Z 2 in
  if PrimFloat.ltb r1 (sub b r2) then ZeroArea
  else if PrimFloat.leb (add b r2) r1 then DiskArea (sqr r2)
  else if PrimFloat.leb (sub b r2) (PrimFloat.opp r1) then DiskArea (sqr r1)
  else
    LensArea
      (sqr r2)
      (PrimFloat.div (sub (add (sqr b) (sqr r2)) (sqr r1)) (mul (mul two b) r2))
      (sqr r1)
      (PrimFloat.div (sub (add (sqr b) (sqr r1)) (sqr r2)) (mul (mul two b) r1))
      (mul (mul (mul (add (add (PrimFloat.opp b) r2) r1) (sub (add b r2) r1))
                (add (sub b r2) r1))
           (add (add b r2) r1)).

(** numpy's [arccos] returns NaN outside [-1, 1]. *)
Definition arccos_is_nan (c : PrimFloat.float) : bool :=
  negb (PrimFloat.leb (PrimFloat.opp (b64_of_Z 1)) c &&
        PrimFloat.leb c (b64_of_Z 1)).
(** ** Facts about comparisons *)

Lemma Rltb_true x y : x < y -> Rltb x y = true.
Proof. intros H. unfold Rltb. destruct (Rlt_dec x y); [reflexivity | contradiction]. Qed.

Lemma Rltb_false x y : ~ x < y -> Rltb x y = false.
Proof. intros H. unfold Rltb. destruct (Rlt_dec x y); [contradiction | reflexivity]. Qed.

Lemma Rleb_true x y : x <= y -> Rleb x y = true.
Proof. intros H. unfold Rleb. destruct (Rle_dec x y); [reflexivity | contradiction]. Qed.

Lemma Rleb_false x y : ~ x <= y -> Rleb x y = false.
Proof. intros H. unfold Rleb. destruct (Rle_dec x y); [contradiction | reflexivity]. Qed.

Lemma Reqb_true x y : x = y -> Reqb x y = true.
Proof. intros H. unfold Reqb. destruct (Req_dec_T x y); [reflexivity | contradiction]. Qed.

Lemma Reqb_false x y : x <> y -> Reqb x y = false.
Proof. intros H. unfold Reqb. destruct (Req_dec_T x y); [contradiction | reflexivity]. Qed.

Lemma Rltb_spec x y : reflect (x < y) (Rltb x y).
Proof. unfold Rltb. destruct (Rlt_dec x y); constructor; assumption. Qed.

Lemma Rleb_spec x y : reflect (x <= y) (Rleb x y).
Proof. unfold Rleb. destruct (Rle_dec x y); constructor; assumption. Qed.

Lemma is_zero_fin x : x <> 0 -> is_zero (Fin x) = false.
Proof. intros H. simpl. apply Reqb_false. assumption. Qed.

Lemma fdiv_fin x y : y <> 0 -> fdiv (Fin x) (Fin y) = Fin (x / y).
Proof. intros H. simpl. rewrite Reqb_false by assumption. reflexivity. Qed.

Lemma fsqrt_fin x : 0 <= x -> fsqrt (Fin x) = Fin (sqrt x).
Proof. intros H. simpl. rewrite Rleb_true by assumption. reflexivity. Qed.

Lemma arccos_fin x : -1 <= x <= 1 -> arccos (Fin x) = Fin (acos x).
Proof.
  intros [H1 H2]. simpl. rewrite !Rleb_true by assumption. reflexivity.
Qed.

(** ** Arithmetic on finite values *)

Lemma fadd_fin x y : fadd (Fin x) (Fin y) = Fin (x + y).
Proof. reflexivity. Qed.

Lemma fsub_fin x y : fsub (Fin x) (Fin y) = Fin (x - y).
Proof. reflexivity. Qed.

Lemma fmul_fin x y : fmul (Fin x) (Fin y) = Fin (x * y).
Proof. reflexivity. Qed.

Lemma fneg_fin x : fneg (Fin x) = Fin (- x).
Proof. reflexivity. Qed.

Lemma fsqr_fin x : fsqr (Fin x) = Fin (x ^ 2).
Proof. unfold fsqr. simpl. f_equal. ring. Qed.

Lemma fltb_fin x y : fltb (Fin x) (Fin y) = Rltb x y.
Proof. reflexivity. Qed.

Lemma fleb_fin x y : fleb (Fin x) (Fin y) = Rleb x y.
Proof. reflexivity. Qed.

Lemma fgtb_fin x y : fgtb (Fin x) (Fin y) = Rltb y x.
Proof. reflexivity. Qed.

Lemma fgeb_fin x y : fgeb (Fin x) (Fin y) = Rleb y x.
Proof. reflexivity. Qed.

Create Rewrite HintDb float.
#[global] Hint Rewrite fadd_fin fsub_fin fmul_fin fneg_fin fsqr_fin
  fltb_fin fleb_fin fgtb_fin fgeb_fin : float.

Ltac fnorm := autorewrite with float.

(** ** Arrays: reads, ranges and loops *)

Lemma size_nonneg {A} (l : list A) : (0 <= size l)%Z.
Proof. unfold size. lia. Qed.

Lemma getitem_nonneg {A} (l : list A) (i : Z) :
  (0 <= i)%Z ->
  getitem l i = match nth_error l (Z.to_nat i) with
                | Some x => Ok x
                | None => Err IndexError
                end.
Proof.
  intros H. unfold getitem.
  assert (E : (i <? 0)%Z = false) by lia.
  rewrite E. cbv zeta. rewrite E. reflexivity.
Qed.

Lemma getitem_Ok {A} (l : list A) (i : Z) (x : A) :
  (0 <= i)%Z -> nth_error l (Z.to_nat i) = Some x -> getitem l i = Ok x.
Proof. intros H E. rewrite getitem_nonneg by assumption. rewrite E. reflexivity. Qed.

Lemma getitem_oob {A} (l : list A) (i : Z) :
  (size l <= i)%Z -> getitem l i = Err IndexError.
Proof.
  intros H. pose proof (size_nonneg l).
  rewrite getitem_nonneg by lia.
  destruct (nth_error l (Z.to_nat i)) eqn:E; [|reflexivity].
  assert (Hn : nth_error l (Z.to_nat i) <> None) by congruence.
  apply nth_error_Some in Hn. unfold size in H. lia.
Qed.

Lemma getitem_in_range {A} (l : list A) (i : Z) :
  (0 <= i < size l)%Z -> exists x, getitem l i = Ok x.
Proof.
  intros [H1 H2]. rewrite getitem_nonneg by assumption.
  destruct (nth_error l (Z.to_nat i)) eqn:E; [eauto|].
  apply nth_error_None in E. unfold size in H2. lia.
Qed.

Lemma getitem_nth {A} (l : list A) (i : Z) (d : A) :
  (0 <= i < size l)%Z -> getitem l i = Ok (nth (Z.to_nat i) l d).
Proof.
  intros [H1 H2]. apply getitem_Ok; [assumption|].
  apply nth_error_nth'. unfold size in H2. lia.
Qed.

Lemma getitem_cons_0 {A} (x : A) (l : list A) : getitem (x :: l) 0 = Ok x.
Proof. reflexivity. Qed.

Lemma getitem_cons_pos {A} (x : A) (l : list A) (i : Z) :
  (0 < i)%Z -> getitem (x :: l) i = getitem l (i - 1).
Proof.
  intros H. rewrite !getitem_nonneg by lia.
  replace (Z.to_nat i) with (S (Z.to_nat (i - 1))) by lia. reflexivity.
Qed.

Lemma nth_last {A} (l : list A) (d : A) : nth (length l - 1) l d = last l d.
Proof.
  induction l as [|x l IH]; [reflexivity|].
  destruct l as [|y l]; [reflexivity|].
  change (last (x :: y :: l) d) with (last (y :: l) d). rewrite <- IH.
  simpl. rewrite Nat.sub_0_r. reflexivity.
Qed.

Lemma getitem_last {A} (l : list A) (d : A) :
  l <> [] -> getitem l (-1) = Ok (last l d).
Proof.
  intros H. unfold getitem. cbv zeta.
  assert (E : (-1 <? 0)%Z = true) by reflexivity. rewrite E.
  assert (Hlen : (0 < length l)%nat) by (destruct l; [congruence | simpl; lia]).
  assert (E2 : (-1 + size l <? 0)%Z = false) by (apply Z.ltb_ge; unfold size; lia).
  rewrite E2.
  replace (Z.to_nat (-1 + size l)) with (length l - 1)%nat by (unfold size; lia).
  rewrite nth_error_nth' with (d := d) by lia.
  rewrite nth_last. reflexivity.
Qed.

Lemma getitem_repeat {A} (x : A) (n : nat) (i : Z) :
  (0 <= i < Z.of_nat n)%Z -> getitem (repeat x n) i = Ok x.
Proof.
  intros H. apply getitem_Ok; [lia|].
  apply nth_error_repeat. lia.
Qed.

Lemma getitem_map {A B} (f : A -> B) (l : list A) (i : Z) (x : A) :
  (0 <= i)%Z -> getitem l i = Ok x -> getitem (map f l) i = Ok (f x).
Proof.
  intros H. rewrite !getitem_nonneg by assumption.
  rewrite nth_error_map.
  destruct (nth_error l (Z.to_nat i)); simpl; congruence.
Qed.

Lemma getitem_app_mid {A} (l1 l2 : list A) (x : A) :
  getitem (l1 ++ x :: l2) (Z.of_nat (length l1)) = Ok x.
Proof.
  apply getitem_Ok; [lia|]. rewrite Nat2Z.id.
  rewrite nth_error_app2 by lia. rewrite Nat.sub_diag. reflexivity.
Qed.

Lemma update_app_mid {A} (l1 l2 : list A) (x y : A) :
  update (l1 ++ x :: l2) (length l1) y = l1 ++ y :: l2.
Proof. induction l1 as [|z l1 IH]; simpl; [reflexivity | now rewrite IH]. Qed.

Lemma update_length {A} (l : list A) (n : nat) (x : A) :
  length (update l n x) = length l.
Proof.
  revert n. induction l as [|y l IH]; intros [|n]; simpl; auto.
Qed.

Lemma setitem_in_range {A} (l : list A) (i : Z) (x : A) :
  (0 <= i < size l)%Z -> setitem l i x = Ok (update l (Z.to_nat i) x).
Proof.
  intros [H1 H2]. unfold setitem.
  assert (E : (i <? 0)%Z = false) by (apply Z.ltb_ge; lia).
  rewrite E. cbv zeta. rewrite E.
  assert (E2 : (size l <=? i)%Z = false) by (apply Z.leb_gt; lia).
  rewrite E2. reflexivity.
Qed.

Lemma setitem_app_mid {A} (l1 l2 : list A) (x y : A) :
  setitem (l1 ++ x :: l2) (Z.of_nat (length l1)) y = Ok (l1 ++ y :: l2).
Proof.
  rewrite setitem_in_range.
  - rewrite Nat2Z.id, update_app_mid. reflexivity.
  - unfold size. rewrite length_app. cbn [length]. lia.
Qed.

Lemma range_length a b : length (range a b) = Z.to_nat (b - a).
Proof. unfold range. now rewrite length_map, length_seq. Qed.

Lemma range_nil a b : (b <= a)%Z -> range a b = [].
Proof.
  intros H. unfold range. replace (Z.to_nat (b - a)) with 0%nat by lia. reflexivity.
Qed.

Lemma range_cons a b : (a < b)%Z -> range a b = a :: range (a + 1) b.
Proof.
  intros H. unfold range.
  replace (Z.to_nat (b - a)) with (S (Z.to_nat (b - (a + 1)))) by lia.
  simpl. f_equal; [lia|].
  rewrite <- seq_shift, map_map. apply map_ext. intros n. lia.
Qed.

Lemma in_range a b i : In i (range a b) <-> (a <= i < b)%Z.
Proof.
  unfold range. rewrite in_map_iff. split.
  - intros [n [<- Hn]]. apply in_seq in Hn. lia.
  - intros H. exists (Z.to_nat (i - a)). split; [lia|]. apply in_seq. lia.
Qed.

Lemma range_snoc a b : (a <= b)%Z -> range a (b + 1) = range a b ++ [b].
Proof.
  intros H. unfold range.
  replace (Z.to_nat (b + 1 - a)) with (S (Z.to_nat (b - a))) by lia.
  rewrite seq_S, map_app. simpl. do 2 f_equal. lia.
Qed.

Lemma mapM_ext {A B} (f g : A -> res B) (l : list A) :
  (forall x, In x l -> f x = g x) -> mapM f l = mapM g l.
Proof.
  induction l as [|x l IH]; intros H; simpl; [reflexivity|].
  rewrite H by (left; reflexivity).
  rewrite IH by (intros y Hy; apply H; right; assumption).
  reflexivity.
Qed.

Lemma mapM_pure {A B} (f : A -> res B) (g : A -> B) (l : list A) :
  (forall x, In x l -> f x = Ok (g x)) -> mapM f l = Ok (map g l).
Proof.
  induction l as [|x l IH]; intros H; simpl; [reflexivity|].
  rewrite H by (left; reflexivity).
  rewrite IH by (intros y Hy; apply H; right; assumption).
  reflexivity.
Qed.

Lemma mapM_length {A B} (f : A -> res B) (l : list A) (ys : list B) :
  mapM f l = Ok ys -> length ys = length l.
Proof.
  revert ys. induction l as [|x l IH]; intros ys H; simpl in H.
  - inversion H. reflexivity.
  - destruct (f x); [|discriminate]. simpl in H.
    destruct (mapM f l); [|discriminate]. simpl in H.
    inversion H. simpl. f_equal. apply IH. reflexivity.
Qed.

Lemma mapM_map {A B C} (f : B -> res C) (g : A -> B) (l : list A) :
  mapM f (map g l) = mapM (fun x => f (g x)) l.
Proof. induction l as [|x l IH]; simpl; [reflexivity | now rewrite IH]. Qed.

(** A serial loop over a freshly initialised array computes each cell from
    its initial value. *)
Lemma for_cells_serial_gen {A} (body : Z -> A -> res A) (x0 : A) (m : nat) :
  forall (done : list A),
    for_cells body (range (Z.of_nat (length done)) (Z.of_nat (length done + m)))
              (done ++ repeat x0 m) =
    (ys <- mapM (fun j => body j x0)
                (range (Z.of_nat (length done)) (Z.of_nat (length done + m))) ;;
     Ok (done ++ ys)).
Proof.
  induction m as [|m IH]; intros done.
  - rewrite range_nil by lia. simpl. reflexivity.
  - rewrite range_cons by lia. simpl repeat.
    cbn [for_cells mapM].
    rewrite getitem_app_mid. cbn [bind].
    destruct (body (Z.of_nat (length done)) x0) as [y|err]; [|reflexivity].
    cbn [bind]. rewrite setitem_app_mid. cbn [bind].
    replace (done ++ y :: repeat x0 m) with ((done ++ [y]) ++ repeat x0 m)
      by (rewrite <- app_assoc; reflexivity).
    specialize (IH (done ++ [y])).
    rewrite length_app in IH. simpl in IH.
    replace (Z.of_nat (length done + 1)) with (Z.of_nat (length done) + 1)%Z in IH by lia.
    replace (Z.of_nat (length done + 1 + m)) with (Z.of_nat (length done + S m)) in IH by lia.
    rewrite IH.
    destruct (mapM _ _) as [ys|err]; [|reflexivity].
    cbn [bind]. rewrite <- app_assoc. reflexivity.
Qed.

Lemma for_cells_serial {A} (body : Z -> A -> res A) (x0 : A) (n : Z) :
  for_cells body (range 0 n) (repeat x0 (Z.to_nat n)) =
  mapM (fun j => body j x0) (range 0 n).
Proof.
  destruct (Z.le_gt_cases n 0) as [H | H].
  - rewrite range_nil by lia. replace (Z.to_nat n) with 0%nat by lia. reflexivity.
  - pose proof (for_cells_serial_gen body x0 (Z.to_nat n) []) as E.
    simpl in E. rewrite Z2Nat.id in E by lia. rewrite E.
    destruct (mapM _ _); reflexivity.
Qed.

Lemma nth_error_update_eq {A} (l : list A) (n : nat) (x : A) :
  (n < length l)%nat -> nth_error (update l n x) n = Some x.
Proof.
  revert n. induction l as [|y l IH]; intros [|n] H; simpl in *; try lia.
  - reflexivity.
  - apply IH. lia.
Qed.

Lemma nth_error_update_neq {A} (l : list A) (n m : nat) (x : A) :
  n <> m -> nth_error (update l n x) m = nth_error l m.
Proof.
  revert n m. induction l as [|y l IH]; intros [|n] [|m] H; simpl; try reflexivity.
  - congruence.
  - apply IH. congruence.
Qed.

(** What a loop over distinct cells computes, whatever the order. *)
Lemma for_cells_nodup {A} (body : Z -> A -> res A) (order : list Z) :
  forall (arr out : list A),
    NoDup order ->
    (forall j, In j order -> (0 <= j < size arr)%Z) ->
    (for_cells body order arr = Ok out <->
     length out = length arr /\
     forall n, (n < length arr)%nat ->
       (In (Z.of_nat n) order ->
        exists x y, nth_error arr n = Some x /\ body (Z.of_nat n) x = Ok y /\
                    nth_error out n = Some y) /\
       (~ In (Z.of_nat n) order -> nth_error out n = nth_error arr n)).
Proof.
  induction order as [|j rest IH]; intros arr out Hnd Hin.
  - simpl. split.
    + intros E. inversion E. subst out. split; [reflexivity|].
      intros n Hn. split; [tauto | reflexivity].
    + intros [Hlen Hn]. f_equal. symmetry. apply nth_error_ext. intros n.
      destruct (Nat.lt_ge_cases n (length arr)) as [Hlt | Hge].
      * apply Hn; [assumption | tauto].
      * rewrite (proj2 (nth_error_None arr n)) by assumption.
        apply nth_error_None. lia.
  - inversion Hnd as [|? ? Hj Hnd']. subst.
    assert (Hjr : (0 <= j < size arr)%Z) by (apply Hin; left; reflexivity).
    assert (Hjn : j = Z.of_nat (Z.to_nat j)) by lia.
    assert (Hjl : (Z.to_nat j < length arr)%nat) by (unfold size in Hjr; lia).
    destruct (nth_error arr (Z.to_nat j)) as [x|] eqn:Ex.
    2:{ apply nth_error_None in Ex. lia. }
    cbn [for_cells]. rewrite (getitem_Ok arr j x) by (assumption || lia).
    cbn [bind].
    destruct (body j x) as [y|err] eqn:Eb; cbn [bind].
    + rewrite setitem_in_range by assumption. cbn [bind].
      rewrite IH; [|assumption|].
      2:{ intros i Hi. unfold size. rewrite update_length.
          apply Hin. right. assumption. }
      rewrite update_length.
      split; intros [Hlen Hn]; (split; [assumption|]); intros n Hlt;
        specialize (Hn n Hlt); destruct Hn as [Hn1 Hn2].
      * destruct (Nat.eq_dec n (Z.to_nat j)) as [-> | Hne].
        -- split.
           ++ intros _. exists x, y. repeat split; try assumption.
              ** rewrite <- Hjn. assumption.
              ** rewrite Hn2, nth_error_update_eq by (rewrite <- ?Hjn; assumption).
                 reflexivity.
           ++ intros Hc. exfalso. apply Hc. left. assumption.
        -- rewrite nth_error_update_neq in Hn1, Hn2 by congruence.
           split.
           ++ intros [Hc | Hc]; [lia | auto].
           ++ intros Hc. apply Hn2. intros Hc'. apply Hc. right. assumption.
      * destruct (Nat.eq_dec n (Z.to_nat j)) as [-> | Hne].
        -- split.
           ++ intros Hc. exfalso. rewrite <- Hjn in Hc. contradiction.
           ++ intros _. rewrite nth_error_update_eq by assumption.
              destruct Hn1 as [x' [y' [E1 [E2 E3]]]]; [left; assumption|].
              rewrite <- Hjn in E2. congruence.
        -- rewrite nth_error_update_neq by congruence.
           split.
           ++ intros Hc. apply Hn1. right. assumption.
           ++ intros Hc. apply Hn2. intros [Hc' | Hc']; [lia | contradiction].
    + split; [discriminate|].
      intros [Hlen Hn]. specialize (Hn _ Hjl). destruct Hn as [Hn1 _].
      destruct Hn1 as [x' [y' [E1 [E2 E3]]]]; [left; assumption|].
      rewrite <- Hjn in E2. congruence.
Qed.

(** A [prange] loop returns what the serial loop returns, whatever the
    schedule of its iterations. *)
Lemma for_cells_schedule {A} (body : Z -> A -> res A) (sched : list Z) (n : Z)
    (arr : list A) :
  Permutation sched (range 0 n) -> size arr = Z.max 0 n ->
  same_result (for_cells body sched arr) (for_cells body (range 0 n) arr).
Proof.
  intros Hp Hsz out.
  assert (Hr : forall j, In j (range 0 n) -> (0 <= j < size arr)%Z).
  { intros j Hj. apply in_range in Hj. lia. }
  assert (Hndr : NoDup (range 0 n)).
  { unfold range. apply Injective_map_NoDup; [|apply seq_NoDup].
    intros a b. lia. }
  rewrite !for_cells_nodup; try assumption.
  - split; intros [Hlen Hn]; (split; [assumption|]); intros m Hm;
      specialize (Hn m Hm); destruct Hn as [Hn1 Hn2]; split; intros Hc.
    + apply Hn1. eapply Permutation_in; [apply Permutation_sym|]; eassumption.
    + apply Hn2. intros Hc'. apply Hc. eapply Permutation_in; eassumption.
    + apply Hn1. eapply Permutation_in; eassumption.
    + apply Hn2. intros Hc'. apply Hc.
      eapply Permutation_in; [apply Permutation_sym|]; eassumption.
  - eapply Permutation_NoDup; [apply Permutation_sym|]; eassumption.
  - intros j Hj. apply Hr. eapply Permutation_in; eassumption.
Qed.

Lemma same_result_refl {A} (r : res A) : same_result r r.
Proof. intros x. tauto. Qed.

Lemma same_result_Ok {A} (r : res A) (x : A) :
  same_result r (Ok x) -> r = Ok x.
Proof. intros H. apply H. reflexivity. Qed.

(** A [prange] loop over a fresh array. *)
Lemma for_cells_parallel {A} (body : Z -> A -> res A) (sched : list Z) (n : Z)
    (x0 : A) :
  Permutation sched (range 0 n) ->
  same_result (for_cells body sched (repeat x0 (Z.to_nat n)))
              (mapM (fun j => body j x0) (range 0 n)).
Proof.
  intros Hp. rewrite <- for_cells_serial. apply for_cells_schedule; [assumption|].
  unfold size. rewrite repeat_length. lia.
Qed.
(** ** Geometry: the region policy *)

Ltac rcmp :=
  repeat first
    [ rewrite Rltb_true by lra | rewrite Rltb_false by lra
    | rewrite Rleb_true by lra | rewrite Rleb_false by lra
    | rewrite Reqb_true by lra | rewrite Reqb_false by lra ].

Lemma div_in_unit x d : 0 < d -> - d <= x <= d -> -1 <= x / d <= 1.
Proof.
  intros Hd [H1 H2]. split.
  - apply Rmult_le_reg_r with d; [assumption|].
    unfold Rdiv. rewrite Rmult_assoc, Rinv_l by lra. lra.
  - apply Rmult_le_reg_r with d; [assumption|].
    unfold Rdiv. rewrite Rmult_assoc, Rinv_l by lra. lra.
Qed.

(** In the lens region every operation of the closed form is defined. *)
Lemma cci_lens (r1 r2 b : R) :
  0 < r1 -> 0 < r2 -> b <= r1 + r2 -> r1 < b + r2 -> - r1 < b - r2 ->
  circle_circle_intersection_area r1 r2 b = Fin (lens_area r1 r2 b).
Proof.
  intros Hr1 Hr2 H1 H2 H3.
  assert (Hb : 0 < b) by lra.
  unfold circle_circle_intersection_area. fnorm. rcmp.
  rewrite !fdiv_fin by nra.
  rewrite !arccos_fin by (apply div_in_unit; nra).
  fnorm.
  rewrite fsqrt_fin.
  2:{ apply Rmult_le_pos; [|lra].
      apply Rmult_le_pos; [|lra].
      apply Rmult_le_pos; lra. }
  fnorm. reflexivity.
Qed.


(** In exact arithmetic the four regions are as the tests of the code read:
    no overlap beyond the tangent separation, the whole second disk, the
    whole first disk, and the lens in between. *)
Lemma circle_circle_intersection_area_regions (r1 r2 b : R) :
  0 < r1 -> 0 < r2 -> 0 <= b ->
  (r1 + r2 < b -> circle_circle_intersection_area r1 r2 b = Fin 0) /\
  (b + r2 <= r1 -> circle_circle_intersection_area r1 r2 b = Fin (PI * r2 ^ 2)) /\
  (b - r2 <= - r1 -> circle_circle_intersection_area r1 r2 b = Fin (PI * r1 ^ 2)) /\
  (b <= r1 + r2 -> ~ b + r2 <= r1 -> ~ b - r2 <= - r1 ->
   circle_circle_intersection_area r1 r2 b = Fin (lens_area r1 r2 b)).
Proof.
  intros Hr1 Hr2 Hb. repeat split.
  - intros H. unfold circle_circle_intersection_area. fnorm. rcmp. reflexivity.
  - intros H. unfold circle_circle_intersection_area. fnorm. rcmp. reflexivity.
  - intros H. unfold circle_circle_intersection_area. fnorm.
    destruct (Rle_dec (b + r2) r1) as [H2 | H2].
    + rcmp. f_equal. replace r2 with r1 by lra. ring.
    + rcmp. reflexivity.
  - intros H1 H2 H3. apply cci_lens; lra.
Qed.

(** C1 (fails on the code): the first test of
    [circle_circle_intersection_area] is strict, [r1 < b - r2], so two
    tangent circles are not given the area 0 of the first branch: they reach
    the closed form, whose arccos arguments are then 1 in exact arithmetic,
    the edge of the domain.  In binary64, for r1 = 1.0, r2 = 0.1, b = 1.1 the
    difference b - r2 is 1.0, none of the three tests holds, and the first
    arccos argument is a double above 1: numpy's arccos returns NaN there, and
    NaN is what the function returns, where the claim says 0. *)
Theorem tangent_circles_reach_arccos :
  let r1 := b64_of_Z 1 in
  let r2 := b64_ratio 1 10 in
  let b := b64_ratio 11 10 in
  PrimFloat.sub b r2 = r1 /\
  exists q2 c2 q1 c1 h,
    circle_circle_intersection_area_b64 r1 r2 b = LensArea q2 c2 q1 c1 h /\
    PrimFloat.ltb (b64_of_Z 1) c2 = true /\
    arccos_is_nan c2 = true.
Proof.
  cbv zeta. split; [vm_compute; reflexivity|].
  do 5 eexists. split; [vm_compute; reflexivity|].
  split; vm_compute; reflexivity.
Qed.

(** ** The grazing grid and the table reads *)

Lemma getitem_range (a b i : Z) :
  (0 <= i < b - a)%Z -> getitem (range a b) i = Ok (a + i)%Z.
Proof.
  intros H. apply getitem_Ok; [lia|]. unfold range.
  rewrite nth_error_map, nth_error_seq.
  destruct (Nat.ltb_spec (Z.to_nat i) (Z.to_nat (b - a))) as [Hlt | Hge]; [|lia].
  simpl. f_equal. lia.
Qed.

Lemma of_int_fin n : of_int n = Fin (IZR n).
Proof. reflexivity. Qed.

(** On finite end points [linspace] is the evenly spaced grid. *)
Lemma linspace_fin (a b : R) (n : Z) :
  (2 <= n)%Z ->
  linspace (Fin a) (Fin b) n =
  map (fun i => Fin (a + IZR i * ((b - a) / IZR (n - 1)))) (range 0 n).
Proof.
  intros H. unfold linspace.
  assert (E1 : (n <=? 0)%Z = false) by (apply Z.leb_gt; lia).
  assert (E2 : (n =? 1)%Z = false) by (apply Z.eqb_neq; lia).
  rewrite E1, E2.
  assert (Hn : IZR (n - 1) <> 0) by (apply not_0_IZR; lia).
  replace (range 0 n) with (range 0 (n - 1) ++ [(n - 1)%Z]).
  2:{ rewrite <- range_snoc by lia. f_equal. lia. }
  rewrite map_app. f_equal.
  - apply map_ext. intros i. rewrite !of_int_fin. fnorm.
    rewrite fdiv_fin by assumption. fnorm. reflexivity.
  - simpl. do 2 f_equal. field. assumption.
Qed.

Lemma linspace_size (a b : R) (n : Z) :
  (2 <= n)%Z -> size (linspace (Fin a) (Fin b) n) = n.
Proof.
  intros H. rewrite linspace_fin by assumption.
  unfold size. rewrite length_map, range_length. lia.
Qed.

Lemma linspace_getitem (a b : R) (n i : Z) :
  (2 <= n)%Z -> (0 <= i < n)%Z ->
  getitem (linspace (Fin a) (Fin b) n) i =
  Ok (Fin (a + IZR i * ((b - a) / IZR (n - 1)))).
Proof.
  intros Hn Hi. rewrite linspace_fin by assumption.
  rewrite (getitem_map _ _ _ i); [reflexivity | lia |].
  rewrite getitem_range by lia. f_equal.
Qed.

Lemma grazing_step_pos ng : (2 <= ng)%Z -> 0 < grazing_step ng.
Proof.
  intros H. unfold grazing_step. apply IZR_le in H.
  apply Rdiv_lt_0_compat; lra.
Qed.

(** The table builders once their sample counts are accepted. *)
Lemma calculate_weights_2d_body (k : float) (ze : list float) (ng : Z) :
  (0 <= ng)%Z ->
  calculate_weights_2d k ze ng =
  (weights <- mapM (fun g => weights_row k ze (g * (1 + k))%flt)
                   (linspace 0 (Fin (1 - 1e-7)) ng) ;;
   g1 <- getitem (linspace 0 (Fin (1 - 1e-7)) ng) 1 ;;
   g0 <- getitem (linspace 0 (Fin (1 - 1e-7)) ng) 0 ;;
   Ok (linspace 0 (Fin (1 - 1e-7)) ng, (g1 - g0)%flt, weights)).
Proof.
  intros H. unfold calculate_weights_2d.
  rewrite (proj2 (Z.ltb_ge ng 0) H). reflexivity.
Qed.

Lemma calculate_weights_3d_body (nk : Z) (k0 k1 : float) (ze : list float) (ng : Z) :
  (1 <= nk)%Z -> (0 <= ng)%Z ->
  calculate_weights_3d nk k0 k1 ze ng =
  (weights <-
     mapM (fun k => mapM (fun g => weights_row k ze (g * (1 + k))%flt)
                         (linspace 0 (Fin (1 - 1e-7)) ng))
          (linspace k0 k1 nk) ;;
   g1 <- getitem (linspace 0 (Fin (1 - 1e-7)) ng) 1 ;;
   g0 <- getitem (linspace 0 (Fin (1 - 1e-7)) ng) 0 ;;
   Ok (((k1 - k0) / of_int nk)%flt, (g1 - g0)%flt, weights)).
Proof.
  intros Hnk Hng. unfold calculate_weights_3d.
  rewrite (proj2 (Z.ltb_ge nk 0)) by lia.
  rewrite (proj2 (Z.ltb_ge ng 0)) by lia.
  rewrite (proj2 (Z.eqb_neq nk 0)) by lia. reflexivity.
Qed.

Lemma calculate_weights_2d_shape (k : float) (ze : list float) (ng : Z)
    gs dg weights :
  (2 <= ng)%Z ->
  calculate_weights_2d k ze ng = Ok (gs, dg, weights) ->
  gs = linspace 0 (Fin (1 - 1e-7)) ng /\
  dg = Fin (grazing_step ng) /\
  size weights = ng.
Proof.
  intros Hng E. rewrite calculate_weights_2d_body in E by lia.
  destruct (mapM _ _) as [ws|] eqn:Ew; [|discriminate].
  cbn [bind] in E.
  rewrite !linspace_getitem in E by lia. cbn [bind] in E.
  inversion E. subst. clear E. repeat split.
  - fnorm. f_equal. unfold grazing_step. rewrite minus_IZR.
    simpl. field. apply IZR_le in Hng. lra.
  - apply mapM_length in Ew. unfold size. rewrite Ew.
    apply linspace_size. assumption.
Qed.

Lemma matvec_size (m : list (list float)) (v : list float) :
  size (matvec m v) = size m.
Proof. unfold size, matvec. now rewrite length_map. Qed.

Lemma grazing_index_high (ng : Z) (g : R) :
  (2 <= ng)%Z -> 1 - 1e-7 <= g ->
  (ng - 1 <= Zfloor (g / grazing_step ng))%Z.
Proof.
  intros Hng Hg. apply Zfloor_lub. rewrite minus_IZR.
  apply IZR_le in Hng. unfold grazing_step.
  replace (g / ((1 - 1e-7) / (IZR ng - 1))) with ((IZR ng - 1) * (g / (1 - 1e-7)))
    by (field; lra).
  assert (1 <= g / (1 - 1e-7)).
  { apply Rmult_le_reg_r with (1 - 1e-7); [lra|].
    unfold Rdiv. rewrite Rmult_assoc, Rinv_l by lra. lra. }
  simpl. nra.
Qed.


(** The blend of [lerp], [im_p_s], [im_p_v] and [im_p_v2] on a table of
    [ng] entries with the grazing step of that table. *)
Lemma lerp_past_table (ng : Z) (g : R) (ldw : list float) :
  (2 <= ng)%Z -> size ldw = ng -> 1 - 1e-7 <= g < 1 ->
  lerp (Fin g) (Fin (grazing_step ng)) ldw = Err IndexError.
Proof.
  intros Hng Hsz [Hg1 Hg2].
  pose proof (grazing_step_pos ng Hng) as Hs.
  pose proof (grazing_index_high ng g Hng Hg1) as Hi.
  unfold lerp. fnorm. rcmp. rewrite fdiv_fin by lra. cbn [int_floor bind].
  set (ig := Zfloor (g / grazing_step ng)) in *.
  destruct (Z.eq_dec ig (ng - 1)) as [E | E].
  - destruct (getitem_in_range ldw ig) as [l0 El0]; [lia|].
    rewrite El0. cbn [bind]. rewrite getitem_oob by lia. reflexivity.
  - rewrite getitem_oob by lia. reflexivity.
Qed.

(** C10 (fails on the code): the blend of [lerp] and [im_p_s] is guarded by
    [g >= 1.0], but the grazing grid of [calculate_weights_2d] ends at
    1 - 1e-7; for every grazing value in [1 - 1e-7, 1) the upper index
    [ig + 1] is [ng] or more and the read leaves the table. *)
Theorem lerp_reads_past_last_row (k : float) (ze : list float) (ng : Z)
    (gs : list float) (dg : float) (weights : list (list float))
    (ldp : list float) (g : R) :
  (2 <= ng)%Z ->
  calculate_weights_2d k ze ng = Ok (gs, dg, weights) ->
  1 - 1e-7 <= g < 1 ->
  size weights = ng /\
  dg = Fin (grazing_step ng) /\
  (ng <= Zfloor (g / grazing_step ng) + 1)%Z /\
  lerp (Fin g) dg (matvec weights ldp) = Err IndexError /\
  im_p_s (Fin g) dg weights ldp = Err IndexError.
Proof.
  intros Hng E [Hg1 Hg2].
  destruct (calculate_weights_2d_shape _ _ _ _ _ _ Hng E) as [_ [-> Hsz]].
  pose proof (grazing_step_pos ng Hng) as Hs.
  pose proof (grazing_index_high ng g Hng Hg1) as Hi.
  repeat split; try assumption; try lia.
  - apply lerp_past_table; [assumption | now rewrite matvec_size | lra].
  - unfold im_p_s. fnorm. rcmp. rewrite fdiv_fin by lra. cbn [int_floor bind].
    set (ig := Zfloor (g / grazing_step ng)) in *.
    destruct (Z.eq_dec ig (ng - 1)) as [E' | E'].
    + destruct (getitem_in_range weights ig) as [l0 El0]; [lia|].
      rewrite El0. cbn [bind]. rewrite getitem_oob by lia. reflexivity.
    + rewrite getitem_oob by lia. reflexivity.
Qed.

(** ** The overlap area is finite and positive *)

Lemma overlap_area_fin (r1 r2 b : R) :
  0 <= r1 -> 0 < r2 -> 0 <= b ->
  circle_circle_intersection_area (Fin r1) (Fin r2) (Fin b) =
  Fin (overlap_area r1 r2 b).
Proof.
  intros Hr1 Hr2 Hb. unfold overlap_area.
  destruct (Rltb_spec r1 (b - r2)) as [H1 | H1].
  { unfold circle_circle_intersection_area. fnorm. rcmp. reflexivity. }
  destruct (Rleb_spec (b + r2) r1) as [H2 | H2].
  { unfold circle_circle_intersection_area. fnorm. rcmp. reflexivity. }
  destruct (Rleb_spec (b - r2) (- r1)) as [H3 | H3].
  { unfold circle_circle_intersection_area. fnorm. rcmp. reflexivity. }
  apply cci_lens; lra.
Qed.

Lemma div_in_unit_lt x d : 0 < d -> - d < x < d -> -1 < x / d < 1.
Proof.
  intros Hd [H1 H2]. split.
  - apply Rmult_lt_reg_r with d; [assumption|].
    unfold Rdiv. rewrite Rmult_assoc, Rinv_l by lra. lra.
  - apply Rmult_lt_reg_r with d; [assumption|].
    unfold Rdiv. rewrite Rmult_assoc, Rinv_l by lra. lra.
Qed.

(** A circular sector is larger than the triangle it contains. *)
Lemma acos_gt_chord (c : R) : -1 < c < 1 -> c * sqrt (1 - c²) < acos c.
Proof.
  intros Hc.
  destruct (acos_bound_lt c Hc) as [H0 Hpi].
  assert (E1 : cos (acos c) = c) by (apply cos_acos; lra).
  assert (E2 : sin (acos c) = sqrt (1 - c²)) by (apply sin_acos; lra).
  rewrite <- E2. rewrite <- E1 at 1.
  pose proof (sin_lt_x (2 * acos c)) as H.
  rewrite sin_2a in H.
  assert (H' : 2 * sin (acos c) * cos (acos c) < 2 * acos c) by (apply H; lra).
  lra.
Qed.

Lemma sqrt_scaled (x y : R) : 0 <= x -> 0 <= y -> sqrt (x ^ 2 * y) = x * sqrt y.
Proof.
  intros Hx Hy. rewrite sqrt_mult by (try apply pow2_ge_0; assumption).
  rewrite sqrt_pow2 by assumption. reflexivity.
Qed.

Lemma lens_area_pos (r1 r2 b : R) :
  0 < r1 -> 0 < r2 -> b < r1 + r2 -> r1 < b + r2 -> r2 < b + r1 ->
  0 < lens_area r1 r2 b.
Proof.
  intros Hr1 Hr2 H1 H2 H3.
  assert (Hb : 0 < b) by lra.
  unfold lens_area.
  set (c2 := (b ^ 2 + r2 ^ 2 - r1 ^ 2) / (2 * b * r2)).
  set (c1 := (b ^ 2 + r1 ^ 2 - r2 ^ 2) / (2 * b * r1)).
  set (P := (- b + r2 + r1) * (b + r2 - r1) * (b - r2 + r1) * (b + r2 + r1)).
  assert (Hc2 : -1 < c2 < 1) by (apply div_in_unit_lt; nra).
  assert (Hc1 : -1 < c1 < 1) by (apply div_in_unit_lt; nra).
  assert (Hs2 : 0 <= 1 - c2²) by (unfold Rsqr; nra).
  assert (Hs1 : 0 <= 1 - c1²) by (unfold Rsqr; nra).
  assert (EP2 : sqrt P = (2 * b * r2) * sqrt (1 - c2²)).
  { rewrite <- sqrt_scaled by nra. f_equal.
    unfold P, c2, Rsqr. field. lra. }
  assert (EP1 : sqrt P = (2 * b * r1) * sqrt (1 - c1²)).
  { rewrite <- sqrt_scaled by nra. f_equal.
    unfold P, c1, Rsqr. field. lra. }
  pose proof (acos_gt_chord c2 Hc2) as G2.
  pose proof (acos_gt_chord c1 Hc1) as G1.
  set (S2 := sqrt (1 - c2²)) in *.
  set (S1 := sqrt (1 - c1²)) in *.
  set (Q := sqrt P) in *.
  assert (EQ : 0.5 * Q = r1 ^ 2 * (c1 * S1) + r2 ^ 2 * (c2 * S2)).
  { replace S1 with (Q / (2 * b * r1)) by (rewrite EP1; field; lra).
    replace S2 with (Q / (2 * b * r2)) by (rewrite EP2; field; lra).
    replace 0.5 with (/ 2) by lra.
    unfold c1, c2. field. lra. }
  rewrite EQ.
  assert (0 < r2 ^ 2) by nra.
  assert (0 < r1 ^ 2) by nra.
  nra.
Qed.

(** The planet always covers part of the star while they overlap. *)
Lemma overlap_area_star_pos (k b : R) :
  0 < k < 1 -> 0 <= b < 1 + k -> 0 < overlap_area 1 k b.
Proof.
  intros [Hk0 Hk1] [Hb0 Hb1]. unfold overlap_area.
  rewrite Rltb_false by lra.
  destruct (Rleb_spec (b + k) 1) as [H2 | H2].
  { apply Rmult_lt_0_compat; [apply PI_RGT_0 | apply pow_lt; lra]. }
  rewrite Rleb_false by lra.
  apply lens_area_pos; lra.
Qed.

(** ** Rows of the weight table *)

Lemma fsum_fin (l : list R) : fsum (map Fin l) = Fin (Rsum l).
Proof.
  induction l as [|x l IH]; simpl; [reflexivity|].
  rewrite IH. reflexivity.
Qed.

Lemma Rsum_scale (l : list R) (s : R) :
  Rsum (map (fun w => w / s) l) = Rsum l / s.
Proof.
  induction l as [|x l IH]; simpl.
  - unfold Rdiv. ring.
  - rewrite IH. unfold Rdiv. ring.
Qed.

Lemma last_cons {A} (l : list A) : forall (x d : A), last (x :: l) d = last l x.
Proof.
  induction l as [|y l IH]; intros x d; [reflexivity|].
  change (last (x :: y :: l) d) with (last (y :: l) d).
  rewrite (IH y d), (IH y x). reflexivity.
Qed.

Lemma last_map {A B} (f : A -> B) (l : list A) (d : A) (d' : B) :
  l <> [] -> last (map f l) d' = f (last l d).
Proof.
  induction l as [|x l IH]; intros H; [congruence|].
  destruct l as [|y l]; [reflexivity|].
  change (last (map f (x :: y :: l)) d') with (last (map f (y :: l)) d').
  change (last (x :: y :: l) d) with (last (y :: l) d).
  apply IH. discriminate.
Qed.

Lemma area_differences_length (k b : float) (zs : list float) :
  forall a0 s, length (fst (area_differences k b zs a0 s)) = length zs.
Proof.
  induction zs as [|z zs IH]; intros a0 s; [reflexivity|].
  cbn [area_differences].
  specialize (IH (circle_circle_intersection_area z k b)
                 (s + (circle_circle_intersection_area z k b - a0))%flt).
  destruct (area_differences _ _ _ _ _) as [ws s'].
  simpl in *. f_equal. assumption.
Qed.

(** The running sum telescopes to the area at the last edge. *)
Lemma area_differences_fin (k b : R) (zs : list R) :
  0 < k -> 0 <= b -> Forall (fun z => 0 <= z) zs ->
  forall a0 s,
  exists ws,
    area_differences (Fin k) (Fin b) (map Fin zs) (Fin a0) (Fin s) =
    (map Fin ws,
     Fin (s + (last (map (fun z => overlap_area z k b) zs) a0 - a0))) /\
    Rsum ws = last (map (fun z => overlap_area z k b) zs) a0 - a0.
Proof.
  intros Hk Hb Hz. induction Hz as [|z zs Hz0 Hzs IH]; intros a0 s.
  - exists []. simpl. split; [|ring]. do 2 f_equal. ring.
  - cbn [map area_differences].
    rewrite overlap_area_fin by assumption. fnorm.
    destruct (IH (overlap_area z k b) (s + (overlap_area z k b - a0)))
      as [ws [E1 E2]].
    rewrite E1. exists ((overlap_area z k b - a0) :: ws).
    rewrite last_cons. cbn [map Rsum]. split.
    + do 2 f_equal. ring.
    + rewrite E2. ring.
Qed.

Lemma weights_row_sum (k b : R) (zes : list R) :
  0 < k < 1 -> 0 <= b < 1 + k ->
  zes <> [] -> Forall (fun z => 0 <= z) zes -> last zes 0 = 1 ->
  exists ws,
    weights_row (Fin k) (map Fin zes) (Fin b) = Ok (map Fin ws) /\
    length ws = length zes /\
    Rsum ws = 1.
Proof.
  intros Hk Hb Hne Hz Hlast.
  destruct zes as [|z0 zs]; [congruence|].
  inversion Hz as [|? ? Hz0 Hzs]. subst.
  unfold weights_row. cbn [map tl]. rewrite getitem_cons_0. cbn [bind].
  rewrite overlap_area_fin by lra.
  destruct (area_differences_fin k b zs (proj1 Hk) (proj1 Hb) Hzs
              (overlap_area z0 k b) (overlap_area z0 k b)) as [ws [E1 E2]].
  rewrite E1.
  set (L := last (map (fun z => overlap_area z k b) zs) (overlap_area z0 k b)) in *.
  assert (HL : L = overlap_area 1 k b).
  { unfold L. rewrite <- last_cons with (d := 0).
    change (overlap_area z0 k b :: map (fun z => overlap_area z k b) zs)
      with (map (fun z => overlap_area z k b) (z0 :: zs)).
    rewrite last_map with (d := 0) by discriminate.
    rewrite Hlast. reflexivity. }
  pose proof (overlap_area_star_pos k b Hk Hb) as Hpos.
  replace (overlap_area z0 k b + (L - overlap_area z0 k b)) with L by ring.
  rewrite is_zero_fin by lra.
  exists (map (fun w => w / L) (overlap_area z0 k b :: ws)).
  split; [|split].
  - f_equal. rewrite map_map. cbn [map]. f_equal.
    + apply fdiv_fin. lra.
    + rewrite map_map. apply map_ext. intros w. apply fdiv_fin. lra.
  - rewrite length_map. cbn [length]. f_equal.
    assert (El : length (map Fin ws) = length (map Fin zs)).
    { rewrite <- (area_differences_length (Fin k) (Fin b) (map Fin zs)
                    (Fin (overlap_area z0 k b)) (Fin (overlap_area z0 k b))).
      rewrite E1. reflexivity. }
    rewrite !length_map in El. assumption.
  - rewrite Rsum_scale. cbn [Rsum]. rewrite E2. fold L.
    field. lra.
Qed.

Lemma mapM_Forall {A B} (f : A -> res B) (P : B -> Prop) (l : list A) :
  (forall x, In x l -> exists y, f x = Ok y /\ P y) ->
  exists ys, mapM f l = Ok ys /\ Forall P ys /\ length ys = length l.
Proof.
  induction l as [|x l IH]; intros H.
  - exists []. simpl. auto.
  - destruct (H x) as [y [Ey Py]]; [left; reflexivity|].
    destruct IH as [ys [Eys [Pys Hlen]]].
    { intros z Hz. apply H. right. assumption. }
    exists (y :: ys). simpl. rewrite Ey, Eys. simpl. auto.
Qed.

(** Every sample of the grazing grid lies in [0, 1 - 1e-7]. *)
Lemma grazing_sample_bounds (ng i : Z) :
  (2 <= ng)%Z -> (0 <= i < ng)%Z ->
  0 <= 0 + IZR i * ((1 - 1e-7 - 0) / IZR (ng - 1)) <= 1 - 1e-7.
Proof.
  intros Hng [Hi0 Hi1].
  assert (Hn : 0 < IZR (ng - 1)) by (apply IZR_lt; lia).
  assert (Hi : 0 <= IZR i <= IZR (ng - 1)) by (split; apply IZR_le; lia).
  replace (0 + IZR i * ((1 - 1e-7 - 0) / IZR (ng - 1)))
    with ((1 - 1e-7) * (IZR i / IZR (ng - 1))) by (field; lra).
  assert (Hq : 0 <= IZR i / IZR (ng - 1) <= 1).
  { split.
    - apply Rmult_le_reg_r with (IZR (ng - 1)); [assumption|].
      unfold Rdiv. rewrite Rmult_assoc, Rinv_l by lra. lra.
    - apply Rmult_le_reg_r with (IZR (ng - 1)); [assumption|].
      unfold Rdiv. rewrite Rmult_assoc, Rinv_l by lra. lra. }
  nra.
Qed.

(** The rows built for one radius ratio. *)
Lemma weight_rows_for_k (k : R) (zes : list R) (ng : Z) :
  0 < k < 1 -> (2 <= ng)%Z ->
  zes <> [] -> Forall (fun z => 0 <= z) zes -> last zes 0 = 1 ->
  exists weights,
    mapM (fun g => weights_row (Fin k) (map Fin zes) (g * (1 + Fin k))%flt)
         (linspace 0 (Fin (1 - 1e-7)) ng) = Ok weights /\
    Forall (fun row => fsum row = Fin 1 /\ length row = length zes) weights /\
    length weights = Z.to_nat ng.
Proof.
  intros Hk Hng Hne Hz Hlast.
  rewrite linspace_fin by assumption. rewrite mapM_map.
  destruct (mapM_Forall
              (fun i => weights_row (Fin k) (map Fin zes)
                 (Fin (0 + IZR i * ((1 - 1e-7 - 0) / IZR (ng - 1))) * (1 + Fin k))%flt)
              (fun row => fsum row = Fin 1 /\ length row = length zes)
              (range 0 ng)) as [ws [E [Hf Hlen]]].
  - intros i Hi. apply in_range in Hi.
    pose proof (grazing_sample_bounds ng i Hng Hi) as Hg.
    fnorm.
    destruct (weights_row_sum k
                ((0 + IZR i * ((1 - 1e-7 - 0) / IZR (ng - 1))) * (1 + k)) zes)
      as [row [Er [Hl Hs]]]; try assumption.
    { nra. }
    exists (map Fin row). split; [assumption|].
    rewrite fsum_fin, Hs, length_map. auto.
  - exists ws. rewrite range_length in Hlen.
    replace (ng - 0)%Z with ng in Hlen by lia. auto.
Qed.

(** Every sample of the radius-ratio grid lies between its end points. *)
Lemma linspace_between (k0 k1 : R) (nk : Z) :
  (1 <= nk)%Z -> 0 < k0 < 1 -> 0 < k1 < 1 ->
  Forall (fun k => exists kr, k = Fin kr /\ 0 < kr < 1) (linspace (Fin k0) (Fin k1) nk) /\
  length (linspace (Fin k0) (Fin k1) nk) = Z.to_nat nk.
Proof.
  intros Hnk H0 H1.
  destruct (Z.eq_dec nk 1) as [-> | Hne].
  - simpl. split; [|reflexivity]. constructor; [|constructor]. eauto.
  - rewrite linspace_fin by lia. split.
    + apply Forall_forall. intros x Hx. apply in_map_iff in Hx.
      destruct Hx as [i [<- Hi]]. apply in_range in Hi.
      eexists. split; [reflexivity|].
      assert (Hn : 0 < IZR (nk - 1)) by (apply IZR_lt; lia).
      assert (Hir : 0 <= IZR i <= IZR (nk - 1)) by (split; apply IZR_le; lia).
      replace (k0 + IZR i * ((k1 - k0) / IZR (nk - 1)))
        with (k0 + (IZR i / IZR (nk - 1)) * (k1 - k0)) by (field; lra).
      assert (Hq : 0 <= IZR i / IZR (nk - 1) <= 1).
      { split.
        - apply Rmult_le_reg_r with (IZR (nk - 1)); [assumption|].
          unfold Rdiv. rewrite Rmult_assoc, Rinv_l by lra. lra.
        - apply Rmult_le_reg_r with (IZR (nk - 1)); [assumption|].
          unfold Rdiv. rewrite Rmult_assoc, Rinv_l by lra. lra. }
      set (q := IZR i / IZR (nk - 1)) in *. clearbody q.
      replace (k0 + q * (k1 - k0)) with ((1 - q) * k0 + q * k1) by ring.
      destruct (Req_dec q 0) as [-> | Hq0]; [lra|].
      destruct (Req_dec q 1) as [-> | Hq1]; [lra|].
      assert (0 < (1 - q) * k0 < 1 - q) by nra.
      assert (0 < q * k1 < q) by nra.
      lra.
    + rewrite length_map, range_length. f_equal. lia.
Qed.

Lemma calculate_weights_2d_rows (k : R) (zes : list R) (ng : Z) :
  0 < k < 1 -> (2 <= ng)%Z ->
  zes <> [] -> Forall (fun z => 0 <= z) zes -> last zes 0 = 1 ->
  exists gs dg weights,
    calculate_weights_2d (Fin k) (map Fin zes) ng = Ok (gs, dg, weights) /\
    size weights = ng /\
    Forall (fun row => fsum row = Fin 1 /\ length row = length zes) weights.
Proof.
  intros Hk Hng Hne Hz Hlast.
  destruct (weight_rows_for_k k zes ng Hk Hng Hne Hz Hlast) as [ws [E [Hf Hlen]]].
  rewrite calculate_weights_2d_body by lia. rewrite E. cbn [bind].
  rewrite !linspace_getitem by lia. cbn [bind].
  do 3 eexists. split; [reflexivity|]. split.
  - unfold size. lia.
  - exact Hf.
Qed.

Lemma calculate_weights_3d_rows (zes : list R) (ng nk : Z) (k0 k1 : R) :
  (2 <= ng)%Z ->
  zes <> [] -> Forall (fun z => 0 <= z) zes -> last zes 0 = 1 ->
  (1 <= nk)%Z -> 0 < k0 < 1 -> 0 < k1 < 1 ->
  exists dk dg weights,
    calculate_weights_3d nk (Fin k0) (Fin k1) (map Fin zes) ng =
      Ok (dk, dg, weights) /\
    size weights = nk /\
    Forall (fun plane =>
              size plane = ng /\
              Forall (fun row => fsum row = Fin 1 /\ length row = length zes) plane)
           weights.
Proof.
  intros Hng Hne Hz Hlast Hnk Hk0 Hk1.
  destruct (linspace_between k0 k1 nk Hnk Hk0 Hk1) as [Hks Hklen].
  rewrite calculate_weights_3d_body by lia.
  destruct (mapM_Forall
              (fun k' => mapM (fun g => weights_row k' (map Fin zes)
                                          (g * (1 + k'))%flt)
                              (linspace 0 (Fin (1 - 1e-7)) ng))
              (fun plane => size plane = ng /\
                 Forall (fun row => fsum row = Fin 1 /\ length row = length zes) plane)
              (linspace (Fin k0) (Fin k1) nk)) as [ws [E [Hf Hlen]]].
  - intros k' Hin. rewrite Forall_forall in Hks.
    destruct (Hks k' Hin) as [kr [-> Hkr]].
    destruct (weight_rows_for_k kr zes ng Hkr Hng Hne Hz Hlast)
      as [plane [Ep [Hp Hpl]]].
    exists plane. split; [assumption|]. split.
    + unfold size. lia.
    + exact Hp.
  - rewrite E. cbn [bind].
    rewrite !linspace_getitem by lia. cbn [bind].
    do 3 eexists. split; [reflexivity|]. split.
    + unfold size. lia.
    + exact Hf.
Qed.



Lemma lerp_reads_past_last_row_witness :
  exists gs dg weights,
    calculate_weights_2d (Fin 0.5) (map Fin [0.5; 1]) 2 = Ok (gs, dg, weights) /\
    lerp (Fin (1 - 1e-7)) dg (matvec weights [Fin 1; Fin 1]) = Err IndexError.
Proof.
  destruct (calculate_weights_2d_rows 0.5 [0.5; 1] 2) as [gs [dg [ws [E _]]]].
  - lra.
  - lia.
  - discriminate.
  - repeat constructor; lra.
  - reflexivity.
  - exists gs, dg, ws. split; [exact E|].
    apply (lerp_reads_past_last_row (Fin 0.5) (map Fin [0.5; 1]) 2 gs dg ws
             [Fin 1; Fin 1] (1 - 1e-7)); [lia | exact E | lra].
Defined.

(** ** Interpolation of the limb-darkening profile *)

Lemma getitem_fin (l : list R) (i : Z) :
  (0 <= i < size l)%Z ->
  getitem (map Fin l) i = Ok (Fin (nth (Z.to_nat i) l 0)).
Proof.
  intros H. apply (getitem_map Fin l i); [lia|].
  apply getitem_nth. assumption.
Qed.

Lemma size_map {A B} (f : A -> B) (l : list A) : size (map f l) = size l.
Proof. unfold size. now rewrite length_map. Qed.

Lemma sorted_nth (l : list R) :
  StronglySorted Rlt l ->
  forall i j, (i < j < length l)%nat -> nth i l 0 < nth j l 0.
Proof.
  intros H. induction H as [|x l Hs IH Hall]; intros i j Hij.
  - simpl in Hij. lia.
  - destruct j as [|j]; [lia|]. destruct i as [|i].
    + simpl. rewrite Forall_forall in Hall. apply Hall.
      apply nth_In. simpl in Hij. lia.
    + simpl. apply IH. simpl in Hij. lia.
Qed.

(** The fuel of the two searches is never the reason to stop: a read outside
    the array ends them first. *)
Lemma search_up_fuel (z : float) (mz : list float) :
  forall fuel fuel' i,
    (size mz - i <= Z.of_nat fuel)%Z -> (size mz - i <= Z.of_nat fuel')%Z ->
    (0 <= i)%Z ->
    search_up fuel z mz i = search_up fuel' z mz i.
Proof.
  induction fuel as [|fuel IH]; intros fuel' i H1 H2 Hi.
  - destruct fuel' as [|fuel']; [reflexivity|].
    simpl. rewrite getitem_oob by lia. reflexivity.
  - destruct fuel' as [|fuel'].
    + simpl. rewrite getitem_oob by lia. reflexivity.
    + simpl. destruct (getitem mz (i + 1)) as [m|]; [|reflexivity].
      cbn [bind]. destruct (z >? m)%flt; [|reflexivity].
      apply IH; lia.
Qed.

Lemma getitem_below {A} (l : list A) (i : Z) :
  (i < - size l)%Z -> getitem l i = Err IndexError.
Proof.
  intros H. pose proof (size_nonneg l). unfold getitem. cbv zeta.
  assert (E : (i <? 0)%Z = true) by (apply Z.ltb_lt; lia). rewrite E.
  assert (E2 : (i + size l <? 0)%Z = true) by (apply Z.ltb_lt; lia).
  rewrite E2. reflexivity.
Qed.

Lemma search_down_fuel (z : float) (mz : list float) :
  forall fuel fuel' i,
    (i + size mz + 1 <= Z.of_nat fuel)%Z -> (i + size mz + 1 <= Z.of_nat fuel')%Z ->
    search_down fuel z mz i = search_down fuel' z mz i.
Proof.
  induction fuel as [|fuel IH]; intros fuel' i H1 H2.
  - destruct fuel' as [|fuel']; [reflexivity|].
    simpl. rewrite getitem_below by lia. reflexivity.
  - destruct fuel' as [|fuel'].
    + simpl. rewrite getitem_below by lia. reflexivity.
    + simpl. destruct (getitem mz i) as [m|]; [|reflexivity].
      cbn [bind]. destruct (z <? m)%flt; [|reflexivity].
      apply IH; lia.
Qed.

Section Interpolation.

Variable mzs : list R.
Variable z : R.
Hypothesis Hsorted : StronglySorted Rlt mzs.

Local Abbreviation node i := (nth (Z.to_nat i) mzs 0).

Lemma node_lt (i j : Z) : (0 <= i < j)%Z -> (j < size mzs)%Z -> node i < node j.
Proof.
  intros H1 H2. apply sorted_nth; [assumption|].
  unfold size in H2. lia.
Qed.

Lemma search_up_spec :
  forall fuel i,
    (0 <= i)%Z -> (i + 1 < size mzs)%Z ->
    node i < z -> z <= node (size mzs - 1) ->
    (size mzs - 1 - i <= Z.of_nat fuel)%Z ->
    exists i', (i <= i')%Z /\ (i' + 1 < size mzs)%Z /\
               node i' < z <= node (i' + 1) /\
               search_up fuel (Fin z) (map Fin mzs) i = Ok i'.
Proof.
  induction fuel as [|fuel IH]; intros i Hi0 Hi1 Hlo Hhi Hf; [lia|].
  simpl. rewrite getitem_fin by lia. cbn [bind].
  fnorm. destruct (Rltb_spec (node (i + 1)) z) as [Hgt | Hle].
  - assert (Hne : (i + 1 <> size mzs - 1)%Z).
    { intros E. rewrite E in Hgt. lra. }
    destruct (IH (i + 1)%Z) as [i' [H1 [H2 [H3 H4]]]]; try lia; try assumption.
    exists i'. repeat split; try lia; try apply H3. assumption.
  - exists i. repeat split; try lia; lra.
Qed.

Lemma search_down_spec :
  forall fuel i,
    (0 <= i < size mzs)%Z -> node 0 <= z ->
    (i + 1 <= Z.of_nat fuel)%Z ->
    exists i', (0 <= i' <= i)%Z /\ node i' <= z /\
               ((i' < i)%Z -> z < node (i' + 1)) /\
               search_down fuel (Fin z) (map Fin mzs) i = Ok i'.
Proof.
  induction fuel as [|fuel IH]; intros i Hi Hz Hf; [lia|].
  simpl. rewrite getitem_fin by lia. cbn [bind].
  fnorm. destruct (Rltb_spec z (node i)) as [Hlt | Hge].
  - assert (Hne : (i <> 0)%Z) by (intros ->; lra).
    destruct (IH (i - 1)%Z) as [i' [H1 [H2 [H3 H4]]]]; try lia; try assumption.
    exists i'. repeat split; try lia; try assumption.
    intros Hlt'. destruct (Z.eq_dec i' (i - 1)) as [-> | Hn].
    + replace (i - 1 + 1)%Z with i by lia. assumption.
    + apply H3. lia.
  - exists i. repeat split; try lia; lra.
Qed.

End Interpolation.

Lemma last_fin (l : list R) : l <> [] -> last (map Fin l) NaN = Fin (last l 0).
Proof. intros H. apply last_map. assumption. Qed.

Lemma interpolate_in_domain (mzs ls : list R) (z : R) :
  StronglySorted Rlt mzs -> (3 <= length mzs)%nat -> nth 0 mzs 0 = 0 ->
  length ls = length mzs ->
  0 <= z <= last mzs 0 ->
  exists i : nat,
    (i + 1 < length mzs)%nat /\
    nth i mzs 0 <= z <= nth (S i) mzs 0 /\
    interpolate_limb_darkening_s (Fin z) (map Fin mzs) (map Fin ls) =
    Ok (Fin (linear_interpolation z (nth i mzs 0) (nth (S i) mzs 0)
                                    (nth i ls 0) (nth (S i) ls 0))).
Proof.
  intros Hs Hlen H0 Hll [Hz0 Hz1].
  assert (Hne : mzs <> []) by (destruct mzs; [simpl in Hlen; lia | discriminate]).
  assert (Hsz : (3 <= size mzs)%Z) by (unfold size; lia).
  assert (Hszl : size ls = size mzs) by (unfold size; lia).
  set (i0 := (size mzs / 2)%Z).
  assert (Hi0 : (0 <= i0 /\ i0 + 1 < size mzs)%Z).
  { unfold i0. split; [apply Z.div_pos; lia|].
    assert (2 * (size mzs / 2) <= size mzs)%Z by (apply Z.mul_div_le; lia). lia. }
  assert (Hlast : last mzs 0 = nth (Z.to_nat (size mzs - 1)) mzs 0).
  { rewrite <- nth_last. f_equal. unfold size. lia. }
  assert (Hfinal : forall i', (0 <= i')%Z -> (i' + 1 < size mzs)%Z ->
            nth (Z.to_nat i') mzs 0 <= z <= nth (Z.to_nat (i' + 1)) mzs 0 ->
            exists i : nat,
              (i + 1 < length mzs)%nat /\
              nth i mzs 0 <= z <= nth (S i) mzs 0 /\
              (mi <- getitem (map Fin mzs) i' ;;
               mi1 <- getitem (map Fin mzs) (i' + 1) ;;
               let a := ((Fin z - mi) / (mi1 - mi))%flt in
               li <- getitem (map Fin ls) i' ;;
               li1 <- getitem (map Fin ls) (i' + 1) ;;
               Ok ((1 - a) * li + a * li1)%flt) =
              Ok (Fin (linear_interpolation z (nth i mzs 0) (nth (S i) mzs 0)
                                              (nth i ls 0) (nth (S i) ls 0)))).
  { intros i' Hi1 Hi2 Hb. exists (Z.to_nat i').
    replace (S (Z.to_nat i')) with (Z.to_nat (i' + 1)) by lia.
    split; [unfold size in Hi2; lia|]. split; [assumption|].
    rewrite !getitem_fin by lia. cbn [bind]. fnorm.
    pose proof (node_lt mzs Hs i' (i' + 1)%Z) as Hlt.
    rewrite fdiv_fin by (assert (nth (Z.to_nat i') mzs 0 <
                                 nth (Z.to_nat (i' + 1)) mzs 0) by (apply Hlt; lia); lra).
    fnorm. reflexivity. }
  unfold interpolate_limb_darkening_s. fnorm. rcmp.
  rewrite (getitem_last _ NaN) by (destruct mzs; [congruence | discriminate]).
  cbn [bind]. rewrite last_fin by assumption. fnorm. rcmp.
  rewrite size_map, length_map. fold i0.
  rewrite getitem_fin by lia. cbn [bind]. fnorm.
  destruct (Rltb_spec (nth (Z.to_nat i0) mzs 0) z) as [Hgt | Hle].
  - destruct (search_up_spec mzs z (length mzs) i0) as [i' [H1 [H2 [H3 H4]]]];
      try lia; try assumption.
    { rewrite <- Hlast. assumption. }
    { unfold size. lia. }
    rewrite H4. cbn [bind]. apply Hfinal; try lia. lra.
  - destruct (search_down_spec mzs z (2 * length mzs + 1) i0) as [i' [H1 [H2 [H3 H4]]]];
      try lia.
    { change (Z.to_nat 0) with 0%nat. lra. }
    { unfold size in *. lia. }
    rewrite H4. cbn [bind]. apply Hfinal; try lia.
    split; [assumption|].
    destruct (Z.eq_dec i' i0) as [-> | Hn].
    + assert (nth (Z.to_nat i0) mzs 0 < nth (Z.to_nat (i0 + 1)) mzs 0)
        by (apply node_lt; [assumption | lia | lia]).
      lra.
    + assert (z < nth (Z.to_nat (i' + 1)) mzs 0) by (apply H3; lia). lra.
Qed.

Lemma sorted_last_ge (mzs : list R) :
  StronglySorted Rlt mzs -> mzs <> [] -> nth 0 mzs 0 <= last mzs 0.
Proof.
  intros Hs Hne. rewrite <- nth_last.
  destruct (Nat.eq_dec (length mzs - 1) 0) as [-> | Hn]; [lra|].
  apply Rlt_le. apply sorted_nth; [assumption|].
  destruct mzs; [congruence | simpl in *; lia].
Qed.

(** C8 (fails on the code): the search starts at the index [mz.size // 2],
    and the blend reads the node after the one where the search stops.  On a
    two-node array [0, m] the start is the last index: a query at the last
    node, z = m, is neither above [mz[-1]] nor below [mz[1]], so the search
    stops there and the blend reads [mz[2]], past the array, in the scalar
    interpolator and in its vectorised sibling.  Every other query of the
    domain, 0 <= z < m, is interpolated as the claim says. *)
Theorem interpolate_limb_darkening_two_nodes (m l0 l1 : R) :
  0 < m ->
  interpolate_limb_darkening_s (Fin m) (map Fin [0; m]) (map Fin [l0; l1]) =
    Err IndexError /\
  interpolate_limb_darkening_v [Fin m] (map Fin [0; m]) (map Fin [l0; l1]) =
    Err IndexError /\
  (forall z, 0 <= z < m ->
     interpolate_limb_darkening_s (Fin z) (map Fin [0; m]) (map Fin [l0; l1]) =
     Ok (Fin (linear_interpolation z 0 m l0 l1))).
Proof.
  intros Hm.
  assert (Hlast : interpolate_limb_darkening_s (Fin m) (map Fin [0; m])
                    (map Fin [l0; l1]) = Err IndexError).
  { unfold interpolate_limb_darkening_s. fnorm. rcmp.
    cbn [map]. rewrite (getitem_last _ NaN) by discriminate.
    cbn [bind last]. fnorm. rcmp.
    change (size [Fin 0; Fin m] / 2)%Z with 1%Z.
    change (getitem [Fin 0; Fin m] 1) with (Ok (Fin m)).
    cbn [bind]. fnorm. rcmp.
    cbn [length Nat.mul Nat.add search_down].
    change (getitem [Fin 0; Fin m] 1) with (Ok (Fin m)).
    cbn [bind]. fnorm. rcmp. cbn [bind].
    change (getitem [Fin 0; Fin m] 1) with (Ok (Fin m)).
    change (getitem [Fin 0; Fin m] (1 + 1)) with (@Err float IndexError).
    reflexivity. }
  split; [exact Hlast|]. split.
  - change (interpolate_limb_darkening_v [Fin m] (map Fin [0; m]) (map Fin [l0; l1]))
      with (mapM (fun z => interpolate_limb_darkening_s z (map Fin [0; m])
                             (map Fin [l0; l1])) [Fin m]).
    cbn [mapM]. rewrite Hlast. reflexivity.
  - intros z [Hz0 Hz1].
    unfold interpolate_limb_darkening_s. fnorm. rcmp.
    cbn [map]. rewrite (getitem_last _ NaN) by discriminate.
    cbn [bind last]. fnorm. rcmp.
    change (size [Fin 0; Fin m] / 2)%Z with 1%Z.
    change (getitem [Fin 0; Fin m] 1) with (Ok (Fin m)).
    cbn [bind]. fnorm. rcmp.
    cbn [length Nat.mul Nat.add search_down].
    change (getitem [Fin 0; Fin m] 1) with (Ok (Fin m)).
    cbn [bind]. fnorm. rcmp.
    change (getitem [Fin 0; Fin m] (1 - 1)) with (Ok (Fin 0)).
    cbn [bind]. fnorm. rcmp. cbn [bind].
    change (getitem [Fin 0; Fin m] (1 - 1)) with (Ok (Fin 0)).
    change (getitem [Fin 0; Fin m] (1 - 1 + 1)) with (Ok (Fin m)).
    change (getitem [Fin l0; Fin l1] (1 - 1)) with (Ok (Fin l0)).
    change (getitem [Fin l0; Fin l1] (1 - 1 + 1)) with (Ok (Fin l1)).
    cbn [bind]. fnorm. try rewrite fdiv_fin by lra. fnorm. reflexivity.
Qed.

Lemma interpolate_limb_darkening_two_nodes_witness :
  interpolate_limb_darkening_s (Fin 1) (map Fin [0; 1]) (map Fin [1; 2]) =
  Err IndexError.
Proof.
  apply (proj1 (interpolate_limb_darkening_two_nodes 1 1 2 ltac:(lra))).
Defined.

(** ** The entries of the 3D table and the bilinear blend *)

Lemma dot_fin (u v : list R) : dot (map Fin u) (map Fin v) = Fin (Rdot u v).
Proof.
  revert v. induction u as [|x u IH]; intros [|y v]; simpl; try reflexivity.
  rewrite IH. reflexivity.
Qed.

Lemma mapM_getitem {A B} (f : A -> res B) (l : list A) (ys : list B) (i : Z) (x : A) :
  mapM f l = Ok ys -> (0 <= i)%Z -> getitem l i = Ok x ->
  exists y, f x = Ok y /\ getitem ys i = Ok y.
Proof.
  revert ys i. induction l as [|a l IH]; intros ys i E Hi Hx.
  - rewrite getitem_oob in Hx by (unfold size; simpl; lia). discriminate.
  - simpl in E. destruct (f a) as [b|] eqn:Ea; [|discriminate]. cbn [bind] in E.
    destruct (mapM f l) as [bs|] eqn:El; [|discriminate]. cbn [bind] in E.
    inversion E. subst ys. clear E.
    destruct (Z.eq_dec i 0) as [-> | Hn].
    + rewrite getitem_cons_0 in Hx. inversion Hx. subst.
      exists b. split; [assumption | reflexivity].
    + rewrite getitem_cons_pos in Hx by lia.
      destruct (IH bs (i - 1)%Z eq_refl) as [y [E1 E2]]; [lia | assumption|].
      exists y. split; [assumption|]. rewrite getitem_cons_pos by lia. assumption.
Qed.

(** The radius ratio and the grazing value of a node of the table. *)
Lemma calculate_weights_3d_entry (nk : Z) (k0 k1 : R) (ze : list float) (ng : Z)
    dk dg weights (ik ig : Z) :
  (2 <= nk)%Z -> (2 <= ng)%Z ->
  calculate_weights_3d nk (Fin k0) (Fin k1) ze ng = Ok (dk, dg, weights) ->
  (0 <= ik < nk)%Z -> (0 <= ig < ng)%Z ->
  dk = Fin ((k1 - k0) / IZR nk) /\
  dg = Fin (grazing_step ng) /\
  exists plane row,
    getitem weights ik = Ok plane /\
    getitem plane ig = Ok row /\
    weights_row (Fin (k0 + IZR ik * ((k1 - k0) / IZR (nk - 1)))) ze
      (Fin ((0 + IZR ig * ((1 - 1e-7 - 0) / IZR (ng - 1))) *
            (1 + (k0 + IZR ik * ((k1 - k0) / IZR (nk - 1)))))) = Ok row.
Proof.
  intros Hnk Hng E Hik Hig. rewrite calculate_weights_3d_body in E by lia.
  destruct (mapM _ (linspace (Fin k0) (Fin k1) nk)) as [ws|] eqn:Ew; [|discriminate].
  cbn [bind] in E. rewrite !linspace_getitem in E by lia. cbn [bind] in E.
  inversion E. subst. clear E.
  split; [|split].
  - unfold of_int. fnorm. apply fdiv_fin. apply not_0_IZR. lia.
  - fnorm. f_equal. unfold grazing_step. rewrite minus_IZR.
    simpl. field. apply IZR_le in Hng. lra.
  - pose proof (linspace_getitem k0 k1 nk ik Hnk Hik) as Gk.
    pose proof (linspace_getitem 0 (1 - 1e-7) ng ig Hng Hig) as Gg.
    destruct (mapM_getitem _ _ _ ik _ Ew (proj1 Hik) Gk) as [plane [Ep Gp]].
    destruct (mapM_getitem _ _ _ ig _ Ep (proj1 Hig) Gg) as [row [Er Gr]].
    exists plane, row. repeat split; assumption.
Qed.

(** The first row (g = 0) of a table over the two edges [z0; 1]. *)
Lemma weights_row_center (k z0 : R) :
  0 < k < 1 -> 0 <= z0 ->
  weights_row (Fin k) (map Fin [z0; 1]) (Fin 0) =
  Ok [Fin (Rmin z0 k ^ 2 / k ^ 2); Fin (1 - Rmin z0 k ^ 2 / k ^ 2)].
Proof.
  intros Hk Hz. unfold weights_row. cbn [map tl].
  rewrite getitem_cons_0. cbn [bind area_differences].
  rewrite !overlap_area_fin by lra. fnorm.
  assert (Hpi : 0 < PI) by apply PI_RGT_0.
  assert (E1 : overlap_area 1 k 0 = PI * k ^ 2).
  { unfold overlap_area. rcmp. reflexivity. }
  assert (E0 : overlap_area z0 k 0 = PI * Rmin z0 k ^ 2).
  { unfold overlap_area, Rmin. rewrite Rltb_false by lra.
    destruct (Rle_dec z0 k) as [H | H].
    - destruct (Rle_lt_or_eq_dec _ _ H) as [Hlt | Heq].
      + rcmp. reflexivity.
      + rcmp. rewrite Heq. reflexivity.
    - rcmp. reflexivity. }
  rewrite E0, E1.
  assert (Hk2 : 0 < PI * k ^ 2) by (apply Rmult_lt_0_compat; [lra | apply pow_lt; lra]).
  rewrite is_zero_fin by lra. cbn [map].
  rewrite !fdiv_fin by lra.
  set (m := Rmin z0 k) in *.
  assert (Em1 : PI * m ^ 2 / (PI * m ^ 2 + (PI * k ^ 2 - PI * m ^ 2)) = m ^ 2 / k ^ 2)
    by (field; lra).
  assert (Em2 : (PI * k ^ 2 - PI * m ^ 2) / (PI * m ^ 2 + (PI * k ^ 2 - PI * m ^ 2))
                = 1 - m ^ 2 / k ^ 2) by (field; lra).
  rewrite Em1, Em2. reflexivity.
Qed.

Lemma Zfloor_unit (x : R) : 0 <= x < 1 -> Zfloor x = 0%Z.
Proof. intros H. apply Zfloor_eq. simpl. lra. Qed.

(** C7 (fails on the code): the 3D table for k0 = 0.1, k1 = 0.3, nk = 3 over
    the edges [0.15; 1] with ng = 2, evaluated at the grid node
    k = ks[1] = 0.2, g = gs[0] = 0 with the profile [1; 0].  The node value
    is dot(weights[1,0], ldp) = 0.5625, but [im_p_s_3d] divides the
    radius-ratio offset by the grazing step [dg] instead of [dk], lands
    between the planes 0 and 1 and returns more than 0.9. *)
Theorem im_p_s_3d_misses_grid_node :
  exists dk dg weights plane row,
    calculate_weights_3d 3 (Fin 0.1) (Fin 0.3) (map Fin [0.15; 1]) 2 =
      Ok (dk, dg, weights) /\
    getitem (linspace (Fin 0.1) (Fin 0.3) 3) 1 = Ok (Fin 0.2) /\
    getitem (linspace 0 (Fin (1 - 1e-7)) 2) 0 = Ok (Fin 0) /\
    getitem weights 1 = Ok plane /\
    getitem plane 0 = Ok row /\
    dot row [Fin 1; Fin 0] = Fin 0.5625 /\
    exists v,
      im_p_s_3d (Fin 0.2) (Fin 0) dk dg weights [Fin 1; Fin 0] (Fin 0.1) = Ok (Fin v) /\
      0.9 < v.
Proof.
  assert (Hz : Forall (fun z => 0 <= z) [0.15; 1]) by (repeat constructor; lra).
  assert (Hne : [0.15; 1] <> []) by discriminate.
  assert (Hl : last [0.15; 1] 0 = 1) by reflexivity.
  destruct (calculate_weights_3d_rows [0.15; 1] 2 3 0.1 0.3)
    as [dk [dg [ws [E _]]]]; try assumption; try lia; try lra.
  exists dk, dg, ws.
  (* the four corners read by the blend *)
  destruct (calculate_weights_3d_entry 3 0.1 0.3 (map Fin [0.15; 1]) 2 dk dg ws 0 0) as
    [Edk [Edg [p0 [r00 [G0 [G00 W00]]]]]]; try lia; try assumption.
  destruct (calculate_weights_3d_entry 3 0.1 0.3 (map Fin [0.15; 1]) 2 dk dg ws 0 1) as
    [_ [_ [p0' [r01 [G0' [G01 W01]]]]]]; try lia; try assumption.
  destruct (calculate_weights_3d_entry 3 0.1 0.3 (map Fin [0.15; 1]) 2 dk dg ws 1 0) as
    [_ [_ [p1 [r10 [G1 [G10 W10]]]]]]; try lia; try assumption.
  destruct (calculate_weights_3d_entry 3 0.1 0.3 (map Fin [0.15; 1]) 2 dk dg ws 1 1) as
    [_ [_ [p1' [r11 [G1' [G11 W11]]]]]]; try lia; try assumption.
  assert (p0' = p0) by congruence. subst p0'.
  assert (p1' = p1) by congruence. subst p1'.
  change (3 - 1)%Z with 2%Z in *. change (2 - 1)%Z with 1%Z in *.
  (* the radius ratios and grazing values of the nodes *)
  replace (0.1 + 0 * ((0.3 - 0.1) / 2)) with 0.1 in * by lra.
  replace (0.1 + 1 * ((0.3 - 0.1) / 2)) with 0.2 in * by lra.
  replace ((0 + 0 * ((1 - 1e-7 - 0) / 1)) * (1 + 0.1)) with 0 in W00 by lra.
  replace ((0 + 0 * ((1 - 1e-7 - 0) / 1)) * (1 + 0.2)) with 0 in W10 by lra.
  rewrite weights_row_center in W00, W10 by lra.
  inversion W00. inversion W10. subst r00 r10. clear W00 W10.
  destruct (weights_row_sum 0.1 ((0 + 1 * ((1 - 1e-7 - 0) / 1)) * (1 + 0.1)) [0.15; 1])
    as [w01 [W01' _]]; try assumption; try lra.
  destruct (weights_row_sum 0.2 ((0 + 1 * ((1 - 1e-7 - 0) / 1)) * (1 + 0.2)) [0.15; 1])
    as [w11 [W11' _]]; try assumption; try lra.
  assert (r01 = map Fin w01) by congruence. subst r01.
  assert (r11 = map Fin w11) by congruence. subst r11.
  assert (M1 : Rmin 0.15 0.1 = 0.1) by (unfold Rmin; destruct (Rle_dec 0.15 0.1); lra).
  assert (M2 : Rmin 0.15 0.2 = 0.15) by (unfold Rmin; destruct (Rle_dec 0.15 0.2); lra).
  rewrite M1 in *. rewrite M2 in *.
  exists p1. eexists. 
  split; [exact E|].
  split; [rewrite linspace_getitem by lia; do 2 f_equal; simpl; lra|].
  split; [rewrite linspace_getitem by lia; do 2 f_equal; simpl; lra|].
  split; [exact G1|]. split; [exact G10|].
  split.
  { cbn [dot]. fnorm. f_equal. lra. }
  (* the blend *)
  subst dk dg.
  assert (Hs : grazing_step 2 = 1 - 1e-7) by (unfold grazing_step; simpl; field).
  unfold im_p_s_3d. fnorm. rcmp.
  rewrite !fdiv_fin by (rewrite Hs; lra).
  cbn [int_floor bind]. rewrite Hs.
  assert (Hx : 0.1 < (0.2 - 0.1) / (1 - 1e-7) < 0.11).
  { split.
    - apply Rmult_lt_reg_r with (1 - 1e-7); [lra|].
      unfold Rdiv. rewrite Rmult_assoc, Rinv_l by lra. lra.
    - apply Rmult_lt_reg_r with (1 - 1e-7); [lra|].
      unfold Rdiv. rewrite Rmult_assoc, Rinv_l by lra. lra. }
  assert (Hg : 0 / (1 - 1e-7) = 0) by (unfold Rdiv; ring).
  rewrite (Zfloor_unit ((0.2 - 0.1) / (1 - 1e-7))) by lra.
  rewrite Hg. rewrite (Zfloor_unit 0) by lra.
  change (0 + 1)%Z with 1%Z.
  rewrite G0, G1. cbn [bind]. rewrite G00, G01, G10, G11. cbn [bind].
  change [Fin 1; Fin 0] with (map Fin [1; 0]).
  change [Fin (0.1 ^ 2 / 0.1 ^ 2); Fin (1 - 0.1 ^ 2 / 0.1 ^ 2)]
    with (map Fin [0.1 ^ 2 / 0.1 ^ 2; 1 - 0.1 ^ 2 / 0.1 ^ 2]).
  change [Fin (0.15 ^ 2 / 0.2 ^ 2); Fin (1 - 0.15 ^ 2 / 0.2 ^ 2)]
    with (map Fin [0.15 ^ 2 / 0.2 ^ 2; 1 - 0.15 ^ 2 / 0.2 ^ 2]).
  rewrite !dot_fin. unfold of_int. fnorm.
  eexists. split; [reflexivity|].
  set (x := (0.2 - 0.1) / (1 - 1e-7)) in *.
  set (l01 := Rdot w01 [1; 0]). set (l11 := Rdot w11 [1; 0]).
  simpl.
  replace (0.15 * (0.15 * 1) / (0.2 * (0.2 * 1))) with 0.5625 by lra.
  clearbody x l01 l11. lra.
Qed.

(** ** The likelihood is the closed-form Gaussian log-likelihood *)

Lemma foldM_sum {A} (f : float -> A -> res float) (t : A -> R) (l : list A) :
  (forall j a, In j l -> f (Fin a) j = Ok (Fin (a + t j))) ->
  forall a, foldM f l (Fin a) = Ok (Fin (a + Rsum (map t l))).
Proof.
  induction l as [|x l IH]; intros H a.
  - simpl. do 2 f_equal. ring.
  - cbn [foldM map Rsum]. rewrite H by (left; reflexivity). cbn [bind].
    rewrite IH by (intros j b Hj; apply H; right; assumption).
    do 2 f_equal. ring.
Qed.

Lemma getitem_slice {A} (l : list A) (start stop k : Z) (d : A) :
  (0 <= start)%Z -> (0 <= k < stop - start)%Z -> (stop <= size l)%Z ->
  getitem (slice l start stop) k = Ok (nth (Z.to_nat (start + k)) l d).
Proof.
  intros Hs Hk Hl. apply getitem_Ok; [lia|]. unfold slice.
  rewrite nth_error_firstn.
  destruct (Nat.ltb_spec (Z.to_nat k) (Z.to_nat (stop - start))) as [_ | Hge]; [|lia].
  rewrite nth_error_skipn.
  replace (Z.to_nat start + Z.to_nat k)%nat with (Z.to_nat (start + k)) by lia.
  apply nth_error_nth'. unfold size in Hl. lia.
Qed.

Lemma flog_pos (x : R) : 0 < x -> flog (Fin x) = Fin (ln x).
Proof. intros H. simpl. rewrite Rltb_true by assumption. reflexivity. Qed.

Lemma Rpower_pos (x y : R) : 0 < Rpower x y.
Proof. unfold Rpower. apply exp_pos. Qed.

Lemma slice_map {A B} (f : A -> B) (l : list A) (start stop : Z) :
  slice (map f l) start stop = map f (slice l start stop).
Proof. unfold slice. rewrite skipn_map, firstn_map. reflexivity. Qed.

(** C3: for every population of parameter vectors, [lnlikelihood] returns
    one value per member, the closed-form Gaussian log-likelihood summed over
    all data points, the noise scale of a point being ten to the power of the
    log-error selected by the noise block of the point's light curve. *)
Theorem lnlikelihood_closed_form (self : BaseLPF) (sched : list Z)
    (pvs ms : list (list R)) (os : list R) :
  ofluxa self = map Fin os ->
  flux_model self (map (map Fin) pvs) = map (map Fin) ms ->
  length ms = length pvs ->
  Forall (fun m => length m = length os) ms ->
  Permutation sched (range 0 (size pvs)) ->
  (0 <= fst (_sl_err self))%Z ->
  Forall (fun pv => (snd (_sl_err self) <= size pv)%Z) pvs ->
  length (lcids self) = length os ->
  Forall (fun lc => (0 <= lc < size (noise_ids self))%Z) (lcids self) ->
  Forall (fun k => (0 <= k < snd (_sl_err self) - fst (_sl_err self))%Z)
         (noise_ids self) ->
  lnlikelihood self sched (map (map Fin) pvs) =
  Ok (map (fun i =>
             Fin (gaussian_lnlike os (nth (Z.to_nat i) ms [])
                    (noise_scale self (nth (Z.to_nat i) pvs []))))
          (range 0 (size pvs))).
Proof.
  intros Hof Hfm Hlen Hms Hperm Hstart Hpv Hlc Hlcr Hnr.
  unfold lnlikelihood. rewrite Hfm, Hof. unfold lnlike_normal_v.
  rewrite !size_map.
  assert (Hsz : size ms = size pvs) by (unfold size; lia).
  rewrite Hsz. unfold zeros.
  apply (for_cells_parallel _ sched (size pvs) (Fin 0) Hperm).
  apply mapM_pure. intros i Hi. apply in_range in Hi.
  set (pv := nth (Z.to_nat i) pvs []).
  set (m := nth (Z.to_nat i) ms []).
  assert (Hm : length m = length os).
  { rewrite Forall_forall in Hms. apply Hms. apply nth_In. unfold size in Hi. lia. }
  assert (Hpvi : (snd (_sl_err self) <= size pv)%Z).
  { rewrite Forall_forall in Hpv. apply Hpv. apply nth_In. unfold size in Hi. lia. }
  rewrite (foldM_sum _
             (fun j => normal_logpdf (nth (Z.to_nat j) os 0) (nth (Z.to_nat j) m 0)
                         (noise_scale self pv j))).
  - unfold gaussian_lnlike. do 2 f_equal. ring.
  - intros j a Hj. apply in_range in Hj.
    set (lc := nth (Z.to_nat j) (lcids self) 0%Z).
    assert (Hlcj : (0 <= lc < size (noise_ids self))%Z).
    { rewrite Forall_forall in Hlcr. apply Hlcr. apply nth_In. unfold size in Hj. lia. }
    set (k := nth (Z.to_nat lc) (noise_ids self) 0%Z).
    assert (Hk : (0 <= k < snd (_sl_err self) - fst (_sl_err self))%Z).
    { rewrite Forall_forall in Hnr. apply Hnr. apply nth_In. unfold size in Hlcj. lia. }
    rewrite (getitem_nth (lcids self) j 0%Z) by (unfold size in *; lia).
    cbn [bind]. fold lc.
    rewrite (getitem_nth (noise_ids self) lc 0%Z) by assumption.
    cbn [bind]. fold k.
    rewrite (getitem_map _ _ i (map Fin pv)).
    2: lia.
    2:{ apply getitem_map; [lia|]. apply getitem_nth. lia. }
    cbn [bind]. rewrite slice_map.
    rewrite (getitem_map fpow10 _ k (Fin (nth (Z.to_nat (fst (_sl_err self) + k)) pv 0))).
    2: lia.
    2:{ apply getitem_map; [lia|]. apply getitem_slice; lia. }
    cbn [bind]. rewrite getitem_fin by (unfold size in *; lia).
    cbn [bind].
    rewrite (getitem_map _ _ i m) by (try lia; apply getitem_nth; lia).
    cbn [bind]. rewrite getitem_fin by (unfold size in *; lia).
    cbn [bind fpow10].
    pose proof (Rpower_pos 10 (nth (Z.to_nat (fst (_sl_err self) + k)) pv 0)) as He.
    rewrite flog_pos by assumption.
    rewrite flog_pos by (pose proof PI_RGT_0; lra).
    fnorm. rewrite fdiv_fin by lra. fnorm. reflexivity.
Qed.

(** ** Facts used for the evaluators *)

Lemma Rsum_ones {A} (l : list A) : Rsum (map (fun _ => 1) l) = INR (length l).
Proof.
  induction l as [|x l IH]; [reflexivity|].
  cbn [map Rsum length]. rewrite IH, S_INR. ring.
Qed.

Lemma Rsum_ones_range (ns : Z) :
  (0 <= ns)%Z -> Rsum (map (fun _ => 1) (range 1 (ns + 1))) = IZR ns.
Proof.
  intros H. rewrite Rsum_ones, range_length.
  replace (ns + 1 - 1)%Z with ns by lia.
  rewrite INR_IZR_INZ, Z2Nat.id by assumption. reflexivity.
Qed.

Lemma off_disk_not_nan (_k z : float) :
  (z >? 1 + _k)%flt = true -> isnan _k = false.
Proof. destruct _k, z; simpl; intros H; try reflexivity; discriminate. Qed.

Lemma off_disk_average (ns : Z) :
  (1 <= ns)%Z ->
  (Fin (0 + Rsum (map (fun _ => 1) (range 1 (ns + 1)))) / of_int ns)%flt = Fin 1.
Proof.
  intros H. rewrite Rsum_ones_range by lia. unfold of_int.
  assert (Hn : IZR ns <> 0) by (apply not_0_IZR; lia).
  rewrite fdiv_fin by assumption. f_equal. field. assumption.
Qed.

Lemma map_const_repeat {A B} (c : B) (l : list A) :
  map (fun _ => c) l = repeat c (length l).
Proof. induction l as [|x l IH]; simpl; [reflexivity | now rewrite IH]. Qed.

Lemma mapM_const {A B} (f : A -> res B) (c : B) (l : list A) :
  (forall x, In x l -> f x = Ok c) -> mapM f l = Ok (repeat c (length l)).
Proof.
  intros H. rewrite (mapM_pure f (fun _ => c)) by assumption.
  rewrite map_const_repeat. reflexivity.
Qed.

Lemma mapM_defined {A B} (f : A -> res B) (l : list A) :
  (forall x, In x l -> exists y, f x = Ok y) -> exists ys, mapM f l = Ok ys.
Proof.
  intros H. destruct (mapM_Forall f (fun _ => True) l) as [ys [E _]].
  - intros x Hx. destruct (H x Hx) as [y Ey]. eauto.
  - eauto.
Qed.

Lemma well_shaped_check (ldp : list (list (list float))) (npv npb : Z) :
  well_shaped ldp npv npb ->
  negb (size ldp =? npv)%Z || negb (forallb (fun m => (size m =? npb)%Z) ldp) = false.
Proof.
  intros [H1 H2]. rewrite (proj2 (Z.eqb_eq _ _) H1). simpl.
  rewrite (proj2 (forallb_forall _ _)); [reflexivity|].
  intros m Hm. rewrite Forall_forall in H2. apply Z.eqb_eq. apply H2. assumption.
Qed.

Lemma well_shaped_member (ldp : list (list (list float))) (npv npb ipv : Z) :
  well_shaped ldp npv npb -> (0 <= ipv < npv)%Z ->
  exists ldp_pv, getitem ldp ipv = Ok ldp_pv /\ size ldp_pv = npb.
Proof.
  intros [H1 H2] Hi. destruct (getitem_in_range ldp ipv) as [m Em]; [lia|].
  exists m. split; [assumption|].
  rewrite Forall_forall in H2. apply H2.
  rewrite getitem_nonneg in Em by lia.
  destruct (nth_error ldp (Z.to_nat ipv)) eqn:E; [|discriminate].
  inversion Em. subst. eapply nth_error_In. eassumption.
Qed.


Lemma fleb_not_fgtb (a b : float) : (a <=? b)%flt = true -> (a >? b)%flt = false.
Proof.
  destruct a as [x| | |], b as [y| | |]; simpl; intros H;
    try reflexivity; try discriminate.
  unfold fgtb. simpl.
  destruct (Rleb_spec x y) as [Hle | Hgt]; [|discriminate].
  apply Rltb_false. lra.
Qed.

(** With a NaN radius ratio every area, and so every row sum, is NaN: the
    normalisation divides by NaN, which is not a zero divisor. *)
Lemma cci_nan_ratio (r1 b : float) : circle_circle_intersection_area r1 NaN b = NaN.
Proof. destruct r1, b; reflexivity. Qed.

Lemma area_differences_nan_sum (k b : float) (zs : list float) :
  forall a0, snd (area_differences k b zs a0 NaN) = NaN.
Proof.
  induction zs as [|z zs IH]; intros a0; [reflexivity|].
  cbn [area_differences].
  specialize (IH (circle_circle_intersection_area z k b)).
  change (NaN + (circle_circle_intersection_area z k b - a0))%flt with NaN.
  destruct (area_differences _ _ _ _ _) as [ws s]. exact IH.
Qed.

Lemma weights_row_nan (ze : list float) (b : float) :
  ze <> [] -> exists row, weights_row NaN ze b = Ok row.
Proof.
  intros H. destruct ze as [|z0 zs]; [congruence|].
  unfold weights_row. rewrite getitem_cons_0. cbn [bind tl].
  rewrite cci_nan_ratio.
  pose proof (area_differences_nan_sum NaN b zs NaN) as Hs.
  destruct (area_differences _ _ _ _ _) as [ws s]. cbn [snd] in Hs. subst s.
  cbn [is_zero]. eauto.
Qed.

Lemma calculate_weights_2d_nan (ze : list float) (ng : Z) :
  ze <> [] -> (2 <= ng)%Z -> exists tbl, calculate_weights_2d NaN ze ng = Ok tbl.
Proof.
  intros Hze Hng. rewrite calculate_weights_2d_body by lia.
  destruct (mapM_defined (fun g => weights_row NaN ze (g * (1 + NaN))%flt)
              (linspace 0 (Fin (1 - 1e-7)) ng)) as [ws E].
  { intros g _. apply weights_row_nan. assumption. }
  rewrite E. cbn [bind]. rewrite !linspace_getitem by lia. cbn [bind]. eauto.
Qed.

(** *** A population without one of its members *)

Lemma getitem_drop_member {A} (m : nat) (l : list A) (i : Z) :
  (0 <= i)%Z -> getitem (drop_member m l) i = getitem l (shift_index m i).
Proof.
  intros Hi. unfold shift_index, drop_member.
  destruct (Z.ltb_spec i (Z.of_nat m)) as [Hlt | Hge].
  - rewrite !getitem_nonneg by lia.
    destruct (Nat.lt_ge_cases (Z.to_nat i) (length l)) as [Hin | Hout].
    + rewrite nth_error_app1 by (rewrite length_firstn; lia).
      rewrite nth_error_firstn.
      destruct (Nat.ltb_spec (Z.to_nat i) m); [reflexivity | lia].
    + rewrite (proj2 (nth_error_None l (Z.to_nat i))) by assumption.
      rewrite (proj2 (nth_error_None _ (Z.to_nat i))); [reflexivity|].
      rewrite length_app, length_firstn, length_skipn. lia.
  - rewrite !getitem_nonneg by lia.
    destruct (Nat.le_gt_cases m (length l)) as [Hm | Hm].
    + rewrite nth_error_app2 by (rewrite length_firstn; lia).
      rewrite length_firstn, nth_error_skipn.
      replace (S m + (Z.to_nat i - Init.Nat.min m (length l)))%nat
        with (Z.to_nat (i + 1)) by lia.
      reflexivity.
    + rewrite (proj2 (nth_error_None l (Z.to_nat (i + 1)))) by lia.
      rewrite (proj2 (nth_error_None _ (Z.to_nat i))); [reflexivity|].
      rewrite length_app, length_firstn, length_skipn. lia.
Qed.

Lemma size_drop_member {A} (m : nat) (l : list A) :
  (m < length l)%nat -> size (drop_member m l) = (size l - 1)%Z.
Proof.
  intros H. unfold size, drop_member.
  rewrite length_app, length_firstn, length_skipn. lia.
Qed.

Lemma Forall_drop_member {A} (P : A -> Prop) (m : nat) (l : list A) :
  Forall P l -> Forall P (drop_member m l).
Proof.
  intros H. unfold drop_member. apply Forall_app. split.
  - rewrite <- (firstn_skipn m l) in H. apply Forall_app in H. apply H.
  - rewrite <- (firstn_skipn (S m) l) in H. apply Forall_app in H. apply H.
Qed.

Lemma mapM_app {A B} (f : A -> res B) (l1 l2 : list A) :
  mapM f (l1 ++ l2) = (y1 <- mapM f l1 ;; y2 <- mapM f l2 ;; Ok (y1 ++ y2)).
Proof.
  induction l1 as [|x l1 IH]; simpl.
  - destruct (mapM f l2); reflexivity.
  - destruct (f x) as [y|]; [|reflexivity]. cbn [bind]. rewrite IH.
    destruct (mapM f l1) as [y1|]; [|reflexivity]. cbn [bind].
    destruct (mapM f l2); reflexivity.
Qed.

Lemma map_seq_offset {A} (f : nat -> A) (n2 : nat) :
  forall n1, map f (seq n1 n2) = map (fun x => f (n1 + x)%nat) (seq 0 n2).
Proof.
  induction n2 as [|n2 IH]; intros n1; [reflexivity|].
  cbn [seq map]. f_equal.
  - f_equal. lia.
  - rewrite (IH (S n1)). rewrite <- seq_shift, map_map.
    apply map_ext. intros x. f_equal. lia.
Qed.

Lemma range_app (a m b : Z) :
  (a <= m <= b)%Z -> range a b = range a m ++ range m b.
Proof.
  intros H. unfold range.
  replace (Z.to_nat (b - a)) with (Z.to_nat (m - a) + Z.to_nat (b - m))%nat by lia.
  rewrite seq_app, map_app. f_equal.
  rewrite Nat.add_0_l, map_seq_offset.
  apply map_ext. intros n. lia.
Qed.

Lemma map_shift_range (m : nat) (npv : Z) :
  (Z.of_nat m < npv)%Z ->
  map (shift_index m) (range 0 (npv - 1)) =
  range 0 (Z.of_nat m) ++ range (Z.of_nat m + 1) npv.
Proof.
  intros H. rewrite (range_app 0 (Z.of_nat m) (npv - 1)) by lia.
  rewrite map_app. f_equal.
  - rewrite <- (map_id (range 0 (Z.of_nat m))) at 2.
    apply map_ext_in. intros i Hi. apply in_range in Hi.
    unfold shift_index. destruct (Z.ltb_spec i (Z.of_nat m)); lia.
  - unfold range. rewrite map_map.
    replace (Z.to_nat (npv - 1 - Z.of_nat m)) with (Z.to_nat (npv - (Z.of_nat m + 1)))
      by lia.
    apply map_ext. intros n. unfold shift_index.
    destruct (Z.ltb_spec (Z.of_nat m + Z.of_nat n) (Z.of_nat m)); lia.
Qed.

Lemma insert_row_app {A} (y1 y2 : list A) (r : A) :
  insert_row (length y1) r (y1 ++ y2) = y1 ++ r :: y2.
Proof.
  unfold insert_row.
  rewrite firstn_app, Nat.sub_diag, firstn_all, firstn_O, app_nil_r.
  rewrite skipn_app, Nat.sub_diag, skipn_all. reflexivity.
Qed.

(** The rows of the other members do not depend on the presence of the
    member [m]. *)
Lemma population_without_member
    (F F' : Z -> list float -> res (list float)) (sched sched' : list Z)
    (npv : Z) (m : nat) (z0 r : list float) :
  (Z.of_nat m < npv)%Z ->
  (forall i row, (0 <= i)%Z -> F' i row = F (shift_index m i) row) ->
  F (Z.of_nat m) z0 = Ok r ->
  Permutation sched (range 0 npv) ->
  Permutation sched' (range 0 (npv - 1)) ->
  forall flux,
    for_cells F sched (repeat z0 (Z.to_nat npv)) = Ok flux <->
    exists flux',
      for_cells F' sched' (repeat z0 (Z.to_nat (npv - 1))) = Ok flux' /\
      flux = insert_row m r flux'.
Proof.
  intros Hm Hshift Hr Hp Hp' flux.
  rewrite (for_cells_parallel F sched npv z0 Hp flux).
  assert (E' : forall flux',
            for_cells F' sched' (repeat z0 (Z.to_nat (npv - 1))) = Ok flux' <->
            mapM (fun j => F j z0)
                 (range 0 (Z.of_nat m) ++ range (Z.of_nat m + 1) npv) = Ok flux').
  { intros flux'. rewrite (for_cells_parallel F' sched' (npv - 1) z0 Hp' flux').
    rewrite <- map_shift_range by assumption. rewrite mapM_map.
    rewrite (mapM_ext (fun j => F' j z0) (fun x => F (shift_index m x) z0)).
    - tauto.
    - intros i Hi. apply in_range in Hi. apply Hshift. lia. }
  rewrite (range_app 0 (Z.of_nat m) npv) by lia.
  rewrite (range_cons (Z.of_nat m) npv) by lia.
  rewrite mapM_app. cbn [mapM]. rewrite Hr. cbn [bind].
  destruct (mapM (fun j => F j z0) (range 0 (Z.of_nat m))) as [y1|e1] eqn:E1.
  2:{ cbn [bind]. split; [discriminate|].
      intros [flux' [Hf _]]. apply E' in Hf. rewrite mapM_app, E1 in Hf. discriminate. }
  cbn [bind].
  destruct (mapM (fun j => F j z0) (range (Z.of_nat m + 1) npv)) as [y2|e2] eqn:E2.
  2:{ cbn [bind]. split; [discriminate|].
      intros [flux' [Hf _]]. apply E' in Hf. rewrite mapM_app, E1, E2 in Hf.
      discriminate. }
  cbn [bind].
  assert (Hl : length y1 = m).
  { apply mapM_length in E1. rewrite range_length in E1. lia. }
  split.
  - intros Hf. inversion Hf. subst flux. exists (y1 ++ y2). split.
    + apply E'. rewrite mapM_app, E1, E2. reflexivity.
    + rewrite <- Hl. rewrite insert_row_app. reflexivity.
  - intros [flux' [Hf ->]]. apply E' in Hf. rewrite mapM_app, E1, E2 in Hf.
    cbn [bind] in Hf. inversion Hf. subst flux'.
    rewrite <- Hl. rewrite insert_row_app. reflexivity.
Qed.

Lemma well_shaped_drop_member (ldp : list (list (list float)))
    (k : list (list float)) (npb : Z) (m : nat) :
  well_shaped ldp (size k) npb -> (m < length k)%nat ->
  well_shaped (drop_member m ldp) (size (drop_member m k)) npb.
Proof.
  intros [H1 H2] Hm. split.
  - rewrite !size_drop_member; [lia | assumption | unfold size in H1; lia].
  - apply Forall_drop_member. assumption.
Qed.


(** ** Serial and parallel evaluation *)


Lemma mapM_range_getitem_gen {A B} (f : A -> res B) (l : list A) :
  forall pre : list A,
    mapM (fun i => x <- getitem (pre ++ l) i ;; f x)
         (range (Z.of_nat (length pre)) (Z.of_nat (length pre + length l))) =
    mapM f l.
Proof.
  induction l as [|x l IH]; intros pre.
  - rewrite range_nil by (simpl; lia). reflexivity.
  - rewrite range_cons by (simpl; lia). cbn [mapM].
    rewrite getitem_app_mid. cbn [bind].
    specialize (IH (pre ++ [x])). rewrite <- app_assoc in IH. simpl in IH.
    rewrite length_app in IH. simpl in IH.
    replace (Z.of_nat (length pre + 1)) with (Z.of_nat (length pre) + 1)%Z in IH by lia.
    replace (Z.of_nat (length pre + 1 + length l))
      with (Z.of_nat (length pre + length (x :: l))) in IH by (simpl; lia).
    rewrite IH. reflexivity.
Qed.

Lemma mapM_range_getitem {A B} (f : A -> res B) (l : list A) :
  mapM (fun i => x <- getitem l i ;; f x) (range 0 (size l)) = mapM f l.
Proof. exact (mapM_range_getitem_gen f l []). Qed.

Lemma mapM_split {A B C D} (L : A -> res B) (c : A -> C) (F : B -> C -> D)
    (zs : list A) :
  mapM (fun z => ip <- L z ;; Ok (F ip (c z))) zs =
  (ips <- mapM L zs ;; Ok (map2 F ips (map c zs))).
Proof.
  induction zs as [|z zs IH]; [reflexivity|].
  cbn [mapM map]. destruct (L z) as [ip|]; [|reflexivity]. cbn [bind].
  rewrite IH. destruct (mapM L zs); reflexivity.
Qed.

Lemma im_p_v_lerp (gs : list float) (dg : float) (weights : list (list float))
    (ldp : list float) :
  im_p_v gs dg weights ldp = mapM (fun g => lerp g dg (matvec weights ldp)) gs.
Proof. reflexivity. Qed.

Lemma im_p_v2_lerp (gs : list float) (dg : float) (ldw : list float) :
  im_p_v2 gs dg ldw = mapM (fun g => lerp g dg ldw) gs.
Proof. reflexivity. Qed.

Lemma same_result_Err {A} (e1 e2 : exn) : same_result (@Err A e1) (@Err A e2).
Proof. intros x. split; discriminate. Qed.


Section EvaluatorProperties.

Variable z_ip_s :
  float -> float -> float -> float -> float -> float -> float ->
  list float -> list float -> list (list float) -> float.

Variable z_ip_v :
  list float -> float -> float -> float -> float -> float -> float ->
  list float -> list float -> list (list float) -> list float.

(** The two copies of the point loop are the same function. *)
Lemma _eval_s_point_same :
  _eval_s_parallel_point z_ip_s = _eval_s_serial_point z_ip_s.
Proof. reflexivity. Qed.

Lemma _eval_s_agree (sched : list Z) (t k : list float) (t0 p a i e w : float)
    (istar : list (list float)) (zm : list float) (dg : float)
    (ldp : list (list (list float))) (ldw : list (list float)) (splimit : float)
    (lcids pbids nsamples : list Z) (exptimes : list float)
    (es ms : list float) (tae : list (list float)) :
  Permutation sched (range 0 (size t)) ->
  same_result (_eval_s_parallel z_ip_s sched t k t0 p a i e w istar zm dg ldp ldw
                 splimit lcids pbids nsamples exptimes es ms tae)
              (_eval_s_serial z_ip_s t k t0 p a i e w istar zm dg ldp ldw
                 splimit lcids pbids nsamples exptimes es ms tae).
Proof.
  intros Hp. unfold _eval_s_parallel, _eval_s_serial. rewrite _eval_s_point_same.
  apply for_cells_schedule; [assumption|].
  unfold zeros, size. rewrite repeat_length. lia.
Qed.



(** ** No overlap: the flux is exactly one *)


Lemma population_point_off_disk_direct
    (t k_pv : list float) (t0 p a i e w : list float)
    (istar : list (list float)) (dg : float) (ldw : list (list float))
    (lcids pbids nsamples : list Z) (exptimes : list float)
    (es ms : list float) (tae : list (list float)) (ipv j : Z)
    (t0v pv av iv ev wv : float) :
  member_orbit t0 p a i e w ipv t0v pv av iv ev wv ->
  off_disk_point z_ip_s t k_pv t0v pv av iv ev wv
    lcids pbids nsamples exptimes es ms tae j ->
  swmodel_direct_v_point z_ip_s t k_pv t0 p a i e w istar dg ldw
    lcids pbids nsamples exptimes es ms tae ipv j (Fin 0) = Ok (Fin 1).
Proof.
  intros [M1 [M2 [M3 [M4 [M5 [M6 [M7 M8]]]]]]]
         [ilc [ipb [_k [ns [et [tj [H1 [H2 [H3 [H4 [H5 [H6 [H7 H8]]]]]]]]]]]]].
  unfold swmodel_direct_v_point. rewrite H1. cbn [bind]. rewrite H2. cbn [bind].
  rewrite H3. cbn [bind].
  rewrite (off_disk_not_nan _k _ (H8 1%Z ltac:(lia))).
  rewrite M3. cbn [bind]. rewrite M7. rewrite M4. cbn [bind]. rewrite M8.
  rewrite H4. cbn [bind].
  rewrite (foldM_sum _ (fun _ => 1)).
  - cbn [bind]. f_equal. apply off_disk_average. assumption.
  - intros isample x Hin. apply in_range in Hin.
    unfold swmodel_direct_v_sample. rewrite H6. cbn [bind]. rewrite H4. cbn [bind].
    rewrite H7, M1, M2, M3, M4, M5, M6. cbn [bind].
    change (tj + et * ((of_int isample - 0.5) / of_int ns - 0.5))%flt
      with (sample_time tj et ns isample).
    rewrite H8 by lia. reflexivity.
Qed.







(** ** The branch is selected by the radius ratio *)

(** A loop that adds one term per iteration to a running sum. *)
Lemma foldM_accumulate {A} (body : float -> A -> res float) (g : A -> res float)
    (l : list A) :
  (forall fj x, In x l -> body fj x = (f <- g x ;; Ok (fj + f)%flt)) ->
  forall acc, foldM body l acc = (fs <- mapM g l ;; Ok (fold_left fadd fs acc)).
Proof.
  induction l as [|x l IH]; intros H acc; [reflexivity|].
  cbn [foldM mapM]. rewrite H by (left; reflexivity).
  destruct (g x) as [f|]; [|reflexivity]. cbn [bind].
  rewrite IH by (intros fj y Hy; apply H; right; assumption).
  destruct (mapM g l); reflexivity.
Qed.

Lemma _eval_s_serial_sample_flux
    (t k : list float) (t0 p a i e w : float)
    (istar : list (list float)) (zm : list float) (dg : float)
    (ldp : list (list (list float))) (ldw : list (list float)) (splimit : float)
    (lcids pbids nsamples : list Z) (exptimes : list float)
    (es ms : list float) (tae : list (list float))
    (j ilc ipb : Z) (_k fj : float) (isample ns : Z) :
  getitem nsamples ilc = Ok ns ->
  _eval_s_serial_sample z_ip_s t k t0 p a i e w istar zm dg ldp ldw splimit
    lcids pbids nsamples exptimes es ms tae j ilc ipb _k fj isample =
  (f <- sample_flux z_ip_s (branch_intensity splimit dg ldw zm ldp ipb _k)
          t t0 p a i e w istar exptimes es ms tae j ilc ipb ns _k isample ;;
   Ok (fj + f)%flt).
Proof.
  intros Hns. unfold _eval_s_serial_sample, sample_flux.
  destruct (getitem exptimes ilc) as [et|]; [|reflexivity]. cbn [bind].
  rewrite Hns. cbn [bind].
  destruct (getitem t j) as [tj|]; [|reflexivity]. cbn [bind].
  change (tj + et * ((of_int isample - 0.5) / of_int ns - 0.5))%flt
    with (sample_time tj et ns isample).
  destruct (_ >? 1 + _k)%flt; [reflexivity|].
  unfold blocked_flux, branch_intensity.
  destruct (_k >? splimit)%flt.
  - unfold exact_intensity.
    destruct (getitem ldw ipb) as [ldw_pb|]; [|reflexivity]. cbn [bind].
    destruct (lerp _ _ _); [|reflexivity]. cbn [bind].
    destruct (getitem istar 0) as [istar0|]; [|reflexivity]. cbn [bind].
    destruct (getitem istar0 ipb); reflexivity.
  - unfold small_planet_intensity.
    destruct (getitem ldp 0) as [ldp0|]; [|reflexivity]. cbn [bind].
    destruct (getitem ldp0 ipb) as [ldp_pb|]; [|reflexivity]. cbn [bind].
    destruct (interpolate_limb_darkening_s _ _ _); [|reflexivity]. cbn [bind].
    destruct (getitem istar 0) as [istar0|]; [|reflexivity]. cbn [bind].
    destruct (getitem istar0 ipb); reflexivity.
Qed.

Lemma _eval_s_serial_point_flux
    (t k : list float) (t0 p a i e w : float)
    (istar : list (list float)) (zm : list float) (dg : float)
    (ldp : list (list (list float))) (ldw : list (list float)) (splimit : float)
    (lcids pbids nsamples : list Z) (exptimes : list float)
    (es ms : list float) (tae : list (list float)) (j : Z) :
  _eval_s_serial_point z_ip_s t k t0 p a i e w istar zm dg ldp ldw splimit
    lcids pbids nsamples exptimes es ms tae j (Fin 0) =
  point_flux z_ip_s (branch_intensity splimit dg ldw zm ldp) t k t0 p a i e w istar lcids pbids nsamples exptimes es ms tae j.
Proof.
  unfold _eval_s_serial_point, point_flux, effective_k.
  destruct (getitem lcids j) as [ilc|]; [|reflexivity]. cbn [bind].
  destruct (getitem pbids ilc) as [ipb|]; [|reflexivity]. cbn [bind].
  destruct (if (size k =? 1)%Z then getitem k 0 else getitem k ipb) as [_k|];
    [|reflexivity].
  cbn [bind].
  destruct (getitem nsamples ilc) as [ns|] eqn:Hns; [|reflexivity]. cbn [bind].
  rewrite (foldM_accumulate _
             (sample_flux z_ip_s (branch_intensity splimit dg ldw zm ldp ipb _k)
                t t0 p a i e w istar exptimes es ms tae j ilc ipb ns _k))
    by (intros fj x _; apply _eval_s_serial_sample_flux; exact Hns).
  destruct (mapM _ _); reflexivity.
Qed.

Lemma _eval_s_serial_series
    (t k : list float) (t0 p a i e w : float)
    (istar : list (list float)) (zm : list float) (dg : float)
    (ldp : list (list (list float))) (ldw : list (list float)) (splimit : float)
    (lcids pbids nsamples : list Z) (exptimes : list float)
    (es ms : list float) (tae : list (list float)) :
  _eval_s_serial z_ip_s t k t0 p a i e w istar zm dg ldp ldw splimit
    lcids pbids nsamples exptimes es ms tae =
  series_flux z_ip_s (branch_intensity splimit dg ldw zm ldp) t k t0 p a i e w istar lcids pbids nsamples exptimes es ms tae.
Proof.
  unfold _eval_s_serial, series_flux, zeros. rewrite for_cells_serial.
  apply mapM_ext. intros j _. apply _eval_s_serial_point_flux.
Qed.

Lemma _eval_s_parallel_series (sched : list Z)
    (t k : list float) (t0 p a i e w : float)
    (istar : list (list float)) (zm : list float) (dg : float)
    (ldp : list (list (list float))) (ldw : list (list float)) (splimit : float)
    (lcids pbids nsamples : list Z) (exptimes : list float)
    (es ms : list float) (tae : list (list float)) :
  Permutation sched (range 0 (size t)) ->
  same_result (_eval_s_parallel z_ip_s sched t k t0 p a i e w istar zm dg ldp ldw
                 splimit lcids pbids nsamples exptimes es ms tae)
              (series_flux z_ip_s (branch_intensity splimit dg ldw zm ldp) t k t0 p a i e w istar lcids pbids nsamples exptimes es ms tae).
Proof.
  intros Hp. rewrite <- _eval_s_serial_series. apply _eval_s_agree. assumption.
Qed.

Lemma series_flux_entry (intensity : Z -> float -> float -> res float)
    (t k : list float) (t0 p a i e w : float) (istar : list (list float))
    (lcids pbids nsamples : list Z) (exptimes : list float)
    (es ms : list float) (tae : list (list float)) (flux : list float) (j : Z) :
  series_flux z_ip_s intensity t k t0 p a i e w istar lcids pbids nsamples exptimes es ms tae = Ok flux ->
  (0 <= j < size t)%Z ->
  getitem flux j = point_flux z_ip_s intensity t k t0 p a i e w istar lcids pbids nsamples exptimes es ms tae j.
Proof.
  intros E Hj. unfold series_flux in E.
  destruct (mapM_getitem _ _ _ j j E (proj1 Hj)) as [y [Ey Gy]].
  { rewrite getitem_range by lia. reflexivity. }
  rewrite Ey, Gy. reflexivity.
Qed.

Lemma point_flux_branch
    (t k : list float) (t0 p a i e w : float)
    (istar : list (list float)) (zm : list float) (dg : float)
    (ldp : list (list (list float))) (ldw : list (list float)) (splimit : float)
    (lcids pbids nsamples : list Z) (exptimes : list float)
    (es ms : list float) (tae : list (list float)) (j ilc ipb : Z) (_k : float) :
  getitem lcids j = Ok ilc -> getitem pbids ilc = Ok ipb ->
  effective_k k ipb = Ok _k ->
  ((_k >? splimit)%flt = true ->
   point_flux z_ip_s (branch_intensity splimit dg ldw zm ldp) t k t0 p a i e w istar lcids pbids nsamples exptimes es ms tae j =
   point_flux z_ip_s (exact_intensity dg ldw) t k t0 p a i e w istar lcids pbids nsamples exptimes es ms tae j) /\
  ((_k >? splimit)%flt = false ->
   point_flux z_ip_s (branch_intensity splimit dg ldw zm ldp) t k t0 p a i e w istar lcids pbids nsamples exptimes es ms tae j =
   point_flux z_ip_s (fun ipb' _ => small_planet_intensity zm ldp ipb') t k t0 p a i e w istar lcids pbids nsamples exptimes es ms tae j).
Proof.
  intros H1 H2 H3. unfold point_flux, branch_intensity.
  rewrite H1. cbn [bind]. rewrite H2. cbn [bind]. rewrite H3. cbn [bind].
  split; intros Hk; rewrite Hk; reflexivity.
Qed.

Lemma table_profiles_built (weights : list (list float)) (ldp0 : list (list float)) :
  mapM (fun ipb => l <- getitem ldp0 ipb ;; Ok (matvec weights l))
       (range 0 (size ldp0)) = Ok (table_profiles weights ldp0).
Proof.
  exact (eq_trans (mapM_range_getitem (fun l => Ok (matvec weights l)) ldp0)
                  (mapM_pure _ (matvec weights) ldp0 (fun _ _ => eq_refl))).
Qed.

Lemma blended_profiles_built (weights : list (list (list float))) (ik : Z)
    (ak : float) (wk wk1 : list (list float)) (ldp0 : list (list float)) :
  getitem weights ik = Ok wk -> getitem weights (ik + 1) = Ok wk1 ->
  mapM (fun ipb =>
          wk <- getitem weights ik ;;
          l <- getitem ldp0 ipb ;;
          wk1 <- getitem weights (ik + 1) ;;
          Ok (map2 (fun x y => ((1 - ak) * x + ak * y)%flt)
                   (matvec wk l) (matvec wk1 l)))
       (range 0 (size ldp0)) = Ok (blended_profiles ak wk wk1 ldp0).
Proof.
  intros E0 E1. rewrite E0, E1.
  exact (eq_trans
           (mapM_range_getitem
              (fun l => Ok (map2 (fun x y => ((1 - ak) * x + ak * y)%flt)
                                 (matvec wk l) (matvec wk1 l))) ldp0)
           (mapM_pure _ (fun l => map2 (fun x y => ((1 - ak) * x + ak * y)%flt)
                                       (matvec wk l) (matvec wk1 l))
                      ldp0 (fun _ _ => eq_refl))).
Qed.

Lemma swmodel_direct_s_simple_branch
    (t k : list float) (t0 p a i e w : float)
    (ldp : list (list (list float))) (istar : list (list float))
    (ze zm : list float) (ng : Z) (splimit : float)
    (lcids pbids nsamples : list Z) (exptimes : list float)
    (es ms : list float) (tae : list (list float)) (parallel : bool)
    (k0 : float) (ldp0 : list (list float)) (ldp00 : list float)
    (istar0 : list float) (istar00 : float) :
  getitem k 0 = Ok k0 ->
  getitem ldp 0 = Ok ldp0 -> getitem ldp0 0 = Ok ldp00 ->
  getitem istar 0 = Ok istar0 -> getitem istar0 0 = Ok istar00 ->
  ((k0 >? splimit)%flt = true ->
   forall gs dg weights,
     calculate_weights_2d k0 ze ng = Ok (gs, dg, weights) ->
     swmodel_direct_s_simple z_ip_v t k t0 p a i e w ldp istar ze zm ng splimit
       lcids pbids nsamples exptimes es ms tae parallel =
     simple_flux (fun zi => lerp (zi / (1 + k0))%flt dg (matvec weights ldp00))
                 istar00 k0 (z_ip_v t t0 p a i e w es ms tae)) /\
  ((k0 >? splimit)%flt = false ->
   swmodel_direct_s_simple z_ip_v t k t0 p a i e w ldp istar ze zm ng splimit
     lcids pbids nsamples exptimes es ms tae parallel =
   simple_flux (fun zi => interpolate_limb_darkening_s zi zm ldp00)
               istar00 k0 (z_ip_v t t0 p a i e w es ms tae)).
Proof.
  intros Hk Hl0 Hl00 Hi0 Hi00. split.
  - intros Hgt gs dg weights Etbl. unfold swmodel_direct_s_simple, simple_flux.
    rewrite Hk. cbn [bind]. rewrite Hgt, Etbl. cbn [bind].
    rewrite Hl0. cbn [bind]. rewrite Hl00. cbn [bind].
    rewrite Hi0. cbn [bind]. rewrite Hi00. cbn [bind].
    rewrite im_p_v2_lerp, mapM_map.
    rewrite (mapM_split (fun zi => lerp (zi / (1 + k0))%flt dg (matvec weights ldp00))
               (circle_circle_intersection_area 1 k0)
               (fun ip ap => ((istar00 - ip * ap) / istar00)%flt)).
    reflexivity.
  - intros Hle. unfold swmodel_direct_s_simple, simple_flux.
    rewrite Hk. cbn [bind]. rewrite Hle.
    rewrite Hl0. cbn [bind]. rewrite Hl00. cbn [bind].
    rewrite Hi0. cbn [bind]. rewrite Hi00. cbn [bind].
    rewrite (mapM_split (fun zi => interpolate_limb_darkening_s zi zm ldp00)
               (circle_circle_intersection_area 1 k0)
               (fun ip ap => ((istar00 - ip * ap) / istar00)%flt)).
    reflexivity.
Qed.

(** C5: the branch is chosen by the radius ratio alone, in every evaluator
    that takes the threshold [splimit].  [_eval_s_serial] returns, and
    [_eval_s_parallel] returns for every schedule of its loop, the series in
    which the flux of a point is the mean over its samples of 1 where the
    planet is off the disk and of the flux left by the blocked intensity
    elsewhere; the blocked intensity of a point is the one of the branch that
    its radius ratio [_k] (k[0] when there is a single one, the one of the
    point's passband otherwise) selects.  So the entry of a point with
    _k > splimit is computed with the exact geometric intensity (the weight
    table dotted with the profile, interpolated at g = z / (1 + _k)) at every
    sample, and the entry of a point with _k <= splimit with the small-planet
    intensity (the profile interpolated linearly at z); in both cases the
    blocked intensity is multiplied by the circle-circle overlap area.
    [swmodel_direct_s] and [swmodel_interpolated_s] return that series for
    the product of their weight table (built for k[0], or blended from two
    planes of the precomputed table) with the profiles, and
    [swmodel_direct_s_simple] makes the same choice once, on k[0], for the
    whole series.  These evaluators are compiled with fastmath, which leaves
    a comparison with NaN undefined, and a division of theirs raises an
    error on a zero divisor: the threshold and the separations are taken to
    be numbers, the radius ratios non-negative numbers, the nodes strictly
    increasing numbers, the stellar intensities and the grazing step numbers
    other than zero, and every light curve to have one sample or more. *)
Theorem branch_by_radius_ratio
    (sched : list Z) (t k : list float) (t0 p a i e w : float)
    (istar : list (list float)) (zm : list float) (dg : float)
    (ldp : list (list (list float))) (ldw : list (list float)) (splimit : float)
    (lcids pbids nsamples : list Z) (exptimes : list float)
    (es ms : list float) (tae : list (list float))
    (ze : list float) (ng : Z) (weights3 : list (list (list float)))
    (dk k0 : float) (parallel : bool) :
  is_number splimit -> regular_series k istar nsamples ->
  nonzero_number dg -> increasing_nodes zm ->
  (forall tj, is_number (z_ip_s tj t0 p a i e w es ms tae)) ->
  Forall is_number (z_ip_v t t0 p a i e w es ms tae) ->
  (_eval_s_serial z_ip_s t k t0 p a i e w istar zm dg ldp ldw splimit
    lcids pbids nsamples exptimes es ms tae =
   series_flux z_ip_s (branch_intensity splimit dg ldw zm ldp) t k t0 p a i e w istar lcids pbids nsamples exptimes es ms tae /\
   (Permutation sched (range 0 (size t)) ->
    same_result
      (_eval_s_parallel z_ip_s sched t k t0 p a i e w istar zm dg ldp ldw splimit
         lcids pbids nsamples exptimes es ms tae)
      (series_flux z_ip_s (branch_intensity splimit dg ldw zm ldp) t k t0 p a i e w istar lcids pbids nsamples exptimes es ms tae))) /\
  (forall (j ilc ipb : Z) (_k : float) (flux : list float),
     (0 <= j < size t)%Z ->
     getitem lcids j = Ok ilc -> getitem pbids ilc = Ok ipb ->
     effective_k k ipb = Ok _k ->
     _eval_s_serial z_ip_s t k t0 p a i e w istar zm dg ldp ldw splimit
    lcids pbids nsamples exptimes es ms tae = Ok flux \/
     (Permutation sched (range 0 (size t)) /\
      _eval_s_parallel z_ip_s sched t k t0 p a i e w istar zm dg ldp ldw splimit
        lcids pbids nsamples exptimes es ms tae = Ok flux) ->
     ((_k >? splimit)%flt = true ->
      getitem flux j = point_flux z_ip_s (exact_intensity dg ldw) t k t0 p a i e w istar lcids pbids nsamples exptimes es ms tae j) /\
     ((_k <=? splimit)%flt = true ->
      getitem flux j =
      point_flux z_ip_s (fun ipb' _ => small_planet_intensity zm ldp ipb') t k t0 p a i e w istar lcids pbids nsamples exptimes es ms tae j)) /\
  (forall (ldp0 : list (list float)) (k_0 : float) (gs : list float) (dg' : float)
          (weights : list (list float)),
     getitem ldp 0 = Ok ldp0 -> getitem k 0 = Ok k_0 ->
     calculate_weights_2d k_0 ze ng = Ok (gs, dg', weights) ->
     Forall (fun l => length l = length ze) ldp0 ->
     Permutation sched (range 0 (size t)) ->
     same_result
       (swmodel_direct_s z_ip_s sched t k t0 p a i e w ldp istar ze zm ng splimit
          lcids pbids nsamples exptimes es ms tae parallel)
       (series_flux z_ip_s
          (branch_intensity splimit dg' (table_profiles weights ldp0) zm ldp) t k t0 p a i e w istar lcids pbids nsamples exptimes es ms tae)) /\
  (forall (ldp0 : list (list float)) (k_0 : float) (ik : Z)
          (wk wk1 : list (list float)) (nz : nat),
     getitem ldp 0 = Ok ldp0 -> getitem k 0 = Ok k_0 ->
     int_floor ((k_0 - k0) / dk)%flt = Ok ik ->
     getitem weights3 ik = Ok wk -> getitem weights3 (ik + 1) = Ok wk1 ->
     length wk = length wk1 ->
     Forall (fun row => length row = nz) wk ->
     Forall (fun row => length row = nz) wk1 ->
     Forall (fun l => length l = nz) ldp0 ->
     Permutation sched (range 0 (size t)) ->
     same_result
       (swmodel_interpolated_s z_ip_s sched t k t0 p a i e w ldp istar weights3 zm
          dk k0 dg splimit lcids pbids nsamples exptimes es ms tae parallel)
       (series_flux z_ip_s
          (branch_intensity splimit dg
             (blended_profiles ((k_0 - k0) / dk - of_int ik)%flt wk wk1 ldp0)
             zm ldp) t k t0 p a i e w istar lcids pbids nsamples exptimes es ms tae)) /\
  (forall (k_0 : float) (ldp0 : list (list float)) (ldp00 : list float)
          (istar0 : list float) (istar00 : float),
     getitem k 0 = Ok k_0 ->
     getitem ldp 0 = Ok ldp0 -> getitem ldp0 0 = Ok ldp00 ->
     getitem istar 0 = Ok istar0 -> getitem istar0 0 = Ok istar00 ->
     ((k_0 >? splimit)%flt = true ->
      forall gs dg' weights,
        calculate_weights_2d k_0 ze ng = Ok (gs, dg', weights) ->
        length ldp00 = length ze ->
        swmodel_direct_s_simple z_ip_v t k t0 p a i e w ldp istar ze zm ng splimit
          lcids pbids nsamples exptimes es ms tae parallel =
        simple_flux (fun zi => lerp (zi / (1 + k_0))%flt dg' (matvec weights ldp00))
                    istar00 k_0 (z_ip_v t t0 p a i e w es ms tae)) /\
     ((k_0 <=? splimit)%flt = true ->
      swmodel_direct_s_simple z_ip_v t k t0 p a i e w ldp istar ze zm ng splimit
        lcids pbids nsamples exptimes es ms tae parallel =
      simple_flux (fun zi => interpolate_limb_darkening_s zi zm ldp00)
                  istar00 k_0 (z_ip_v t t0 p a i e w es ms tae))).
Proof.
  intros _ _ _ _ _ _.
  split; [|split; [|split; [|split]]].
  - split.
    + apply _eval_s_serial_series.
    + apply _eval_s_parallel_series.
  - intros j ilc ipb _k flux Hj H1 H2 H3 Hflux.
    assert (Es : series_flux z_ip_s (branch_intensity splimit dg ldw zm ldp) t k t0 p a i e w istar lcids pbids nsamples exptimes es ms tae
                 = Ok flux).
    { destruct Hflux as [E | [Hp E]].
      - rewrite <- _eval_s_serial_series. exact E.
      - apply (_eval_s_parallel_series sched t k t0 p a i e w istar zm dg ldp ldw
                 splimit lcids pbids nsamples exptimes es ms tae Hp). exact E. }
    rewrite (series_flux_entry _ _ _ _ _ _ _ _ _ _ _ _ _ _ _ _ _ _ _ Es Hj).
    destruct (point_flux_branch t k t0 p a i e w istar zm dg ldp ldw splimit
                lcids pbids nsamples exptimes es ms tae j ilc ipb _k H1 H2 H3)
      as [Egt Ele].
    split; intros Hk.
    + apply Egt. exact Hk.
    + apply Ele. apply fleb_not_fgtb. exact Hk.
  - intros ldp0 k_0 gs dg' weights Hl Hk Etbl _ Hp.
    unfold swmodel_direct_s. rewrite Hl. cbn [bind]. rewrite Hk. cbn [bind].
    rewrite Etbl. cbn [bind]. rewrite table_profiles_built. cbn [bind].
    destruct parallel.
    + apply _eval_s_parallel_series. exact Hp.
    + rewrite _eval_s_serial_series. apply same_result_refl.
  - intros ldp0 k_0 ik wk wk1 nz Hl Hk Eik Ewk Ewk1 _ _ _ _ Hp.
    unfold swmodel_interpolated_s. rewrite Hl. cbn [bind]. rewrite Hk. cbn [bind].
    rewrite Eik. cbn [bind].
    rewrite (blended_profiles_built weights3 ik _ wk wk1 ldp0 Ewk Ewk1). cbn [bind].
    destruct parallel.
    + apply _eval_s_parallel_series. exact Hp.
    + rewrite _eval_s_serial_series. apply same_result_refl.
  - intros k_0 ldp0 ldp00 istar0 istar00 Hk Hl0 Hl00 Hi0 Hi00.
    destruct (swmodel_direct_s_simple_branch t k t0 p a i e w ldp istar ze zm ng
                splimit lcids pbids nsamples exptimes es ms tae parallel
                k_0 ldp0 ldp00 istar0 istar00 Hk Hl0 Hl00 Hi0 Hi00) as [E1 E2].
    split.
    + intros Hgt gs dg' weights Etbl _. apply (E1 Hgt gs dg' weights Etbl).
    + intros Hle. apply E2. apply fleb_not_fgtb. assumption.
Qed.

(** ** Invalid population members *)

Lemma direct_point_flagged
    (t k_pv : list float) (t0 p a i e w : list float)
    (istar : list (list float)) (dg : float) (ldw : list (list float))
    (lcids pbids nsamples : list Z) (exptimes : list float)
    (es ms : list float) (tae : list (list float)) (ipv j : Z) (fj : float) :
  flagged_point k_pv a i lcids pbids ipv j ->
  swmodel_direct_v_point z_ip_s t k_pv t0 p a i e w istar dg ldw
    lcids pbids nsamples exptimes es ms tae ipv j fj = Ok PInf.
Proof.
  intros [ilc [ipb [_k [H1 [H2 [H3 H4]]]]]].
  unfold swmodel_direct_v_point. rewrite H1. cbn [bind]. rewrite H2. cbn [bind].
  rewrite H3. cbn [bind].
  destruct H4 as [Hk | [av [Ha [Hav | [iv [Hi Hiv]]]]]].
  - rewrite Hk. reflexivity.
  - destruct (isnan _k); [reflexivity|]. rewrite Ha. cbn [bind]. rewrite Hav. reflexivity.
  - destruct (isnan _k); [reflexivity|]. rewrite Ha. cbn [bind].
    destruct (isnan av); [reflexivity|]. rewrite Hi. cbn [bind]. rewrite Hiv. reflexivity.
Qed.

Lemma interpolated_point_flagged
    (t k_pv : list float) (t0 p a i e w : list float)
    (istar : list (list float)) (dg : float) (ldw : list (list float))
    (lcids pbids nsamples : list Z) (exptimes : list float)
    (es ms : list float) (tae : list (list float)) (ipv j : Z) (fj : float) :
  flagged_point k_pv a i lcids pbids ipv j ->
  swmodel_interpolated_v_point z_ip_s t k_pv t0 p a i e w istar dg ldw
    lcids pbids nsamples exptimes es ms tae ipv j fj = Ok PInf.
Proof.
  intros [ilc [ipb [_k [H1 [H2 [H3 H4]]]]]].
  unfold swmodel_interpolated_v_point. rewrite H1. cbn [bind]. rewrite H2. cbn [bind].
  rewrite H3. cbn [bind].
  destruct H4 as [Hk | [av [Ha [Hav | [iv [Hi Hiv]]]]]].
  - rewrite Hk. reflexivity.
  - destruct (isnan _k); [reflexivity|]. rewrite Ha. cbn [bind]. rewrite Hav. reflexivity.
  - destruct (isnan _k); [reflexivity|]. rewrite Ha. cbn [bind].
    destruct (isnan av); [reflexivity|]. rewrite Hi. cbn [bind]. rewrite Hiv. reflexivity.
Qed.

Lemma direct_member_flagged
    (t : list float) (k : list (list float)) (t0 p a i e w : list float)
    (ldp : list (list (list float))) (istar : list (list float))
    (ze : list float) (ng : Z)
    (lcids pbids nsamples : list Z) (exptimes : list float) (npb : Z)
    (es ms : list float) (tae : list (list float)) (ipv : Z) :
  well_shaped ldp (size k) npb -> (0 <= ipv < size k)%Z ->
  flagged_member t k a i lcids pbids ipv ->
  direct_table_built k ze ng ipv ->
  swmodel_direct_v_member z_ip_s t k t0 p a i e w ldp istar ze ng
    lcids pbids nsamples exptimes npb es ms tae ipv (zeros (size t)) =
  Ok (repeat PInf (length t)).
Proof.
  intros Hws Hi [k_pv [Ek Hpts]]
         [k_pv' [k_pv0 [[[gs dg] weights] [Ek' [Ek0 Etbl]]]]].
  assert (k_pv' = k_pv) by congruence. subst k_pv'.
  destruct (well_shaped_member ldp (size k) npb ipv Hws Hi) as [ldp_pv [El Hl]].
  unfold swmodel_direct_v_member. rewrite Ek. cbn [bind]. rewrite Ek0. cbn [bind].
  rewrite Etbl. cbn [bind]. rewrite El. cbn [bind].
  destruct (mapM_defined
              (fun ipb => l <- getitem ldp_pv ipb ;; Ok (matvec weights l))
              (range 0 npb)) as [ldw Eldw].
  { intros ipb Hipb. apply in_range in Hipb.
    destruct (getitem_in_range ldp_pv ipb) as [l El']; [lia|].
    rewrite El'. cbn [bind]. eauto. }
  rewrite Eldw. cbn [bind]. unfold zeros. rewrite for_cells_serial.
  rewrite (mapM_const _ PInf).
  - rewrite range_length. do 2 f_equal. unfold size. lia.
  - intros j Hj. apply in_range in Hj.
    apply direct_point_flagged. apply Hpts. lia.
Qed.

Lemma interpolated_member_flagged
    (t : list float) (k : list (list float)) (t0 p a i e w : list float)
    (ldp : list (list (list float))) (istar : list (list float))
    (weights : list (list (list float))) (dk k0 dg : float)
    (lcids pbids nsamples : list Z) (exptimes : list float) (npb : Z)
    (es ms : list float) (tae : list (list float)) (ipv : Z) :
  well_shaped ldp (size k) npb -> (0 <= ipv < size k)%Z ->
  flagged_member t k a i lcids pbids ipv ->
  interpolated_table_read k weights dk k0 ipv ->
  swmodel_interpolated_v_member z_ip_s t k t0 p a i e w ldp istar weights dk k0 dg
    lcids pbids nsamples exptimes npb es ms tae ipv (zeros (size t)) =
  Ok (repeat PInf (length t)).
Proof.
  intros Hws Hi [k_pv [Ek Hpts]]
         [k_pv' [k_pv0 [ik [wk [wk1 [Ek' [Ek0 [Eik [Ewk Ewk1]]]]]]]]].
  assert (k_pv' = k_pv) by congruence. subst k_pv'.
  destruct (well_shaped_member ldp (size k) npb ipv Hws Hi) as [ldp_pv [El Hl]].
  unfold swmodel_interpolated_v_member. rewrite Ek. cbn [bind]. rewrite Ek0. cbn [bind].
  rewrite Eik. cbn [bind]. rewrite El. cbn [bind].
  destruct (mapM_defined
              (fun ipb =>
                 wk <- getitem weights ik ;;
                 l <- getitem ldp_pv ipb ;;
                 wk1 <- getitem weights (ik + 1) ;;
                 Ok (map2 (fun x y => ((1 - ((k_pv0 - k0) / dk - of_int ik)) * x
                                       + ((k_pv0 - k0) / dk - of_int ik) * y)%flt)
                          (matvec wk l) (matvec wk1 l)))
              (range 0 npb)) as [ldw Eldw].
  { intros ipb Hipb. apply in_range in Hipb.
    destruct (getitem_in_range ldp_pv ipb) as [l El']; [lia|].
    rewrite Ewk. cbn [bind]. rewrite El'. cbn [bind]. rewrite Ewk1. cbn [bind]. eauto. }
  rewrite Eldw. cbn [bind]. unfold zeros. rewrite for_cells_serial.
  rewrite (mapM_const _ PInf).
  - rewrite range_length. do 2 f_equal. unfold size. lia.
  - intros j Hj. apply in_range in Hj.
    apply interpolated_point_flagged. apply Hpts. lia.
Qed.

(** A NaN radius ratio does not stop the weight table from being built. *)
Lemma direct_member_shift
    (t : list float) (k : list (list float)) (t0 p a i e w : list float)
    (ldp : list (list (list float))) (istar : list (list float))
    (ze : list float) (ng : Z)
    (lcids pbids nsamples : list Z) (exptimes : list float) (npb : Z)
    (es ms : list float) (tae : list (list float)) (m : nat) (ipv : Z)
    (row : list float) :
  (0 <= ipv)%Z ->
  swmodel_direct_v_member z_ip_s t (drop_member m k)
    (drop_member m t0) (drop_member m p) (drop_member m a) (drop_member m i)
    (drop_member m e) (drop_member m w) (drop_member m ldp) (drop_member m istar)
    ze ng lcids pbids nsamples exptimes npb es ms tae ipv row =
  swmodel_direct_v_member z_ip_s t k t0 p a i e w ldp istar
    ze ng lcids pbids nsamples exptimes npb es ms tae (shift_index m ipv) row.
Proof.
  intros Hi.
  unfold swmodel_direct_v_member, swmodel_direct_v_point, swmodel_direct_v_sample.
  rewrite !(getitem_drop_member m _ ipv Hi). reflexivity.
Qed.

Lemma interpolated_member_shift
    (t : list float) (k : list (list float)) (t0 p a i e w : list float)
    (ldp : list (list (list float))) (istar : list (list float))
    (weights : list (list (list float))) (dk k0 dg : float)
    (lcids pbids nsamples : list Z) (exptimes : list float) (npb : Z)
    (es ms : list float) (tae : list (list float)) (m : nat) (ipv : Z)
    (row : list float) :
  (0 <= ipv)%Z ->
  swmodel_interpolated_v_member z_ip_s t (drop_member m k)
    (drop_member m t0) (drop_member m p) (drop_member m a) (drop_member m i)
    (drop_member m e) (drop_member m w) (drop_member m ldp) (drop_member m istar)
    weights dk k0 dg lcids pbids nsamples exptimes npb es ms tae ipv row =
  swmodel_interpolated_v_member z_ip_s t k t0 p a i e w ldp istar
    weights dk k0 dg lcids pbids nsamples exptimes npb es ms tae
    (shift_index m ipv) row.
Proof.
  intros Hi.
  unfold swmodel_interpolated_v_member, swmodel_interpolated_v_point,
    swmodel_interpolated_v_sample.
  rewrite !(getitem_drop_member m _ ipv Hi). reflexivity.
Qed.

(** The entries of a table computed by a population loop. *)
Lemma population_entry (member : Z -> list float -> res (list float))
    (sched : list Z) (npv : Z) (z0 : list float) (flux : list (list float))
    (ipv : Z) :
  Permutation sched (range 0 npv) ->
  for_cells member sched (repeat z0 (Z.to_nat npv)) = Ok flux ->
  (0 <= ipv < npv)%Z ->
  exists row, member ipv z0 = Ok row /\ getitem flux ipv = Ok row.
Proof.
  intros Hp E Hi.
  apply (proj1 (for_cells_parallel member sched npv z0 Hp flux)) in E.
  apply (mapM_getitem _ _ _ ipv ipv E (proj1 Hi)).
  rewrite getitem_range by lia. reflexivity.
Qed.

Lemma direct_member_entry
    (t : list float) (k : list (list float)) (t0 p a i e w : list float)
    (ldp : list (list (list float))) (istar : list (list float))
    (ze : list float) (ng : Z)
    (lcids pbids nsamples : list Z) (exptimes : list float) (npb : Z)
    (es ms : list float) (tae : list (list float)) (ipv j : Z)
    (k_pv row : list float) :
  getitem k ipv = Ok k_pv -> (0 <= j < size t)%Z ->
  flagged_point k_pv a i lcids pbids ipv j ->
  swmodel_direct_v_member z_ip_s t k t0 p a i e w ldp istar ze ng
    lcids pbids nsamples exptimes npb es ms tae ipv (zeros (size t)) = Ok row ->
  getitem row j = Ok PInf.
Proof.
  intros Ek Hj Hf Em. unfold swmodel_direct_v_member in Em.
  rewrite Ek in Em. cbn [bind] in Em.
  destruct (getitem k_pv 0) as [k_pv0|]; [|discriminate]. cbn [bind] in Em.
  destruct (calculate_weights_2d k_pv0 ze ng) as [[[gs dg] weights]|];
    [|discriminate].
  cbn [bind] in Em.
  destruct (getitem ldp ipv) as [ldp_pv|]; [|discriminate]. cbn [bind] in Em.
  destruct (mapM _ (range 0 npb)) as [ldw|]; [|discriminate]. cbn [bind] in Em.
  unfold zeros in Em. rewrite for_cells_serial in Em.
  destruct (mapM_getitem _ _ _ j j Em (proj1 Hj)) as [y [Ey Gy]].
  { rewrite getitem_range by lia. reflexivity. }
  rewrite direct_point_flagged in Ey by assumption. congruence.
Qed.

Lemma interpolated_member_entry
    (t : list float) (k : list (list float)) (t0 p a i e w : list float)
    (ldp : list (list (list float))) (istar : list (list float))
    (weights : list (list (list float))) (dk k0 dg : float)
    (lcids pbids nsamples : list Z) (exptimes : list float) (npb : Z)
    (es ms : list float) (tae : list (list float)) (ipv j : Z)
    (k_pv row : list float) :
  getitem k ipv = Ok k_pv -> (0 <= j < size t)%Z ->
  flagged_point k_pv a i lcids pbids ipv j ->
  swmodel_interpolated_v_member z_ip_s t k t0 p a i e w ldp istar weights dk k0 dg
    lcids pbids nsamples exptimes npb es ms tae ipv (zeros (size t)) = Ok row ->
  getitem row j = Ok PInf.
Proof.
  intros Ek Hj Hf Em. unfold swmodel_interpolated_v_member in Em.
  rewrite Ek in Em. cbn [bind] in Em.
  destruct (getitem k_pv 0) as [k_pv0|]; [|discriminate]. cbn [bind] in Em.
  destruct (int_floor _) as [ik|]; [|discriminate]. cbn [bind] in Em.
  destruct (getitem ldp ipv) as [ldp_pv|]; [|discriminate]. cbn [bind] in Em.
  destruct (mapM _ (range 0 npb)) as [ldw|]; [|discriminate]. cbn [bind] in Em.
  unfold zeros in Em. rewrite for_cells_serial in Em.
  destruct (mapM_getitem _ _ _ j j Em (proj1 Hj)) as [y [Ey Gy]].
  { rewrite getitem_range by lia. reflexivity. }
  rewrite interpolated_point_flagged in Ey by assumption. congruence.
Qed.

(** C6 (amended): in a flux table returned by a population evaluator the
    entry of a point is +inf whenever the radius ratio that applies to the
    point (the single one, or the one of the point's passband), the
    semi-major axis or the inclination of the member is NaN.  A NaN radius
    ratio does not stop [swmodel_direct_v] from building the member's weight
    table.  When the member is invalid at every point, its table is built
    ([swmodel_direct_v]) or its two planes are read from the precomputed
    table ([swmodel_interpolated_v], which needs a number in [k[ipv, 0]] for
    that) and the profiles have the size of the table rows, the member
    raises no error: the evaluator returns exactly when it returns for the
    population without the member, the row of the member is +inf throughout
    and the rows of the other members are those of the population without
    it.  The population is one for which no division of the loop over the
    points has a zero divisor: the radius ratios are NaN or non-negative
    numbers, the stellar intensities and the grazing step are numbers other
    than zero and every light curve has one sample or more. *)
Theorem invalid_member_is_flagged
    (sched sched' : list Z) (t : list float)
    (k : list (list float)) (t0 p a i e w : list float)
    (ldp : list (list (list float))) (istar : list (list float))
    (ze : list float) (ng : Z)
    (weights : list (list (list float))) (dk k0 dg : float)
    (lcids pbids nsamples : list Z) (exptimes : list float) (npb : Z)
    (es ms : list float) (tae : list (list float)) (m nrows nz : nat) :
  regular_population k istar nsamples -> nonzero_number dg ->
  (forall (flux : list (list float)) (ipv j : Z) (k_pv : list float),
     Permutation sched (range 0 (size k)) ->
     (0 <= ipv < size k)%Z -> (0 <= j < size t)%Z ->
     getitem k ipv = Ok k_pv ->
     flagged_point k_pv a i lcids pbids ipv j ->
     (swmodel_direct_v z_ip_s sched t k t0 p a i e w ldp istar ze ng
        lcids pbids nsamples exptimes npb es ms tae = Ok flux ->
      exists row, getitem flux ipv = Ok row /\ getitem row j = Ok PInf) /\
     (swmodel_interpolated_v z_ip_s sched t k t0 p a i e w ldp istar
        weights dk k0 dg lcids pbids nsamples exptimes npb es ms tae = Ok flux ->
      exists row, getitem flux ipv = Ok row /\ getitem row j = Ok PInf)) /\
  (ze <> [] -> (2 <= ng)%Z -> exists tbl, calculate_weights_2d NaN ze ng = Ok tbl) /\
  (well_shaped ldp (size k) npb -> (m < length k)%nat ->
   Permutation sched (range 0 (size k)) ->
   Permutation sched' (range 0 (size k - 1)) ->
   flagged_member t k a i lcids pbids (Z.of_nat m) ->
   (direct_table_built k ze ng (Z.of_nat m) ->
    profile_size ldp (length ze) ->
    forall flux,
      swmodel_direct_v z_ip_s sched t k t0 p a i e w ldp istar ze ng
        lcids pbids nsamples exptimes npb es ms tae = Ok flux <->
      exists flux',
        swmodel_direct_v z_ip_s sched' t (drop_member m k)
          (drop_member m t0) (drop_member m p) (drop_member m a) (drop_member m i)
          (drop_member m e) (drop_member m w) (drop_member m ldp)
          (drop_member m istar) ze ng
          lcids pbids nsamples exptimes npb es ms tae = Ok flux' /\
        flux = insert_row m (repeat PInf (length t)) flux') /\
   (interpolated_table_read k weights dk k0 (Z.of_nat m) ->
    table_shape weights nrows nz -> profile_size ldp nz ->
    forall flux,
      swmodel_interpolated_v z_ip_s sched t k t0 p a i e w ldp istar
        weights dk k0 dg lcids pbids nsamples exptimes npb es ms tae = Ok flux <->
      exists flux',
        swmodel_interpolated_v z_ip_s sched' t (drop_member m k)
          (drop_member m t0) (drop_member m p) (drop_member m a) (drop_member m i)
          (drop_member m e) (drop_member m w) (drop_member m ldp)
          (drop_member m istar) weights dk k0 dg
          lcids pbids nsamples exptimes npb es ms tae = Ok flux' /\
        flux = insert_row m (repeat PInf (length t)) flux')).
Proof.
  intros _ _.
  split; [|split].
  - intros flux ipv j k_pv Hp Hi Hj Ek Hf. split; intros E.
    + unfold swmodel_direct_v in E.
      destruct (negb _ || negb _); [discriminate|].
      destruct (population_entry _ _ _ _ _ ipv Hp E Hi) as [row [Em Gr]].
      exists row. split; [exact Gr|].
      exact (direct_member_entry t k t0 p a i e w ldp istar ze ng lcids pbids
               nsamples exptimes npb es ms tae ipv j k_pv row Ek Hj Hf Em).
    + unfold swmodel_interpolated_v in E.
      destruct (negb _ || negb _); [discriminate|].
      destruct (population_entry _ _ _ _ _ ipv Hp E Hi) as [row [Em Gr]].
      exists row. split; [exact Gr|].
      exact (interpolated_member_entry t k t0 p a i e w ldp istar weights dk k0 dg
               lcids pbids nsamples exptimes npb es ms tae ipv j k_pv row
               Ek Hj Hf Em).
  - apply calculate_weights_2d_nan.
  - intros Hws Hm Hp Hp' Hflag.
    pose proof (well_shaped_drop_member ldp k npb m Hws Hm) as Hws'.
    assert (Hi : (0 <= Z.of_nat m < size k)%Z) by (unfold size; lia).
    split; [intros Htbl _ flux | intros Htbl _ _ flux].
    + unfold swmodel_direct_v.
      rewrite (well_shaped_check _ _ _ Hws), (well_shaped_check _ _ _ Hws').
      rewrite size_drop_member by assumption.
      apply population_without_member; try assumption; try lia.
      * intros ipv row Hipv. apply direct_member_shift. assumption.
      * apply direct_member_flagged; assumption.
    + unfold swmodel_interpolated_v.
      rewrite (well_shaped_check _ _ _ Hws), (well_shaped_check _ _ _ Hws').
      rewrite size_drop_member by assumption.
      apply population_without_member; try assumption; try lia.
      * intros ipv row Hipv. apply interpolated_member_shift. assumption.
      * apply interpolated_member_flagged; assumption.
Qed.


End EvaluatorProperties.

(** ** The theorems at concrete inputs *)


Lemma lnlikelihood_closed_form_witness :
  lnlikelihood
    (Build_BaseLPF [Fin 1] [0%Z] [0%Z] (0%Z, 1%Z) (fun pv => map (fun _ => [Fin 1]) pv))
    [0%Z] (map (map Fin) [[-3]]) =
  Ok (map (fun i =>
             Fin (gaussian_lnlike [1] (nth (Z.to_nat i) [[1]] [])
                    (noise_scale
                       (Build_BaseLPF [Fin 1] [0%Z] [0%Z] (0%Z, 1%Z)
                          (fun pv => map (fun _ => [Fin 1]) pv))
                       (nth (Z.to_nat i) [[-3]] []))))
          (range 0 (size [[-3]]))).
Proof.
  apply (lnlikelihood_closed_form
           (Build_BaseLPF [Fin 1] [0%Z] [0%Z] (0%Z, 1%Z)
              (fun pv => map (fun _ => [Fin 1]) pv))
           [0%Z] [[-3]] [[1]] [1]).
  - reflexivity.
  - reflexivity.
  - reflexivity.
  - repeat constructor.
  - apply Permutation_refl.
  - simpl. lia.
  - repeat constructor. unfold size. simpl. lia.
  - reflexivity.
  - repeat constructor; unfold size; simpl; lia.
  - repeat constructor; simpl; lia.
Defined.

(** C6 as stated fails when the radius ratio is given per passband: the
    member below has a NaN radius ratio in passband 0, and its flux entry for
    the point of passband 1, where the planet is off the disk, is 1. *)
Lemma nan_radius_ratio_of_another_passband :
  (exists k_pv r,
     getitem [[NaN; Fin 0.1]] 0 = Ok k_pv /\ getitem k_pv 0 = Ok r /\ isnan r = true) /\
  swmodel_direct_v (fun _ _ _ _ _ _ _ _ _ _ => Fin 2) [0%Z]
    [Fin 0; Fin 0] [[NaN; Fin 0.1]]
    [Fin 0] [Fin 1] [Fin 3] [Fin 1] [Fin 0] [Fin 0]
    [[[Fin 1; Fin 1]; [Fin 1; Fin 1]]] [[Fin 1; Fin 1]]
    [Fin 0.5; Fin 1] 2 [0%Z; 1%Z] [0%Z; 1%Z] [1%Z; 1%Z] [Fin 0; Fin 0] 2
    [] [] [] =
  Ok [[PInf; Fin 1]].
Proof.
  split.
  { exists [NaN; Fin 0.1], NaN. repeat split. }
  unfold swmodel_direct_v.
  rewrite (well_shaped_check _ (size [[NaN; Fin 0.1]]) 2).
  2:{ split; [reflexivity | repeat constructor]. }
  apply (for_cells_parallel _ [0%Z] 1 (zeros 2)); [apply Permutation_refl|].
  change (range 0 1) with [0%Z]. cbn [mapM].
  unfold swmodel_direct_v_member.
  rewrite getitem_cons_0. cbn [bind]. rewrite getitem_cons_0. cbn [bind].
  destruct (calculate_weights_2d_nan [Fin 0.5; Fin 1] 2) as [[[gs dg] weights] E];
    [discriminate | lia |].
  rewrite E. cbn [bind]. rewrite getitem_cons_0. cbn [bind].
  change (range 0 2) with [0%Z; 1%Z]. cbn [mapM].
  change (getitem [[Fin 1; Fin 1]; [Fin 1; Fin 1]] 0) with (Ok [Fin 1; Fin 1]).
  change (getitem [[Fin 1; Fin 1]; [Fin 1; Fin 1]] 1) with (Ok [Fin 1; Fin 1]).
  cbn [bind].
  change (size [Fin 0; Fin 0]) with 2%Z. unfold zeros.
  rewrite for_cells_serial.
  change (range 0 2) with [0%Z; 1%Z]. cbn [mapM].
  rewrite direct_point_flagged.
  2:{ exists 0%Z, 0%Z, NaN. repeat split. left. reflexivity. }
  cbn [bind].
  rewrite (population_point_off_disk_direct _ _ _ _ _ _ _ _ _ _ _ _ _ _ _ _ _ _ _ _ _
             (Fin 0) (Fin 1) (Fin 3) (Fin 1) (Fin 0) (Fin 0)).
  - reflexivity.
  - repeat split.
  - exists 1%Z, 1%Z, (Fin 0.1), 1%Z, (Fin 0), (Fin 0).
    repeat split; try reflexivity; try lia.
    intros isample _. apply Rltb_true. lra.
Qed.

(** * Further properties of the code *)

(** ** Loops that fill an array *)

Lemma foldM_ext {A B} (f g : B -> A -> res B) (l : list A) :
  (forall x b, In x l -> f b x = g b x) ->
  forall b, foldM f l b = foldM g l b.
Proof.
  induction l as [|x l IH]; intros H b; [reflexivity|].
  cbn [foldM]. rewrite (H x b (or_introl eq_refl)).
  destruct (g b x) as [b'|e]; cbn [bind]; [|reflexivity].
  apply IH. intros y b0 Hy. apply H. right. assumption.
Qed.

(** A loop of writes [arr[idx j] = val j], where [pos j] is the cell that the
    (possibly negative) index [idx j] denotes. *)
Lemma foldM_setitem (idx : Z -> Z) (pos : Z -> nat) (val : Z -> float) (js : list Z) :
  forall arr : list float,
    (forall j, In j js ->
       (pos j < length arr)%nat /\
       (if (idx j <? 0)%Z then idx j + size arr else idx j)%Z = Z.of_nat (pos j)) ->
    foldM (fun a j => setitem a (idx j) (val j)) js arr =
    Ok (fold_left (fun a j => update a (pos j) (val j)) js arr).
Proof.
  induction js as [|j js IH]; intros arr H; [reflexivity|].
  cbn [foldM fold_left].
  destruct (H j (or_introl eq_refl)) as [Hlt Hidx].
  unfold setitem at 1. rewrite Hidx.
  replace (Z.of_nat (pos j) <? 0)%Z with false by (symmetry; apply Z.ltb_ge; lia).
  replace (size arr <=? Z.of_nat (pos j))%Z with false
    by (symmetry; apply Z.leb_gt; unfold size; lia).
  cbn [orb bind]. rewrite Nat2Z.id. apply IH.
  intros j' Hj'. unfold size. rewrite update_length.
  apply H. right. assumption.
Qed.

Lemma fold_update_length (pos : Z -> nat) (val : Z -> float) (js : list Z) :
  forall arr : list float,
    length (fold_left (fun a j => update a (pos j) (val j)) js arr) = length arr.
Proof.
  induction js as [|j js IH]; intros arr; [reflexivity|].
  cbn [fold_left]. rewrite IH. apply update_length.
Qed.

Lemma fold_update_other (pos : Z -> nat) (val : Z -> float) (js : list Z) (p : nat) :
  forall arr : list float,
    ~ In p (map pos js) ->
    nth_error (fold_left (fun a j => update a (pos j) (val j)) js arr) p =
    nth_error arr p.
Proof.
  induction js as [|j js IH]; intros arr Hp; [reflexivity|].
  cbn [fold_left]. rewrite IH.
  - apply nth_error_update_neq. intros E. apply Hp. left. assumption.
  - intros Hin. apply Hp. right. assumption.
Qed.

Lemma fold_update_written (pos : Z -> nat) (val : Z -> float) (js : list Z) (j : Z) :
  forall arr : list float,
    NoDup (map pos js) -> In j js -> (pos j < length arr)%nat ->
    nth_error (fold_left (fun a j => update a (pos j) (val j)) js arr) (pos j) =
    Some (val j).
Proof.
  induction js as [|j0 js IH]; intros arr Hnd Hin Hlt; [contradiction|].
  cbn [fold_left]. cbn [map] in Hnd. inversion Hnd as [|? ? Hnotin Hnd']; subst.
  destruct Hin as [-> | Hin].
  - rewrite fold_update_other by assumption.
    apply nth_error_update_eq. assumption.
  - apply IH; [assumption | assumption | rewrite update_length; assumption].
Qed.

Lemma nth_error_ext_eq {A} (l l' : list A) :
  (forall n, nth_error l n = nth_error l' n) -> l = l'.
Proof.
  revert l'. induction l as [|x l IH]; intros [|y l'] H.
  - reflexivity.
  - specialize (H O). discriminate.
  - specialize (H O). discriminate.
  - pose proof (H O) as H0. cbn in H0. injection H0 as ->.
    f_equal. apply IH. intros n. apply (H (S n)).
Qed.

Lemma nth_error_map_range {A} (f : Z -> A) (n : Z) (p : nat) :
  nth_error (map f (range 0 n)) p =
  if (Z.of_nat p <? n)%Z then Some (f (Z.of_nat p)) else None.
Proof.
  unfold range. rewrite map_map.
  destruct (Z.ltb_spec (Z.of_nat p) n) as [Hlt | Hge].
  - rewrite (nth_error_map _ p). rewrite nth_error_seq.
    replace (p <? Z.to_nat (n - 0))%nat with true
      by (symmetry; apply Nat.ltb_lt; lia).
    cbn. reflexivity.
  - apply nth_error_None. rewrite length_map, length_seq. lia.
Qed.

(** ** The z grid of [create_z_grid] *)

Lemma NoDup_range (a b : Z) : NoDup (range a b).
Proof.
  unfold range. apply Injective_map_NoDup; [|apply seq_NoDup].
  intros x y H. lia.
Qed.

Lemma NoDup_map_range (pos : Z -> nat) (a b : Z) :
  (forall i j, (a <= i < b)%Z -> (a <= j < b)%Z -> pos i = pos j -> i = j) ->
  NoDup (map pos (range a b)).
Proof.
  intros H. apply NoDup_map_NoDup_ForallPairs; [|apply NoDup_range].
  intros i j Hi Hj. apply in_range in Hi, Hj. apply H; assumption.
Qed.

Lemma zeros_length (n : Z) : length (zeros n) = Z.to_nat n.
Proof. unfold zeros. apply repeat_length. Qed.

(** The loop that fills the cell mid-points from the edges. *)
Lemma z_means_loop (edge : Z -> R) (n : Z) :
  (0 <= n)%Z ->
  foldM (fun z_means i =>
           e0 <- getitem (map (fun j => Fin (edge j)) (range 0 n)) i ;;
           e1 <- getitem (map (fun j => Fin (edge j)) (range 0 n)) (i + 1) ;;
           setitem z_means (i + 1) (0.5 * (e0 + e1))%flt)
        (range 0 (n - 1)) (zeros n) =
  Ok (map (fun j => Fin (z_mean edge j)) (range 0 n)).
Proof.
  intros Hn.
  rewrite (foldM_ext _ (fun a i => setitem a (i + 1)
                                     (Fin (0.5 * (edge i + edge (i + 1)%Z))))).
  2:{ intros i b Hi. apply in_range in Hi.
      rewrite (getitem_map _ _ i i), (getitem_map _ _ (i + 1) (i + 1)%Z);
        try lia; try (apply (getitem_range 0 n); lia).
      cbn [bind]. fnorm. reflexivity. }
  rewrite (foldM_setitem (fun i => (i + 1)%Z) (fun i => Z.to_nat (i + 1))
             (fun i => Fin (0.5 * (edge i + edge (i + 1)%Z)))).
  2:{ intros i Hi. apply in_range in Hi. rewrite zeros_length. split; [lia|].
      replace (i + 1 <? 0)%Z with false by (symmetry; apply Z.ltb_ge; lia). lia. }
  f_equal. apply nth_error_ext_eq. intros p.
  rewrite nth_error_map_range.
  destruct (Z.ltb_spec (Z.of_nat p) n) as [Hlt | Hge].
  - destruct p as [|p].
    + rewrite fold_update_other.
      * unfold zeros. rewrite nth_error_repeat by lia. reflexivity.
      * intros Hin. apply in_map_iff in Hin. destruct Hin as [i [Hi Hin]].
        apply in_range in Hin. lia.
    + replace (S p) with (Z.to_nat (Z.of_nat p + 1)) at 1 by lia.
      rewrite (fold_update_written (fun i => Z.to_nat (i + 1))
                 (fun i => Fin (0.5 * (edge i + edge (i + 1)%Z)))).
      * unfold z_mean.
        replace (Z.of_nat (S p) <=? 0)%Z with false by (symmetry; apply Z.leb_gt; lia).
        replace (Z.of_nat (S p) - 1)%Z with (Z.of_nat p) by lia.
        replace (Z.of_nat p + 1)%Z with (Z.of_nat (S p)) by lia. reflexivity.
      * apply NoDup_map_range. intros; lia.
      * apply in_range. lia.
      * rewrite zeros_length. lia.
  - apply nth_error_None. rewrite fold_update_length, zeros_length. lia.
Qed.

Lemma outer_edge_arg (zcut : R) (nedge i : Z) :
  0 <= zcut <= 1 -> (1 <= nedge)%Z -> (0 <= i <= nedge)%Z ->
  zcut ^ 2 <= 1 - (IZR i * (sqrt (1 - zcut ^ 2) / IZR nedge)) ^ 2 <= 1.
Proof.
  intros Hz Hn Hi.
  assert (Hm : 0 <= 1 - zcut ^ 2) by nra.
  assert (Hne : 0 < IZR nedge) by (apply IZR_lt; lia).
  assert (Hi0 : 0 <= IZR i) by (apply IZR_le; lia).
  assert (Hi1 : IZR i <= IZR nedge) by (apply IZR_le; lia).
  set (mu := sqrt (1 - zcut ^ 2)).
  assert (Hmu : 0 <= mu) by apply sqrt_pos.
  assert (Hmu2 : mu ^ 2 = 1 - zcut ^ 2).
  { unfold mu. rewrite <- Rsqr_pow2. apply Rsqr_sqrt. assumption. }
  set (r := IZR i / IZR nedge).
  assert (Hr : 0 <= r <= 1).
  { unfold r. split.
    - apply Rmult_le_pos; [assumption|]. left. apply Rinv_0_lt_compat. assumption.
    - apply Rmult_le_reg_r with (IZR nedge); [assumption|].
      unfold Rdiv. rewrite Rmult_assoc, Rinv_l, Rmult_1_r by lra. lra. }
  replace (IZR i * (mu / IZR nedge)) with (r * mu) by (unfold r; field; lra).
  assert (0 <= r * mu <= mu) by nra.
  nra.
Qed.

(** Inner edges evenly spaced in z, outer edges evenly spaced in mu, and the
    cell mid-points, the first of them at the disk centre. *)
Lemma create_z_grid_value (zcut : R) (nin nedge : Z) :
  0 <= zcut <= 1 -> (1 <= nin)%Z -> (1 <= nedge)%Z ->
  create_z_grid (Fin zcut) nin nedge =
  Ok (map (fun j => Fin (z_edge zcut nin nedge j)) (range 0 (nin + nedge)),
      map (fun j => Fin (z_mean (z_edge zcut nin nedge) j)) (range 0 (nin + nedge))).
Proof.
  intros Hz Hnin Hnedge.
  assert (Hm : 0 <= 1 - zcut ^ 2) by nra.
  assert (Hni : IZR nin <> 0) by (apply not_0_IZR; lia).
  assert (Hne : IZR nedge <> 0) by (apply not_0_IZR; lia).
  unfold create_z_grid. fnorm. rewrite fsqrt_fin by assumption.
  rewrite !of_int_fin, !fdiv_fin by assumption.
  replace (nin + nedge <? 0)%Z with false by (symmetry; apply Z.ltb_ge; lia).
  set (n := (nin + nedge)%Z).
  set (dz := zcut / IZR nin). set (dmu := sqrt (1 - zcut ^ 2) / IZR nedge).
  (* the inner edges *)
  rewrite (foldM_ext _ (fun a i => setitem a i (Fin (IZR (i + 1) * dz)))).
  2:{ intros i b Hi. rewrite of_int_fin. fnorm. reflexivity. }
  rewrite (foldM_setitem (fun i => i) Z.to_nat (fun i => Fin (IZR (i + 1) * dz))).
  2:{ intros i Hi. apply in_range in Hi. rewrite zeros_length. split; [lia|].
      replace (i <? 0)%Z with false by (symmetry; apply Z.ltb_ge; lia). lia. }
  cbn [bind].
  set (inner := fold_left _ (range 0 (nin - 1)) (zeros n)).
  assert (Hlen_inner : length inner = Z.to_nat n).
  { unfold inner. rewrite fold_update_length. apply zeros_length. }
  (* the outer edges, written from the limb inwards *)
  rewrite (foldM_ext _ (fun a i => setitem a (- i - 1)
                                     (Fin (sqrt (1 - (IZR i * dmu) ^ 2))))).
  2:{ intros i b Hi. apply in_range in Hi. rewrite of_int_fin. fnorm.
      rewrite fsqrt_fin; [reflexivity|].
      pose proof (outer_edge_arg zcut nedge i Hz Hnedge ltac:(lia)) as [H1 _].
      fold dmu in H1. nra. }
  rewrite (foldM_setitem (fun i => (- i - 1)%Z) (fun i => Z.to_nat (n - 1 - i))
             (fun i => Fin (sqrt (1 - (IZR i * dmu) ^ 2)))).
  2:{ intros i Hi. apply in_range in Hi. unfold size. rewrite Hlen_inner.
      split; [lia|].
      replace (- i - 1 <? 0)%Z with true by (symmetry; apply Z.ltb_lt; lia). lia. }
  cbn [bind].
  set (edges := fold_left _ (range 0 (nedge + 1)) inner).
  assert (Hedges : edges = map (fun j => Fin (z_edge zcut nin nedge j)) (range 0 n)).
  { apply nth_error_ext_eq. intros p. rewrite nth_error_map_range.
    destruct (Z.ltb_spec (Z.of_nat p) n) as [Hlt | Hge].
    2:{ apply nth_error_None. unfold edges. rewrite fold_update_length. lia. }
    unfold z_edge. fold dmu dz. fold n.
    destruct (Z.ltb_spec (Z.of_nat p) (nin - 1)) as [Hin | Hout].
    - unfold edges. rewrite fold_update_other.
      2:{ intros H. apply in_map_iff in H. destruct H as [i [Hi H]].
          apply in_range in H. lia. }
      unfold inner.
      replace p with (Z.to_nat (Z.of_nat p)) at 1 by lia.
      rewrite (fold_update_written Z.to_nat (fun i => Fin (IZR (i + 1) * dz))).
      + reflexivity.
      + apply NoDup_map_range. intros; lia.
      + apply in_range. lia.
      + rewrite zeros_length. lia.
    - unfold edges.
      replace p with (Z.to_nat (n - 1 - (n - 1 - Z.of_nat p))) at 1 by lia.
      rewrite (fold_update_written (fun i => Z.to_nat (n - 1 - i))
                 (fun i => Fin (sqrt (1 - (IZR i * dmu) ^ 2)))).
      + reflexivity.
      + apply NoDup_map_range. intros; lia.
      + apply in_range. lia.
      + lia. }
  rewrite Hedges.
  rewrite (z_means_loop (z_edge zcut nin nedge) n) by lia.
  reflexivity.
Qed.

Lemma sorted_map_range (f : Z -> R) (a b : Z) :
  (forall i j, (a <= i < j)%Z -> (j < b)%Z -> f i < f j) ->
  StronglySorted Rlt (map f (range a b)).
Proof.
  intros H. unfold range. rewrite map_map.
  remember (Z.to_nat (b - a)) as m eqn:Em.
  assert (Hm : (Z.of_nat m <= Z.max 0 (b - a))%Z) by lia. clear Em.
  assert (G : forall s, (s + m <= Z.to_nat (b - a))%nat ->
            StronglySorted Rlt (map (fun x => f (a + Z.of_nat x)%Z) (seq s m))).
  { clear Hm. induction m as [|m IH]; intros s Hs; cbn [seq map]; constructor.
    - apply IH. lia.
    - apply Forall_forall. intros y Hy. apply in_map_iff in Hy.
      destruct Hy as [x [<- Hx]]. apply in_seq in Hx. apply H; lia. }
  apply G. lia.
Qed.

Lemma inner_edge_below (zcut : R) (nin j : Z) :
  0 < zcut -> (1 <= nin)%Z -> (0 <= j)%Z -> (j < nin - 1)%Z ->
  0 < IZR (j + 1) * (zcut / IZR nin) < zcut.
Proof.
  intros Hz Hn Hj0 Hj.
  assert (Hni : 0 < IZR nin) by (apply IZR_lt; lia).
  assert (H1 : 0 < IZR (j + 1)) by (apply IZR_lt; lia).
  assert (H2 : IZR (j + 1) < IZR nin) by (apply IZR_lt; lia).
  replace (IZR (j + 1) * (zcut / IZR nin)) with (zcut * (IZR (j + 1) / IZR nin))
    by (field; lra).
  assert (0 < IZR (j + 1) / IZR nin < 1).
  { split.
    - apply Rdiv_lt_0_compat; assumption.
    - apply Rmult_lt_reg_r with (IZR nin); [assumption|].
      unfold Rdiv. rewrite Rmult_assoc, Rinv_l, Rmult_1_r by lra. lra. }
  nra.
Qed.

(** The edges increase strictly with the index. *)
Lemma z_edge_increasing (zcut : R) (nin nedge i j : Z) :
  0 < zcut < 1 -> (1 <= nin)%Z -> (1 <= nedge)%Z ->
  (0 <= i < j)%Z -> (j < nin + nedge)%Z ->
  z_edge zcut nin nedge i < z_edge zcut nin nedge j.
Proof.
  intros Hz Hnin Hnedge Hij Hj. unfold z_edge.
  assert (Hni : 0 < IZR nin) by (apply IZR_lt; lia).
  assert (Hne : 0 < IZR nedge) by (apply IZR_lt; lia).
  destruct (Z.ltb_spec i (nin - 1)) as [Hi | Hi];
    destruct (Z.ltb_spec j (nin - 1)) as [Hj' | Hj'].
  - assert (IZR (i + 1) < IZR (j + 1)) by (apply IZR_lt; lia).
    apply Rmult_lt_compat_r; [|assumption].
    apply Rdiv_lt_0_compat; lra.
  - pose proof (inner_edge_below zcut nin i ltac:(lra) Hnin ltac:(lia) Hi) as [_ H1].
    pose proof (outer_edge_arg zcut nedge (nin + nedge - 1 - j)
                  ltac:(lra) Hnedge ltac:(lia)) as [H2 _].
    apply Rlt_le_trans with zcut; [assumption|].
    rewrite <- (sqrt_pow2 zcut) at 1 by lra.
    apply sqrt_le_1_alt. assumption.
  - lia.
  - set (mu := sqrt (1 - zcut ^ 2)).
    assert (Hmu : 0 < mu) by (unfold mu; apply sqrt_lt_R0; nra).
    assert (Hdmu : 0 < mu / IZR nedge) by (apply Rdiv_lt_0_compat; assumption).
    pose proof (outer_edge_arg zcut nedge (nin + nedge - 1 - i)
                  ltac:(lra) Hnedge ltac:(lia)) as [H1 _].
    fold mu in H1.
    assert (Hi0 : 0 <= IZR (nin + nedge - 1 - j)) by (apply IZR_le; lia).
    assert (Hlt : IZR (nin + nedge - 1 - j) < IZR (nin + nedge - 1 - i))
      by (apply IZR_lt; lia).
    apply sqrt_lt_1_alt. split; [nra|].
    assert (IZR (nin + nedge - 1 - j) * (mu / IZR nedge) <
            IZR (nin + nedge - 1 - i) * (mu / IZR nedge))
      by (apply Rmult_lt_compat_r; assumption).
    assert (0 <= IZR (nin + nedge - 1 - j) * (mu / IZR nedge))
      by (apply Rmult_le_pos; lra).
    nra.
Qed.

Lemma z_edge_last (zcut : R) (nin nedge : Z) :
  (1 <= nin)%Z -> (1 <= nedge)%Z ->
  z_edge zcut nin nedge (nin + nedge - 1) = 1.
Proof.
  intros Hnin Hnedge. unfold z_edge.
  replace (nin + nedge - 1 <? nin - 1)%Z with false by (symmetry; apply Z.ltb_ge; lia).
  replace (nin + nedge - 1 - (nin + nedge - 1))%Z with 0%Z by lia.
  replace (1 - (0 * (sqrt (1 - zcut ^ 2) / IZR nedge)) ^ 2) with 1 by ring.
  apply sqrt_1.
Qed.

Lemma z_edge_cut (zcut : R) (nin nedge : Z) :
  0 <= zcut <= 1 -> (1 <= nin)%Z -> (1 <= nedge)%Z ->
  z_edge zcut nin nedge (nin - 1) = zcut.
Proof.
  intros Hz Hnin Hnedge. unfold z_edge.
  replace (nin - 1 <? nin - 1)%Z with false by (symmetry; apply Z.ltb_ge; lia).
  replace (nin + nedge - 1 - (nin - 1))%Z with nedge by lia.
  assert (Hne : IZR nedge <> 0) by (apply not_0_IZR; lia).
  replace (IZR nedge * (sqrt (1 - zcut ^ 2) / IZR nedge)) with (sqrt (1 - zcut ^ 2))
    by (field; assumption).
  rewrite <- Rsqr_pow2, Rsqr_sqrt by nra.
  replace (1 - (1 - zcut ^ 2)) with (zcut ^ 2) by ring.
  apply sqrt_pow2. lra.
Qed.

Lemma z_edge_pos (zcut : R) (nin nedge j : Z) :
  0 < zcut < 1 -> (1 <= nin)%Z -> (1 <= nedge)%Z ->
  (0 <= j < nin + nedge)%Z -> 0 < z_edge zcut nin nedge j <= 1.
Proof.
  intros Hz Hnin Hnedge Hj. split.
  - destruct (Z.eq_dec j 0) as [-> | Hne].
    + unfold z_edge. destruct (Z.ltb_spec 0 (nin - 1)) as [H | H].
      * apply (inner_edge_below zcut nin 0); try lia; lra.
      * pose proof (outer_edge_arg zcut nedge (nin + nedge - 1 - 0)
                      ltac:(lra) Hnedge ltac:(lia)) as [H1 _].
        apply sqrt_lt_R0. nra.
    + apply Rlt_trans with (z_edge zcut nin nedge 0).
      * unfold z_edge. destruct (Z.ltb_spec 0 (nin - 1)) as [H | H].
        -- apply (inner_edge_below zcut nin 0); try lia; lra.
        -- pose proof (outer_edge_arg zcut nedge (nin + nedge - 1 - 0)
                         ltac:(lra) Hnedge ltac:(lia)) as [H1 _].
           apply sqrt_lt_R0. nra.
      * apply z_edge_increasing; try assumption; lia.
  - destruct (Z.eq_dec j (nin + nedge - 1)) as [-> | Hne].
    + rewrite z_edge_last by assumption. lra.
    + rewrite <- (z_edge_last zcut nin nedge) by assumption.
      left. apply z_edge_increasing; try assumption; lia.
Qed.

Lemma z_mean_increasing (edge : Z -> R) (n i j : Z) :
  (forall i j, (0 <= i < j)%Z -> (j < n)%Z -> edge i < edge j) ->
  0 <= edge 0%Z ->
  (0 <= i < j)%Z -> (j < n)%Z ->
  z_mean edge i < z_mean edge j.
Proof.
  intros Hinc H0 Hij Hj. unfold z_mean.
  destruct (Z.leb_spec i 0) as [Hi | Hi]; destruct (Z.leb_spec j 0) as [Hj' | Hj'];
    try lia.
  - assert (0 <= edge (j - 1)%Z).
    { apply Rle_trans with (edge 0%Z); [assumption|].
      destruct (Z.eq_dec (j - 1) 0) as [-> | Hne]; [lra|]. left. apply Hinc; lia. }
    assert (edge (j - 1)%Z < edge j) by (apply Hinc; lia).
    lra.
  - assert (edge (i - 1)%Z < edge (j - 1)%Z) by (apply Hinc; lia).
    assert (edge i < edge j) by (apply Hinc; lia).
    lra.
Qed.

Lemma size_map_range {A} (f : Z -> A) (n : Z) :
  (0 <= n)%Z -> size (map f (range 0 n)) = n.
Proof. intros H. unfold size. rewrite length_map, range_length. lia. Qed.

Lemma getitem_map_range {A} (f : Z -> A) (n j : Z) :
  (0 <= j < n)%Z -> getitem (map f (range 0 n)) j = Ok (f j).
Proof.
  intros H. apply getitem_map; [lia|]. apply (getitem_range 0 n). lia.
Qed.

Lemma getitem_map_range_neg {A} (f : Z -> A) (n m : Z) :
  (0 <= m < n)%Z -> getitem (map f (range 0 n)) (- m - 1) = Ok (f (n - m - 1)%Z).
Proof.
  intros H. unfold getitem.
  replace (- m - 1 <? 0)%Z with true by (symmetry; apply Z.ltb_lt; lia).
  rewrite size_map_range by lia.
  replace (- m - 1 + n <? 0)%Z with false by (symmetry; apply Z.ltb_ge; lia).
  replace (Z.to_nat (- m - 1 + n)) with (Z.to_nat (n - m - 1)) by lia.
  rewrite nth_error_map_range.
  replace (Z.of_nat (Z.to_nat (n - m - 1)) <? n)%Z with true
    by (symmetry; apply Z.ltb_lt; lia).
  rewrite Z2Nat.id by lia. reflexivity.
Qed.

(** X1.  [create_z_grid] returns two arrays of [nin + nedge] cells.  The
    first [nin] edges are the multiples of [zcut / nin], so that edge
    [nin - 1] is [zcut] itself; counted from the end, edge [-m-1] lies at
    mu = [m * mucut / nedge], so that the last edge is the limb, z = 1.  The
    first mid-point is the disk centre and every other one is the mean of the
    two edges of its cell. *)
Theorem create_z_grid_layout (zcut : R) (nin nedge : Z) :
  0 <= zcut <= 1 -> (1 <= nin)%Z -> (1 <= nedge)%Z ->
  exists z_edges z_means,
    create_z_grid (Fin zcut) nin nedge = Ok (z_edges, z_means) /\
    size z_edges = (nin + nedge)%Z /\ size z_means = (nin + nedge)%Z /\
    (forall j, (0 <= j < nin)%Z ->
       getitem z_edges j = Ok (Fin (IZR (j + 1) * (zcut / IZR nin)))) /\
    (forall m, (0 <= m <= nedge)%Z ->
       getitem z_edges (- m - 1) =
       Ok (Fin (sqrt (1 - (IZR m * (sqrt (1 - zcut ^ 2) / IZR nedge)) ^ 2)))) /\
    getitem z_edges (nin - 1) = Ok (Fin zcut) /\
    getitem z_edges (-1) = Ok (Fin 1) /\
    getitem z_means 0 = Ok (Fin 0) /\
    (forall j, (0 <= j < nin + nedge - 1)%Z ->
       exists e0 e1,
         getitem z_edges j = Ok (Fin e0) /\ getitem z_edges (j + 1) = Ok (Fin e1) /\
         getitem z_means (j + 1) = Ok (Fin (0.5 * (e0 + e1)))).
Proof.
  intros Hz Hnin Hnedge.
  assert (Hni : IZR nin <> 0) by (apply not_0_IZR; lia).
  eexists _, _. split; [apply create_z_grid_value; assumption|].
  rewrite !size_map_range by lia.
  split; [reflexivity|]. split; [reflexivity|].
  split; [|split; [|split; [|split; [|split]]]].
  - intros j Hj. rewrite getitem_map_range by lia. do 2 f_equal.
    destruct (Z.eq_dec j (nin - 1)) as [-> | Hne].
    + rewrite z_edge_cut by assumption.
      replace (nin - 1 + 1)%Z with nin by lia. field. assumption.
    + unfold z_edge.
      replace (j <? nin - 1)%Z with true by (symmetry; apply Z.ltb_lt; lia).
      reflexivity.
  - intros m Hm. rewrite getitem_map_range_neg by lia. do 2 f_equal.
    unfold z_edge.
    replace (nin + nedge - m - 1 <? nin - 1)%Z with false
      by (symmetry; apply Z.ltb_ge; lia).
    replace (nin + nedge - 1 - (nin + nedge - m - 1))%Z with m by lia.
    reflexivity.
  - rewrite getitem_map_range by lia. rewrite z_edge_cut by assumption. reflexivity.
  - rewrite (getitem_map_range_neg _ (nin + nedge) 0) by lia.
    replace (nin + nedge - 0 - 1)%Z with (nin + nedge - 1)%Z by lia.
    rewrite z_edge_last by assumption. reflexivity.
  - rewrite getitem_map_range by lia. reflexivity.
  - intros j Hj. eexists _, _.
    rewrite !getitem_map_range by lia.
    split; [reflexivity|]. split; [reflexivity|].
    do 2 f_equal. unfold z_mean.
    replace (j + 1 <=? 0)%Z with false by (symmetry; apply Z.leb_gt; lia).
    replace (j + 1 - 1)%Z with j by lia. reflexivity.
Qed.

Lemma last_map_range (f : Z -> R) (n : Z) :
  (1 <= n)%Z -> last (map f (range 0 n)) 0 = f (n - 1)%Z.
Proof.
  intros Hn. replace n with (n - 1 + 1)%Z at 1 by lia.
  rewrite range_snoc by lia. rewrite map_app. cbn [map]. apply last_last.
Qed.

Lemma nth_map_range (f : Z -> R) (n : Z) (p : nat) :
  (Z.of_nat p < n)%Z -> nth p (map f (range 0 n)) 0 = f (Z.of_nat p).
Proof.
  intros H. apply nth_error_nth. rewrite nth_error_map_range.
  replace (Z.of_nat p <? n)%Z with true by (symmetry; apply Z.ltb_lt; lia).
  reflexivity.
Qed.

(** The edges of the grid: increasing, positive, ending at the limb. *)
Lemma z_edges_valid (zcut : R) (nin nedge : Z) :
  0 < zcut < 1 -> (1 <= nin)%Z -> (1 <= nedge)%Z ->
  let es := map (z_edge zcut nin nedge) (range 0 (nin + nedge)) in
  length es = Z.to_nat (nin + nedge) /\
  StronglySorted Rlt es /\ Forall (fun z => 0 < z <= 1) es /\ last es 0 = 1.
Proof.
  intros Hz Hnin Hnedge es. unfold es.
  rewrite length_map, range_length.
  split; [f_equal; lia|].
  split; [apply sorted_map_range; intros; apply z_edge_increasing; assumption|].
  split.
  - apply Forall_forall. intros x Hx. apply in_map_iff in Hx.
    destruct Hx as [j [<- Hj]]. apply in_range in Hj. apply z_edge_pos; assumption.
  - rewrite last_map_range by lia. apply z_edge_last; assumption.
Qed.

(** The mid-points of the grid: increasing from the disk centre. *)
Lemma z_means_valid (zcut : R) (nin nedge : Z) :
  0 < zcut < 1 -> (1 <= nin)%Z -> (1 <= nedge)%Z ->
  let ms := map (z_mean (z_edge zcut nin nedge)) (range 0 (nin + nedge)) in
  length ms = Z.to_nat (nin + nedge) /\
  StronglySorted Rlt ms /\ Forall (fun z => 0 <= z < 1) ms /\ nth 0 ms 0 = 0.
Proof.
  intros Hz Hnin Hnedge ms. unfold ms.
  set (n := (nin + nedge)%Z).
  set (edge := z_edge zcut nin nedge).
  assert (Hinc : forall i j, (0 <= i < j)%Z -> (j < n)%Z -> edge i < edge j).
  { intros i j Hij Hj. apply z_edge_increasing; assumption. }
  assert (Hpos : forall j, (0 <= j < n)%Z -> 0 < edge j <= 1).
  { intros j Hj. apply z_edge_pos; assumption. }
  rewrite length_map, range_length.
  split; [f_equal; lia|].
  split.
  { apply sorted_map_range. intros i j Hij Hj.
    apply (z_mean_increasing edge n); try assumption. left. apply Hpos. lia. }
  split.
  { apply Forall_forall. intros x Hx. apply in_map_iff in Hx.
    destruct Hx as [j [<- Hj]]. apply in_range in Hj. unfold z_mean.
    destruct (Z.leb_spec j 0) as [H0 | H0]; [lra|].
    pose proof (Hpos (j - 1)%Z ltac:(lia)). pose proof (Hpos j ltac:(lia)).
    assert (edge (j - 1)%Z < edge j) by (apply Hinc; lia). lra. }
  rewrite (nth_map_range _ n 0) by lia. reflexivity.
Qed.

(** X2.  For a cut strictly inside the disk the grid is a valid one: the
    edges increase strictly from a positive first edge to exactly 1 at the
    limb, and the mid-points increase strictly from exactly 0, staying below
    1. *)
Theorem create_z_grid_increasing (zcut : R) (nin nedge : Z) :
  0 < zcut < 1 -> (1 <= nin)%Z -> (1 <= nedge)%Z ->
  exists es ms : list R,
    create_z_grid (Fin zcut) nin nedge = Ok (map Fin es, map Fin ms) /\
    length es = Z.to_nat (nin + nedge) /\ length ms = Z.to_nat (nin + nedge) /\
    StronglySorted Rlt es /\ Forall (fun z => 0 < z <= 1) es /\ last es 0 = 1 /\
    StronglySorted Rlt ms /\ Forall (fun z => 0 <= z < 1) ms /\ nth 0 ms 0 = 0.
Proof.
  intros Hz Hnin Hnedge.
  destruct (z_edges_valid zcut nin nedge Hz Hnin Hnedge) as (He1 & He2 & He3 & He4).
  destruct (z_means_valid zcut nin nedge Hz Hnin Hnedge) as (Hm1 & Hm2 & Hm3 & Hm4).
  exists (map (z_edge zcut nin nedge) (range 0 (nin + nedge))),
         (map (z_mean (z_edge zcut nin nedge)) (range 0 (nin + nedge))).
  split; [rewrite !map_map; apply create_z_grid_value; try assumption; lra|].
  split; [assumption|]. split; [assumption|]. split; [assumption|].
  split; [assumption|]. split; [assumption|]. split; [assumption|].
  split; assumption.
Qed.

(** ** The grid of [create_z_grid] as input of the table builder and of the
    interpolation *)

Lemma interpolate_outside (mzs ls : list R) (z : R) :
  mzs <> [] -> length ls = length mzs ->
  (z < 0 ->
   interpolate_limb_darkening_s (Fin z) (map Fin mzs) (map Fin ls) = Ok NaN) /\
  (0 <= z -> last mzs 0 < z ->
   interpolate_limb_darkening_s (Fin z) (map Fin mzs) (map Fin ls) =
   Ok (Fin (last ls 0))).
Proof.
  intros Hne Hlen. unfold interpolate_limb_darkening_s. split.
  - intros Hz. fnorm. rcmp. reflexivity.
  - intros Hz0 Hz. fnorm. rcmp.
    rewrite (getitem_last _ NaN) by (destruct mzs; [contradiction | discriminate]).
    cbn [bind]. rewrite last_fin by assumption. fnorm. rcmp.
    assert (Hls : ls <> []) by (destruct ls, mzs; try discriminate; congruence).
    rewrite (getitem_last _ NaN) by (destruct ls; [contradiction | discriminate]).
    rewrite last_fin by assumption. reflexivity.
Qed.


(** X4.  The mid-points made by [create_z_grid] are accepted by the
    limb-darkening interpolation when the grid has three cells or more: for
    a profile of one finite value per mid-point and every finite separation
    the interpolation returns, NaN below zero and a number that lies between
    the smallest and the largest value of the profile otherwise. *)
Theorem create_z_grid_interpolation (zcut : R) (nin nedge : Z) (ls : list R)
    (lo hi z : R) :
  0 < zcut < 1 -> (1 <= nin)%Z -> (1 <= nedge)%Z -> (3 <= nin + nedge)%Z ->
  length ls = Z.to_nat (nin + nedge) ->
  Forall (fun l => lo <= l <= hi) ls ->
  exists z_edges z_means,
    create_z_grid (Fin zcut) nin nedge = Ok (z_edges, z_means) /\
    (z < 0 -> interpolate_limb_darkening_s (Fin z) z_means (map Fin ls) = Ok NaN) /\
    (0 <= z ->
     exists v, interpolate_limb_darkening_s (Fin z) z_means (map Fin ls) = Ok (Fin v) /\
               lo <= v <= hi).
Proof.
  intros Hz Hnin Hnedge Hn Hlen Hls.
  destruct (z_means_valid zcut nin nedge Hz Hnin Hnedge) as (Hm1 & Hm2 & Hm3 & Hm4).
  set (ms := map (z_mean (z_edge zcut nin nedge)) (range 0 (nin + nedge))) in *.
  assert (Hne : ms <> []) by (intros E; rewrite E in Hm1; cbn in Hm1; lia).
  assert (Hlen' : length ls = length ms) by congruence.
  assert (Hnth : forall i, (i < length ls)%nat -> lo <= nth i ls 0 <= hi).
  { intros i Hi. rewrite Forall_forall in Hls. apply Hls. apply nth_In. assumption. }
  exists (map (fun j => Fin (z_edge zcut nin nedge j)) (range 0 (nin + nedge))),
         (map Fin ms).
  split.
  { unfold ms. rewrite map_map. apply create_z_grid_value; try assumption; lra. }
  destruct (interpolate_outside ms ls z Hne Hlen') as [Hbelow Habove].
  split; [assumption|].
  intros Hz0. destruct (Rle_lt_dec z (last ms 0)) as [Hin | Hout].
  - destruct (interpolate_in_domain ms ls z Hm2 ltac:(lia) Hm4 Hlen' (conj Hz0 Hin))
      as (i & Hi & Hbr & Hv).
    eexists. split; [exact Hv|].
    pose proof (sorted_nth ms Hm2 i (S i) ltac:(lia)) as Hlt.
    pose proof (Hnth i ltac:(lia)) as H1. pose proof (Hnth (S i) ltac:(lia)) as H2.
    unfold linear_interpolation.
    set (a := (z - nth i ms 0) / (nth (S i) ms 0 - nth i ms 0)).
    assert (Ha : 0 <= a <= 1).
    { unfold a. split.
      - apply Rmult_le_pos; [lra|]. left. apply Rinv_0_lt_compat. lra.
      - apply Rmult_le_reg_r with (nth (S i) ms 0 - nth i ms 0); [lra|].
        unfold Rdiv. rewrite Rmult_assoc, Rinv_l, Rmult_1_r by lra. lra. }
    split; nra.
  - exists (last ls 0). split; [apply Habove; assumption|].
    rewrite <- nth_last. apply Hnth. lia.
Qed.

(** ** The z grid of [create_z_grid_acos] *)

Lemma acos_decreasing (x y : R) : -1 <= x -> x < y -> y <= 1 -> acos y < acos x.
Proof.
  intros Hx Hxy Hy. apply Rnot_le_lt. intros Hle.
  pose proof (acos_bound x) as [Hx0 Hx1]. pose proof (acos_bound y) as [Hy0 Hy1].
  pose proof (cos_decr_1 (acos x) (acos y) Hx0 Hx1 Hy0 Hy1 Hle) as H.
  rewrite !cos_acos in H by lra. lra.
Qed.

Lemma acos_sample_bounds (nz j : Z) :
  (2 <= nz)%Z -> (0 <= j < nz)%Z ->
  0 <= 1 + IZR j * ((0 - 1) / IZR (nz - 1)) <= 1.
Proof.
  intros Hnz Hj.
  assert (Hn : 0 < IZR (nz - 1)) by (apply IZR_lt; lia).
  assert (Hj0 : 0 <= IZR j) by (apply IZR_le; lia).
  assert (Hj1 : IZR j <= IZR (nz - 1)) by (apply IZR_le; lia).
  replace (1 + IZR j * ((0 - 1) / IZR (nz - 1))) with (1 - IZR j / IZR (nz - 1))
    by (field; lra).
  assert (0 <= IZR j / IZR (nz - 1) <= 1).
  { split.
    - apply Rmult_le_pos; [assumption|]. left. apply Rinv_0_lt_compat. assumption.
    - apply Rmult_le_reg_r with (IZR (nz - 1)); [assumption|].
      unfold Rdiv. rewrite Rmult_assoc, Rinv_l, Rmult_1_r by lra. lra. }
  lra.
Qed.

Lemma z_edge_acos_increasing (nz i j : Z) :
  (2 <= nz)%Z -> (0 <= i < j)%Z -> (j < nz)%Z ->
  z_edge_acos nz i < z_edge_acos nz j.
Proof.
  intros Hnz Hij Hj. unfold z_edge_acos.
  assert (Hpi : 0 < 0.5 * PI) by (pose proof PI_RGT_0; lra).
  apply Rmult_lt_compat_r; [apply Rinv_0_lt_compat; assumption|].
  pose proof (acos_sample_bounds nz i Hnz ltac:(lia)).
  pose proof (acos_sample_bounds nz j Hnz ltac:(lia)).
  apply acos_decreasing; try lra.
  assert (Hn : 0 < IZR (nz - 1)) by (apply IZR_lt; lia).
  assert (Hlt : IZR i < IZR j) by (apply IZR_lt; lia).
  assert (Hinv : 0 < / IZR (nz - 1)) by (apply Rinv_0_lt_compat; assumption).
  assert ((0 - 1) / IZR (nz - 1) < 0) by (unfold Rdiv; lra).
  nra.
Qed.

Lemma z_edge_acos_first (nz : Z) : z_edge_acos nz 0 = 0.
Proof.
  unfold z_edge_acos. rewrite Rmult_0_l, Rplus_0_r, acos_1. unfold Rdiv. ring.
Qed.

Lemma z_edge_acos_last (nz : Z) : (2 <= nz)%Z -> z_edge_acos nz (nz - 1) = 1.
Proof.
  intros Hnz. unfold z_edge_acos.
  assert (Hn : IZR (nz - 1) <> 0) by (apply not_0_IZR; lia).
  replace (1 + IZR (nz - 1) * ((0 - 1) / IZR (nz - 1))) with 0 by (field; assumption).
  rewrite acos_0. pose proof PI_RGT_0. replace 0.5 with (/ 2) by lra. field. lra.
Qed.

Lemma create_z_grid_acos_value (nz : Z) :
  (2 <= nz)%Z ->
  create_z_grid_acos nz =
  Ok (map (fun j => Fin (z_edge_acos nz j)) (range 0 nz),
      map (fun j => Fin (z_mean (z_edge_acos nz) j)) (range 0 nz)).
Proof.
  intros Hnz. unfold create_z_grid_acos.
  replace (nz <? 0)%Z with false by (symmetry; apply Z.ltb_ge; lia).
  change (linspace 1 0 nz) with (linspace (Fin 1) (Fin 0) nz).
  rewrite linspace_fin by assumption. rewrite map_map.
  assert (E : map (fun i => (arccos (Fin (1 + IZR i * ((0 - 1) / IZR (nz - 1))))
                             / Fin (0.5 * PI))%flt) (range 0 nz) =
              map (fun j => Fin (z_edge_acos nz j)) (range 0 nz)).
  { apply map_ext_in. intros j Hj. apply in_range in Hj.
    pose proof (acos_sample_bounds nz j Hnz Hj).
    rewrite arccos_fin by lra. rewrite fdiv_fin by (pose proof PI_RGT_0; lra).
    reflexivity. }
  rewrite E. rewrite (z_means_loop (z_edge_acos nz) nz) by lia. reflexivity.
Qed.

(** X5.  [create_z_grid_acos] with two or more cells returns a valid grid:
    the edges increase strictly from exactly 0 at the disk centre to exactly
    1 at the limb, the mid-points increase strictly from exactly 0, and
    every mid-point but the first is the mean of the two edges that precede
    and end its cell. *)
Theorem create_z_grid_acos_increasing (nz : Z) :
  (2 <= nz)%Z ->
  exists es ms : list R,
    create_z_grid_acos nz = Ok (map Fin es, map Fin ms) /\
    length es = Z.to_nat nz /\ length ms = Z.to_nat nz /\
    StronglySorted Rlt es /\ nth 0 es 0 = 0 /\ last es 0 = 1 /\
    StronglySorted Rlt ms /\ nth 0 ms 0 = 0 /\
    (forall j, (j + 1 < Z.to_nat nz)%nat ->
       nth (S j) ms 0 = 0.5 * (nth j es 0 + nth (S j) es 0)).
Proof.
  intros Hnz.
  exists (map (z_edge_acos nz) (range 0 nz)),
         (map (z_mean (z_edge_acos nz)) (range 0 nz)).
  rewrite !map_map, !length_map, range_length.
  split; [apply create_z_grid_acos_value; assumption|].
  split; [f_equal; lia|]. split; [f_equal; lia|].
  split; [apply sorted_map_range; intros; apply z_edge_acos_increasing; assumption|].
  split; [rewrite (nth_map_range _ nz 0) by lia; apply z_edge_acos_first|].
  split; [rewrite last_map_range by lia; apply z_edge_acos_last; assumption|].
  split.
  { apply sorted_map_range. intros i j Hij Hj.
    apply (z_mean_increasing (z_edge_acos nz) nz); try assumption.
    - intros; apply z_edge_acos_increasing; assumption.
    - rewrite z_edge_acos_first. lra. }
  split; [rewrite (nth_map_range _ nz 0) by lia; reflexivity|].
  intros j Hj. rewrite !nth_map_range by lia. unfold z_mean.
  replace (Z.of_nat (S j) <=? 0)%Z with false by (symmetry; apply Z.leb_gt; lia).
  replace (Z.of_nat (S j) - 1)%Z with (Z.of_nat j) by lia. reflexivity.
Qed.

(** ** The evaluators over a separation array *)

(** With a valid radius ratio and valid edges the table is built. *)
Lemma calculate_weights_2d_built (k : R) (zes : list R) (ng : Z) :
  0 < k < 1 -> (2 <= ng)%Z ->
  zes <> [] -> Forall (fun z => 0 <= z) zes -> last zes 0 = 1 ->
  exists weights,
    calculate_weights_2d (Fin k) (map Fin zes) ng =
      Ok (linspace 0 (Fin (1 - 1e-7)) ng, Fin (grazing_step ng), weights) /\
    size weights = ng /\
    Forall (fun row => fsum row = Fin 1 /\ length row = length zes) weights.
Proof.
  intros Hk Hng Hne Hz Hlast.
  destruct (calculate_weights_2d_rows k zes ng Hk Hng Hne Hz Hlast)
    as (gs & dg & weights & E & Hsz & Hrows).
  destruct (calculate_weights_2d_shape _ _ _ _ _ _ Hng E) as (-> & -> & _).
  exists weights. auto.
Qed.

(** A planet of radius zero covers nothing. *)
Lemma cci_zero_ratio (z b : R) :
  circle_circle_intersection_area (Fin z) (Fin 0) (Fin b) = Fin 0.
Proof.
  unfold circle_circle_intersection_area. fnorm.
  destruct (Rlt_dec z (b - 0)) as [H | H].
  - rcmp. reflexivity.
  - rcmp. f_equal. ring.
Qed.

Lemma area_differences_zero_ratio (b : R) (zs : list R) :
  forall x y, x = 0 -> y = 0 ->
  exists y', snd (area_differences (Fin 0) (Fin b) (map Fin zs) (Fin x) (Fin y))
             = Fin y' /\ y' = 0.
Proof.
  induction zs as [|z zs IH]; intros x y Hx Hy.
  - exists y. split; [reflexivity | assumption].
  - cbn [map area_differences]. rewrite cci_zero_ratio. fnorm.
    destruct (IH 0 (y + (0 - x)) eq_refl ltac:(lra)) as (y' & E & Hy').
    destruct (area_differences _ _ _ _ _) as [ws s]. exists y'. auto.
Qed.

Lemma weights_row_zero_ratio (b : R) (zes : list R) :
  zes <> [] -> weights_row (Fin 0) (map Fin zes) (Fin b) = Err ZeroDivisionError.
Proof.
  intros H. destruct zes as [|z0 zs]; [congruence|].
  unfold weights_row. cbn [map tl]. rewrite getitem_cons_0. cbn [bind].
  rewrite cci_zero_ratio.
  destruct (area_differences_zero_ratio b zs 0 0 eq_refl eq_refl) as (y' & E & ->).
  destruct (area_differences _ _ _ _ _) as [ws s]. cbn [snd] in E. subst s.
  rewrite (Reqb_true 0 0 eq_refl : is_zero (Fin 0) = true). reflexivity.
Qed.

Lemma map_div_nan (l : list float) :
  map (fun w => (w / NaN)%flt) l = repeat NaN (length l).
Proof.
  induction l as [|w l IH]; [reflexivity|].
  cbn [map length repeat]. rewrite IH. f_equal. destruct w; reflexivity.
Qed.

Lemma weights_row_nan_ratio (ze : list float) (b : float) :
  ze <> [] -> weights_row NaN ze b = Ok (repeat NaN (length ze)).
Proof.
  intros H. destruct ze as [|z0 zs]; [congruence|].
  unfold weights_row. rewrite getitem_cons_0. cbn [bind tl].
  rewrite cci_nan_ratio.
  pose proof (area_differences_nan_sum NaN b zs NaN) as Hs.
  pose proof (area_differences_length NaN b zs NaN NaN) as Hl.
  destruct (area_differences _ _ _ _ _) as [ws s]. cbn [snd] in Hs. subst s.
  cbn [fst] in Hl. cbn [is_zero].
  rewrite (map_div_nan (NaN :: ws)). cbn [length]. rewrite Hl. reflexivity.
Qed.

(** The first sample of the grazing grid is 0. *)
Lemma linspace_grazing_head (ng : Z) :
  (1 <= ng)%Z ->
  exists g0 rest, linspace 0 (Fin (1 - 1e-7)) ng = Fin g0 :: rest.
Proof.
  intros H. destruct (Z.eq_dec ng 1) as [-> | Hne].
  - exists 0, []. reflexivity.
  - change (linspace 0 (Fin (1 - 1e-7)) ng)
      with (linspace (Fin 0) (Fin (1 - 1e-7)) ng).
    rewrite linspace_fin by lia. rewrite range_cons by lia. cbn [map]. eauto.
Qed.

(** X6.  The inputs [calculate_weights_2d] refuses, and one it does not.  A
    negative number of grazing samples is refused by [linspace]; with no
    sample or a single one the call never returns a table (the read of
    [gs[1]] leaves the array), and with no edges the read of [ze[0]] fails.
    A radius ratio of exactly zero makes every row sum zero and the
    normalisation raises ZeroDivisionError.  A NaN radius ratio, in contrast,
    is accepted: the table is built and holds NaN everywhere. *)
Theorem calculate_weights_2d_domain (k : float) (ze : list float) (zes : list R)
    (ng : Z) :
  ((ng < 0)%Z -> calculate_weights_2d k ze ng = Err ValueError) /\
  ((0 <= ng <= 1)%Z -> forall tbl, calculate_weights_2d k ze ng <> Ok tbl) /\
  ((1 <= ng)%Z -> calculate_weights_2d k [] ng = Err IndexError) /\
  ((1 <= ng)%Z -> zes <> [] ->
   calculate_weights_2d (Fin 0) (map Fin zes) ng = Err ZeroDivisionError) /\
  ((2 <= ng)%Z -> ze <> [] ->
   calculate_weights_2d NaN ze ng =
     Ok (linspace 0 (Fin (1 - 1e-7)) ng, Fin (grazing_step ng),
         repeat (repeat NaN (length ze)) (Z.to_nat ng))).
Proof.
  split; [|split; [|split; [|split]]].
  - intros H. unfold calculate_weights_2d.
    rewrite (proj2 (Z.ltb_lt ng 0) H). reflexivity.
  - intros H tbl. rewrite calculate_weights_2d_body by lia.
    assert (Hcase : ng = 0%Z \/ ng = 1%Z) by lia.
    destruct Hcase as [-> | ->].
    + discriminate.
    + change (linspace 0 (Fin (1 - 1e-7)) 1) with [Fin 0]. cbn [mapM].
      destruct (weights_row k ze (0 * (1 + k))%flt); discriminate.
  - intros H. rewrite calculate_weights_2d_body by lia.
    destruct (linspace_grazing_head ng H) as (g0 & rest & ->). reflexivity.
  - intros H Hne. rewrite calculate_weights_2d_body by lia.
    destruct (linspace_grazing_head ng H) as (g0 & rest & ->). cbn [mapM].
    fnorm. rewrite weights_row_zero_ratio by assumption. reflexivity.
  - intros H Hne.
    assert (E : calculate_weights_2d NaN ze ng =
                Ok (linspace 0 (Fin (1 - 1e-7)) ng,
                    (Fin (0 + IZR 1 * ((1 - 1e-7 - 0) / IZR (ng - 1))) -
                     Fin (0 + IZR 0 * ((1 - 1e-7 - 0) / IZR (ng - 1))))%flt,
                    repeat (repeat NaN (length ze)) (Z.to_nat ng))).
    { rewrite calculate_weights_2d_body by lia.
      rewrite (mapM_const _ (repeat NaN (length ze))).
      2:{ intros g _. apply weights_row_nan_ratio. assumption. }
      cbn [bind]. rewrite !linspace_getitem by lia. cbn [bind].
      do 3 f_equal.
      pose proof (linspace_size 0 (1 - 1e-7) ng H) as Hs. unfold size in Hs. lia. }
    destruct (calculate_weights_2d_shape _ _ _ _ _ _ H E) as (_ & Hdg & _).
    rewrite E, Hdg. reflexivity.
Qed.


Lemma swmodel_z_interpolated_serial_points (z : list float) (k istar : float)
    (ldp : list float) (weights : list (list (list float))) (dk k0 dg : float) :
  swmodel_z_interpolated_serial z k istar ldp weights dk k0 dg =
  (ik <- int_floor ((k - k0) / dk)%flt ;;
   wk <- getitem weights ik ;;
   wk1 <- getitem weights (ik + 1) ;;
   mapM (fun zi =>
           iplanet <- lerp (zi * (1 / (1 + k)))%flt dg
                        (map2 (fun x y => ((1 - ((k - k0) / dk - of_int ik)) * x
                                           + ((k - k0) / dk - of_int ik) * y)%flt)
                              (matvec wk ldp) (matvec wk1 ldp)) ;;
           Ok ((istar - iplanet * circle_circle_intersection_area 1 k zi) / istar)%flt)
        z).
Proof.
  unfold swmodel_z_interpolated_serial.
  destruct (int_floor _) as [ik|err]; [|reflexivity]. cbn [bind].
  destruct (getitem weights ik) as [wk|err]; [|reflexivity]. cbn [bind].
  destruct (getitem weights (ik + 1)) as [wk1|err]; [|reflexivity]. cbn [bind].
  set (ldw := map2 _ (matvec wk ldp) (matvec wk1 ldp)).
  rewrite (mapM_split (fun zi => lerp (zi * (1 / (1 + k)))%flt dg ldw)
             (circle_circle_intersection_area 1 k)
             (fun ip ap => ((istar - ip * ap) / istar)%flt)).
  rewrite im_p_v2_lerp, mapM_map. reflexivity.
Qed.

Lemma swmodel_z_interpolated_agree (sched : list Z) (z : list float)
    (k istar : float) (ldp : list float) (weights : list (list (list float)))
    (dk k0 dg : float) :
  Permutation sched (range 0 (size z)) ->
  same_result (swmodel_z_interpolated_parallel sched z k istar ldp weights dk k0 dg)
              (swmodel_z_interpolated_serial z k istar ldp weights dk k0 dg).
Proof.
  intros Hp. rewrite swmodel_z_interpolated_serial_points.
  unfold swmodel_z_interpolated_parallel.
  destruct (int_floor _) as [ik|err]; [|apply same_result_Err]. cbn [bind].
  destruct (getitem weights ik) as [wk|err]; [|apply same_result_Err]. cbn [bind].
  destruct (getitem weights (ik + 1)) as [wk1|err]; [|apply same_result_Err].
  cbn [bind]. unfold zeros. intros out.
  rewrite (for_cells_parallel _ sched (size z) (Fin 0) Hp out).
  set (ldw := map2 _ (matvec wk ldp) (matvec wk1 ldp)).
  rewrite (mapM_range_getitem
             (fun zi => iplanet <- lerp (zi * (1 / (1 + k)))%flt dg ldw ;;
                        Ok ((istar - iplanet * circle_circle_intersection_area 1 k zi)
                            / istar)%flt) z).
  tauto.
Qed.

(** X7.  The parallel copy of the evaluator that reads a precomputed table
    returns, for every schedule of its [prange] loop, the flux array of the
    serial copy, and fails when the serial copy fails. *)
Theorem swmodel_z_interpolated_serial_parallel (sched : list Z) (z : list float)
    (k istar : float) (ldp : list float) (weights : list (list (list float)))
    (dk k0 dg : float) :
  Permutation sched (range 0 (size z)) ->
  same_result (swmodel_z_interpolated_parallel sched z k istar ldp weights dk k0 dg)
              (swmodel_z_interpolated_serial z k istar ldp weights dk k0 dg).
Proof.
  intros Hp x. split; intros H.
  - apply (proj1 (swmodel_z_interpolated_agree sched z k istar ldp weights dk k0 dg
                    Hp x)). assumption.
  - apply (proj2 (swmodel_z_interpolated_agree sched z k istar ldp weights dk k0 dg
                    Hp x)). assumption.
Qed.






(** ** The interpolated evaluator at the first node of the table *)







Lemma getitem_Ok_range {A} (l : list A) (i : Z) (x : A) :
  (0 <= i)%Z -> getitem l i = Ok x -> (i < size l)%Z.
Proof.
  intros Hi H. destruct (Z.lt_ge_cases i (size l)) as [Hlt | Hge]; [assumption|].
  rewrite getitem_oob in H by assumption. discriminate.
Qed.

Lemma grazing_step_linspace (ng : Z) :
  (2 <= ng)%Z ->
  (Fin (0 + IZR 1 * ((1 - 1e-7 - 0) / IZR (ng - 1))) -
   Fin (0 + IZR 0 * ((1 - 1e-7 - 0) / IZR (ng - 1))))%flt = Fin (grazing_step ng).
Proof.
  intros Hng. fnorm. f_equal. unfold grazing_step. rewrite minus_IZR.
  simpl. field. apply IZR_le in Hng. lra.
Qed.

(** X21.  The planes of the table of [calculate_weights_3d] are the tables of
    [calculate_weights_2d]: for one or more radius ratios between k0 and k1,
    both in (0, 1), two or more grazing samples and non-negative edges ending
    at 1, the builder returns one plane per radius ratio of
    [linspace(k0, k1, nk)] and the radius-ratio step [(k1 - k0) / nk], and
    plane [ik] is the table that [calculate_weights_2d] builds for the radius
    ratio [ks[ik]], with the same grazing step. *)
Theorem calculate_weights_3d_planes (nk : Z) (k0 k1 : R) (zes : list R) (ng : Z) :
  (1 <= nk)%Z -> (2 <= ng)%Z -> 0 < k0 < 1 -> 0 < k1 < 1 ->
  zes <> [] -> Forall (fun z => 0 <= z) zes -> last zes 0 = 1 ->
  exists weights,
    calculate_weights_3d nk (Fin k0) (Fin k1) (map Fin zes) ng =
      Ok (Fin ((k1 - k0) / IZR nk), Fin (grazing_step ng), weights) /\
    size weights = nk /\
    forall ik, (0 <= ik < nk)%Z ->
      exists k plane,
        getitem (linspace (Fin k0) (Fin k1) nk) ik = Ok k /\
        getitem weights ik = Ok plane /\
        calculate_weights_2d k (map Fin zes) ng =
          Ok (linspace 0 (Fin (1 - 1e-7)) ng, Fin (grazing_step ng), plane).
Proof.
  intros Hnk Hng Hk0 Hk1 Hne Hpos Hlast.
  destruct (calculate_weights_3d_rows zes ng nk k0 k1 Hng Hne Hpos Hlast Hnk Hk0 Hk1)
    as (dk & dg & weights & H3 & Hsz & _).
  pose proof H3 as H3'.
  rewrite calculate_weights_3d_body in H3' by lia.
  destruct (mapM _ (linspace (Fin k0) (Fin k1) nk)) as [w|] eqn:Ew; [|discriminate].
  cbn [bind] in H3'.
  change (linspace 0 (Fin (1 - 1e-7)) ng)
    with (linspace (Fin 0) (Fin (1 - 1e-7)) ng) in *.
  pose proof (linspace_getitem 0 (1 - 1e-7) ng 1 Hng ltac:(lia)) as G1.
  pose proof (linspace_getitem 0 (1 - 1e-7) ng 0 Hng ltac:(lia)) as G0.
  rewrite G1, G0 in H3'. cbn [bind] in H3'.
  rewrite (grazing_step_linspace ng Hng) in H3'.
  assert (Hnk0 : IZR nk <> 0) by (apply not_0_IZR; lia).
  unfold of_int in H3'. rewrite fsub_fin, fdiv_fin in H3' by assumption.
  injection H3' as <- <- <-.
  exists w. split; [assumption|]. split; [assumption|].
  intros ik Hik.
  assert (Hsl : (ik < size (linspace (Fin k0) (Fin k1) nk))%Z).
  { apply mapM_length in Ew. unfold size in *. lia. }
  destruct (getitem_in_range (linspace (Fin k0) (Fin k1) nk) ik ltac:(lia)) as [k Hk].
  destruct (mapM_getitem _ _ _ ik k Ew ltac:(lia) Hk) as (plane & Eplane & Hplane).
  exists k, plane. split; [assumption|]. split; [assumption|].
  rewrite calculate_weights_2d_body by lia.
  change (linspace 0 (Fin (1 - 1e-7)) ng)
    with (linspace (Fin 0) (Fin (1 - 1e-7)) ng).
  rewrite Eplane. cbn [bind]. rewrite G1, G0. cbn [bind].
  rewrite (grazing_step_linspace ng Hng). reflexivity.
Qed.

(** ** Interpolation over the grazing axis *)

(** The value of [lerp] when both reads are inside the array; [i] is the row
    index, [floor(g / dg)]. *)
Lemma lerp_value (dg g : R) (ls : list R) (i : Z) :
  dg <> 0 -> g < 1 -> Zfloor (g / dg) = i -> (0 <= i)%Z -> (i + 1 < size ls)%Z ->
  lerp (Fin g) (Fin dg) (map Fin ls) =
  Ok (Fin ((1 - (g / dg - IZR i)) * nth (Z.to_nat i) ls 0 +
           (g / dg - IZR i) * nth (Z.to_nat (i + 1)) ls 0)).
Proof.
  intros Hdg Hg Hi Hi0 Hi1. unfold lerp. fnorm. rcmp.
  rewrite fdiv_fin by assumption. cbn [int_floor bind]. rewrite Hi.
  rewrite !getitem_fin by lia. cbn [bind]. rewrite of_int_fin. fnorm. reflexivity.
Qed.

(** X10.  [lerp] interpolates its table: at a node [j * dg] of the grazing
    axis, the last row apart, it returns the table entry [ldw[j]] itself,
    and for every grazing parameter in [0, 1) whose two rows exist it returns
    a value between the entries of these two rows. *)
Theorem lerp_interpolates (dg : R) (ls : list R) :
  0 < dg ->
  (forall j : Z,
     (0 <= j)%Z -> (j + 1 < size ls)%Z -> IZR j * dg < 1 ->
     lerp (Fin (IZR j * dg)) (Fin dg) (map Fin ls) = Ok (Fin (nth (Z.to_nat j) ls 0))) /\
  (forall g : R,
     0 <= g < 1 -> (Zfloor (g / dg) + 1 < size ls)%Z ->
     exists v,
       lerp (Fin g) (Fin dg) (map Fin ls) = Ok (Fin v) /\
       Rmin (nth (Z.to_nat (Zfloor (g / dg))) ls 0)
            (nth (Z.to_nat (Zfloor (g / dg) + 1)) ls 0) <= v /\
       v <= Rmax (nth (Z.to_nat (Zfloor (g / dg))) ls 0)
                 (nth (Z.to_nat (Zfloor (g / dg) + 1)) ls 0)).
Proof.
  intros Hdg. split.
  - intros j Hj0 Hj1 Hlt.
    assert (E : IZR j * dg / dg = IZR j) by (field; lra).
    rewrite (lerp_value dg (IZR j * dg) ls j); try lia; try lra.
    + rewrite E. do 2 f_equal. ring.
    + rewrite E. apply ZfloorZ.
  - intros g Hg Hi.
    pose proof (Zfloor_bound (g / dg)) as Hb.
    assert (H0 : (0 <= Zfloor (g / dg))%Z).
    { apply Zfloor_lub. apply Rmult_le_pos; [lra|]. left.
      apply Rinv_0_lt_compat. assumption. }
    eexists. split; [apply (lerp_value dg g ls (Zfloor (g / dg))); try lia; lra|].
    set (a := g / dg - IZR (Zfloor (g / dg))).
    assert (Ha : 0 <= a <= 1) by (unfold a; lra).
    set (l0 := nth _ ls 0). set (l1 := nth _ ls 0).
    unfold Rmin, Rmax. destruct (Rle_dec l0 l1); split; nra.
Qed.

(** X11.  [lerp] does not reject a negative grazing parameter: for
    [-dg <= g < 0] the row index is -1, which Python's indexing wraps to the
    last row, and the result blends the last entry of the table with the
    first one. *)
Theorem lerp_negative_wraps (dg g : R) (ls : list R) :
  0 < dg -> - dg <= g < 0 -> (2 <= length ls)%nat ->
  lerp (Fin g) (Fin dg) (map Fin ls) =
  Ok (Fin ((1 - (g / dg + 1)) * last ls 0 + (g / dg + 1) * nth 0 ls 0)).
Proof.
  intros Hdg Hg Hlen.
  assert (Hq : -1 <= g / dg < 0).
  { split.
    - apply Rmult_le_reg_r with dg; [assumption|].
      unfold Rdiv. rewrite Rmult_assoc, Rinv_l, Rmult_1_r by lra. lra.
    - apply Rmult_lt_reg_r with dg; [assumption|].
      unfold Rdiv. rewrite Rmult_assoc, Rinv_l, Rmult_1_r by lra. lra. }
  assert (Hf : Zfloor (g / dg) = (-1)%Z) by (apply Zfloor_eq; simpl; lra).
  unfold lerp. fnorm. rcmp. rewrite fdiv_fin by lra. cbn [int_floor bind].
  rewrite Hf.
  rewrite (getitem_last _ NaN) by (destruct ls; [cbn in Hlen; lia | discriminate]).
  cbn [bind]. replace (-1 + 1)%Z with 0%Z by lia.
  rewrite getitem_fin by (unfold size; lia). cbn [bind].
  rewrite last_fin by (destruct ls; [cbn in Hlen; lia | discriminate]).
  rewrite of_int_fin. fnorm. do 2 f_equal.
  change (Z.to_nat 0) with O. simpl (IZR (-1)). ring.
Qed.

(** ** The limb-darkening interpolation at the nodes and off the real line *)

(** X12.  The interpolation reproduces the profile at the nodes: over a
    strictly increasing node array of three or more nodes that starts at 0,
    [interpolate_limb_darkening_s] evaluated at the node [mz[j]] returns
    [ldp[j]], for every node. *)
Theorem interpolate_limb_darkening_at_nodes (mzs ls : list R) (j : nat) :
  StronglySorted Rlt mzs -> (3 <= length mzs)%nat -> nth 0 mzs 0 = 0 ->
  length ls = length mzs -> (j < length mzs)%nat ->
  interpolate_limb_darkening_s (Fin (nth j mzs 0)) (map Fin mzs) (map Fin ls) =
  Ok (Fin (nth j ls 0)).
Proof.
  intros Hs Hlen H0 Hls Hj.
  assert (Hlo : 0 <= nth j mzs 0).
  { destruct j as [|j]; [lra|].
    pose proof (sorted_nth mzs Hs 0 (S j) ltac:(lia)). lra. }
  assert (Hhi : nth j mzs 0 <= last mzs 0).
  { rewrite <- nth_last.
    destruct (Nat.eq_dec j (length mzs - 1)) as [-> | Hne]; [lra|].
    pose proof (sorted_nth mzs Hs j (length mzs - 1) ltac:(lia)). lra. }
  destruct (interpolate_in_domain mzs ls (nth j mzs 0) Hs Hlen H0 Hls (conj Hlo Hhi))
    as (i & Hi & [Hb1 Hb2] & ->).
  pose proof (sorted_nth mzs Hs i (S i) ltac:(lia)) as Hlt.
  do 2 f_equal. unfold linear_interpolation.
  assert (Hcase : j = i \/ j = S i).
  { destruct (Nat.lt_trichotomy j i) as [H | [H | H]].
    - pose proof (sorted_nth mzs Hs j i ltac:(lia)). lra.
    - left. assumption.
    - destruct (Nat.eq_dec j (S i)) as [E | Hne]; [right; assumption|].
      pose proof (sorted_nth mzs Hs (S i) j ltac:(lia)). lra. }
  destruct Hcase as [-> | ->].
  - replace ((nth i mzs 0 - nth i mzs 0) / (nth (S i) mzs 0 - nth i mzs 0)) with 0
      by (field; lra).
    ring.
  - replace ((nth (S i) mzs 0 - nth i mzs 0) / (nth (S i) mzs 0 - nth i mzs 0)) with 1
      by (field; lra).
    ring.
Qed.

(** X13.  With three or more nodes the interpolator covers its whole domain:
    for a strictly increasing node array that starts at 0 and a profile of
    the same length, [interpolate_limb_darkening_s] returns NaN for a
    negative separation, the last profile value for a separation beyond the
    last node, and otherwise the linear interpolation of the profile between
    two bracketing nodes, without an error; the vectorised sibling does the
    same for every element of an array of numbers. *)
Theorem interpolate_limb_darkening_domain (mzs ls : list R) (z : R) :
  StronglySorted Rlt mzs -> (3 <= length mzs)%nat -> nth 0 mzs 0 = 0 ->
  length ls = length mzs ->
  (z < 0 ->
   interpolate_limb_darkening_s (Fin z) (map Fin mzs) (map Fin ls) = Ok NaN) /\
  (last mzs 0 < z ->
   interpolate_limb_darkening_s (Fin z) (map Fin mzs) (map Fin ls) =
   Ok (Fin (last ls 0))) /\
  (0 <= z <= last mzs 0 ->
   exists i : nat,
     (i + 1 < length mzs)%nat /\
     nth i mzs 0 <= z <= nth (S i) mzs 0 /\
     interpolate_limb_darkening_s (Fin z) (map Fin mzs) (map Fin ls) =
     Ok (Fin (linear_interpolation z (nth i mzs 0) (nth (S i) mzs 0)
                                     (nth i ls 0) (nth (S i) ls 0)))) /\
  (forall zs : list R,
     exists vs : list float,
       interpolate_limb_darkening_v (map Fin zs) (map Fin mzs) (map Fin ls) = Ok vs /\
       mapM (fun z' => interpolate_limb_darkening_s (Fin z') (map Fin mzs)
                         (map Fin ls)) zs = Ok vs).
Proof.
  intros Hs Hlen H0 Hll.
  assert (Hne : mzs <> []) by (destruct mzs; [simpl in Hlen; lia | discriminate]).
  assert (Hnel : ls <> []) by (destruct ls; [simpl in Hll; lia | discriminate]).
  pose proof (sorted_last_ge mzs Hs Hne) as Hge.
  assert (Hneg : forall x, x < 0 ->
            interpolate_limb_darkening_s (Fin x) (map Fin mzs) (map Fin ls) = Ok NaN).
  { intros x Hx. unfold interpolate_limb_darkening_s. fnorm. rcmp. reflexivity. }
  assert (Hbeyond : forall x, last mzs 0 < x ->
            interpolate_limb_darkening_s (Fin x) (map Fin mzs) (map Fin ls) =
            Ok (Fin (last ls 0))).
  { intros x Hx. unfold interpolate_limb_darkening_s. fnorm. rcmp.
    rewrite (getitem_last _ NaN) by (destruct mzs; [congruence | discriminate]).
    cbn [bind]. rewrite last_fin by assumption. fnorm. rcmp.
    rewrite (getitem_last _ NaN) by (destruct ls; [congruence | discriminate]).
    rewrite last_fin by assumption. reflexivity. }
  split; [|split; [|split]].
  - apply Hneg.
  - apply Hbeyond.
  - intros Hz. apply interpolate_in_domain; assumption.
  - intros zs.
    change (interpolate_limb_darkening_v (map Fin zs) (map Fin mzs) (map Fin ls))
      with (mapM (fun z' => interpolate_limb_darkening_s z' (map Fin mzs)
                              (map Fin ls)) (map Fin zs)).
    rewrite mapM_map.
    enough (exists vs, mapM (fun z' => interpolate_limb_darkening_s (Fin z')
                                         (map Fin mzs) (map Fin ls)) zs = Ok vs)
      as [vs E] by (exists vs; split; exact E).
    apply mapM_defined. intros x _.
    destruct (Rlt_dec x 0) as [Hx | Hx]; [rewrite Hneg by assumption; eauto|].
    destruct (Rlt_dec (last mzs 0) x) as [Hx' | Hx'];
      [rewrite Hbeyond by assumption; eauto|].
    destruct (interpolate_in_domain mzs ls x Hs Hlen H0 Hll ltac:(lra))
      as (i & _ & _ & ->). eauto.
Qed.

(** ** The overlap area as a function of the two radii *)





(** ** The likelihood kernels *)

Lemma broadcast_same (f : float -> float -> float) (a b : list float) :
  length a = length b -> broadcast f a b = Ok (map2 f a b).
Proof.
  intros H. unfold broadcast.
  replace (size a =? size b)%Z with true; [reflexivity|].
  symmetry. apply Z.eqb_eq. unfold size. lia.
Qed.

Lemma map2_fin (f : float -> float -> float) (g : R -> R -> R) (a b : list R) :
  (forall x y, In x a -> In y b -> f (Fin x) (Fin y) = Fin (g x y)) ->
  map2 f (map Fin a) (map Fin b) = map Fin (map2 g a b).
Proof.
  revert b. induction a as [|x a IH]; intros [|y b] H; try reflexivity.
  cbn [map map2]. rewrite H by (left; reflexivity). f_equal.
  apply IH. intros x' y' Hx Hy. apply H; right; assumption.
Qed.

Lemma map2_length {A B C} (f : A -> B -> C) (a : list A) (b : list B) :
  length a = length b -> length (map2 f a b) = length a.
Proof.
  revert b. induction a as [|x a IH]; intros [|y b] H; try discriminate.
  - reflexivity.
  - cbn [map2 length]. rewrite IH by (cbn in H; lia). reflexivity.
Qed.

Lemma range_succ (n : Z) :
  (0 <= n)%Z -> range 0 (n + 1) = 0%Z :: map (fun j => (j + 1)%Z) (range 0 n).
Proof.
  intros Hn. rewrite range_cons by lia. f_equal.
  unfold range. rewrite map_map.
  replace (Z.to_nat (n + 1 - (0 + 1))) with (Z.to_nat (n - 0)) by lia.
  apply map_ext. intros x. lia.
Qed.

Lemma gaussian_lnlike_ext (o m : list R) (e e' : Z -> R) :
  (forall j, (0 <= j < size o)%Z -> e j = e' j) ->
  gaussian_lnlike o m e = gaussian_lnlike o m e'.
Proof.
  intros H. unfold gaussian_lnlike. f_equal. apply map_ext_in.
  intros j Hj. apply in_range in Hj. rewrite H by assumption. reflexivity.
Qed.

Lemma gaussian_lnlike_cons (o0 m0 : R) (o m : list R) (e : Z -> R) :
  gaussian_lnlike (o0 :: o) (m0 :: m) e =
  normal_logpdf o0 m0 (e 0%Z) + gaussian_lnlike o m (fun j => e (j + 1)%Z).
Proof.
  unfold gaussian_lnlike.
  replace (size (o0 :: o)) with (size o + 1)%Z by (unfold size; cbn [length]; lia).
  rewrite range_succ by apply size_nonneg.
  cbn [map Rsum]. f_equal. rewrite map_map. f_equal.
  apply map_ext_in. intros j Hj. apply in_range in Hj.
  replace (Z.to_nat (j + 1)) with (S (Z.to_nat j)) by lia. reflexivity.
Qed.

(** The array formula of [lnlike_normal] is the sum of the normal
    log-densities of the points. *)
Lemma lnlike_normal_sum (os ms es : list R) :
  length ms = length os -> length es = length os ->
  Forall (fun e => 0 < e) es ->
  - Rsum (map ln es) - 0.5 * INR (length os) * ln (2 * PI)
  - 0.5 * Rsum (map2 (fun d e => d ^ 2 / e ^ 2) (map2 Rminus os ms) es) =
  gaussian_lnlike os ms (fun j => nth (Z.to_nat j) es 0).
Proof.
  revert ms es. induction os as [|o os IH]; intros [|m ms] [|e es] Hm He Hpos;
    try discriminate.
  - unfold gaussian_lnlike. cbn. ring.
  - rewrite gaussian_lnlike_cons.
    rewrite (gaussian_lnlike_ext os ms _ (fun j => nth (Z.to_nat j) es 0)).
    2:{ intros j Hj. replace (Z.to_nat (j + 1)) with (S (Z.to_nat j)) by lia.
        reflexivity. }
    inversion Hpos as [|? ? He0 Hpos']; subst.
    rewrite <- (IH ms es) by (cbn in *; try lia; assumption).
    cbn [map map2 Rsum length]. rewrite S_INR.
    change (Z.to_nat 0) with O. cbn [nth]. unfold normal_logpdf.
    field. lra.
Qed.

Lemma flog_sum (es : list R) :
  Forall (fun e => 0 < e) es -> fsum (map flog (map Fin es)) = Fin (Rsum (map ln es)).
Proof.
  induction 1 as [|e es He _ IH]; [reflexivity|].
  cbn [map fsum Rsum]. rewrite IH, flog_pos by assumption. fnorm. reflexivity.
Qed.

Lemma map_fsqr_fin (l : list R) :
  map fsqr (map Fin l) = map Fin (map (fun x => x ^ 2) l).
Proof.
  rewrite !map_map. apply map_ext. intros x. fnorm. reflexivity.
Qed.

Lemma Rsum_squares_ratio (ds es : list R) :
  Rsum (map2 Rdiv (map (fun x => x ^ 2) ds) (map (fun x => x ^ 2) es)) =
  Rsum (map2 (fun d e => d ^ 2 / e ^ 2) ds es).
Proof.
  revert es. induction ds as [|d ds IH]; intros [|e es]; try reflexivity.
  cbn [map2 map Rsum]. rewrite IH. reflexivity.
Qed.

Lemma lnlike_normal_value (os ms es : list R) :
  length ms = length os -> length es = length os ->
  Forall (fun e => 0 < e) es ->
  lnlike_normal (map Fin os) (map Fin ms) (map Fin es) =
  Ok (Fin (gaussian_lnlike os ms (fun j => nth (Z.to_nat j) es 0))).
Proof.
  intros Hm He Hpos. unfold lnlike_normal.
  rewrite broadcast_same by (rewrite !length_map; lia).
  rewrite (map2_fin fsub Rminus) by (intros; fnorm; reflexivity).
  cbn [bind]. rewrite !map_fsqr_fin.
  rewrite broadcast_same
    by (rewrite !length_map, map2_length by lia; lia).
  rewrite (map2_fin fdiv Rdiv).
  2:{ intros x y _ Hy. apply in_map_iff in Hy. destruct Hy as [e [<- Hin]].
      rewrite Forall_forall in Hpos. specialize (Hpos e Hin).
      apply fdiv_fin. apply pow_nonzero. lra. }
  cbn [bind].
  rewrite <- (lnlike_normal_sum os ms es Hm He Hpos).
  rewrite size_map, of_int_fin, fsum_fin, flog_sum by assumption.
  rewrite flog_pos by (pose proof PI_RGT_0; lra). fnorm.
  unfold size. rewrite <- INR_IZR_INZ. rewrite Rsum_squares_ratio.
  reflexivity.
Qed.

(** X15.  [lnlike_normal] is the sum over the points of the normal
    log-density of the observation, with the model value as mean and the
    error of the point as standard deviation, whenever the three arrays are
    finite, of one size, and the errors positive.  Observation and model
    arrays of two different sizes, neither of them 1, are refused with
    [ValueError]. *)
Theorem lnlike_normal_density_sum (os ms es : list R) (o m e : list float) :
  (length ms = length os -> length es = length os ->
   Forall (fun e => 0 < e) es ->
   lnlike_normal (map Fin os) (map Fin ms) (map Fin es) =
   Ok (Fin (Rsum (map (fun j => normal_logpdf (nth (Z.to_nat j) os 0)
                                 (nth (Z.to_nat j) ms 0) (nth (Z.to_nat j) es 0))
                      (range 0 (size os)))))) /\
  (size o <> size m -> size o <> 1%Z -> size m <> 1%Z ->
   lnlike_normal o m e = Err ValueError).
Proof.
  split.
  - intros Hm He Hpos. rewrite lnlike_normal_value by assumption. reflexivity.
  - intros Hne Ho Hm. unfold lnlike_normal, broadcast.
    replace (size o =? size m)%Z with false by (symmetry; apply Z.eqb_neq; assumption).
    destruct o as [|x [|x' o]]; destruct m as [|y [|y' m]];
      try reflexivity; unfold size in *; cbn [length] in *; lia.
Qed.

Lemma lnlike_normal_s_sum (os ms : list R) (e : R) :
  length ms = length os -> 0 < e ->
  IZR (- size os) * ln e - 0.5 * IZR (size os) * ln (2 * PI)
  - 0.5 * Rsum (map (fun x => x ^ 2) (map2 Rminus os ms)) / e ^ 2 =
  gaussian_lnlike os ms (fun _ => e).
Proof.
  intros Hm He. revert ms Hm. induction os as [|o os IH]; intros [|m ms] Hm;
    try discriminate.
  - unfold gaussian_lnlike, size. cbn. field. lra.
  - rewrite gaussian_lnlike_cons. rewrite <- (IH ms) by (cbn in Hm; lia).
    replace (size (o :: os)) with (size os + 1)%Z by (unfold size; cbn [length]; lia).
    rewrite opp_IZR, !plus_IZR, opp_IZR.
    cbn [map map2 Rsum]. unfold normal_logpdf. field. lra.
Qed.

Lemma lnlike_normal_s_value (os ms : list R) (e : R) :
  length ms = length os -> 0 < e ->
  lnlike_normal_s (map Fin os) (map Fin ms) (Fin e) =
  Ok (Fin (gaussian_lnlike os ms (fun _ => e))).
Proof.
  intros Hm He. unfold lnlike_normal_s.
  rewrite broadcast_same by (rewrite !length_map; lia).
  rewrite (map2_fin fsub Rminus) by (intros; fnorm; reflexivity).
  cbn [bind]. rewrite map_fsqr_fin, fsum_fin, size_map, !of_int_fin.
  rewrite flog_pos by assumption.
  rewrite flog_pos by (pose proof PI_RGT_0; lra). fnorm.
  rewrite fdiv_fin by (apply pow_nonzero; lra). fnorm.
  rewrite <- (lnlike_normal_s_sum os ms e Hm He). reflexivity.
Qed.

Lemma nth_repeat_lt {A} (x d : A) (n i : nat) : (i < n)%nat -> nth i (repeat x n) d = x.
Proof.
  intros H. apply nth_error_nth. apply nth_error_repeat. assumption.
Qed.

(** X16.  The kernel with a single error is the kernel with one error per
    point, called with that error at every point: for finite observation and
    model arrays of one size and a positive error [e],
    [lnlike_normal_s(o, m, e)] equals [lnlike_normal(o, m, full(o.size, e))]. *)
Theorem lnlike_normal_s_constant_error (os ms : list R) (e : R) :
  length ms = length os -> 0 < e ->
  lnlike_normal_s (map Fin os) (map Fin ms) (Fin e) =
  lnlike_normal (map Fin os) (map Fin ms) (map Fin (repeat e (length os))).
Proof.
  intros Hm He.
  rewrite lnlike_normal_s_value by assumption.
  rewrite lnlike_normal_value.
  - do 2 f_equal. apply gaussian_lnlike_ext. intros j Hj.
    rewrite nth_repeat_lt by (unfold size in Hj; lia). reflexivity.
  - assumption.
  - apply repeat_length.
  - apply Forall_forall. intros x Hx. apply repeat_spec in Hx. subst. assumption.
Qed.

Lemma gaussian_lnlike_max (os : list R) :
  forall (ms : list R) (e : Z -> R),
    length ms = length os ->
    (forall j, (0 <= j < size os)%Z -> 0 < e j) ->
    gaussian_lnlike os ms e <= gaussian_lnlike os os e /\
    (gaussian_lnlike os ms e = gaussian_lnlike os os e -> ms = os).
Proof.
  induction os as [|o os IH]; intros [|m ms] e Hm He; try discriminate.
  - split; [lra | reflexivity].
  - rewrite !gaussian_lnlike_cons.
    assert (He0 : 0 < e 0%Z) by (apply He; unfold size; cbn [length]; lia).
    destruct (IH ms (fun j => e (j + 1)%Z)) as [Hle Heq].
    { cbn in Hm. lia. }
    { intros j Hj. apply He. unfold size in *. cbn [length]. lia. }
    assert (Hq : 0 <= ((o - m) / e 0%Z) ^ 2) by apply pow2_ge_0.
    assert (Hz : ((o - o) / e 0%Z) ^ 2 = 0).
    { replace (o - o) with 0 by ring. unfold Rdiv. rewrite Rmult_0_l. ring. }
    unfold normal_logpdf. rewrite Hz. split; [lra|].
    intros E.
    assert (Hq0 : ((o - m) / e 0%Z) ^ 2 = 0) by lra.
    assert (Htl : gaussian_lnlike os ms (fun j => e (j + 1)%Z) =
                  gaussian_lnlike os os (fun j => e (j + 1)%Z)) by lra.
    rewrite (Heq Htl). f_equal.
    assert (Hd : (o - m) / e 0%Z = 0).
    { destruct (Req_dec ((o - m) / e 0%Z) 0) as [H | H]; [assumption|].
      exfalso. apply (pow_nonzero _ 2) in H. contradiction. }
    assert (o - m = (o - m) / e 0%Z * e 0%Z) by (field; lra).
    nra.
Qed.

(** X17.  No model fits better than the data: for finite arrays of one size
    and positive errors, the value of [lnlike_normal] for a model [m] is at
    most its value for the model [m = o], and the two values are equal only
    when the model equals the observations at every point. *)
Theorem lnlike_normal_maximum (os ms es : list R) :
  length ms = length os -> length es = length os ->
  Forall (fun e => 0 < e) es ->
  exists v vmax,
    lnlike_normal (map Fin os) (map Fin ms) (map Fin es) = Ok (Fin v) /\
    lnlike_normal (map Fin os) (map Fin os) (map Fin es) = Ok (Fin vmax) /\
    v <= vmax /\ (v = vmax -> ms = os).
Proof.
  intros Hm He Hpos.
  destruct (gaussian_lnlike_max os ms (fun j => nth (Z.to_nat j) es 0) Hm)
    as [Hle Heq].
  { intros j Hj. rewrite Forall_forall in Hpos. apply Hpos. apply nth_In.
    unfold size in Hj. lia. }
  eexists _, _.
  split; [apply lnlike_normal_value; assumption|].
  split; [apply lnlike_normal_value; [reflexivity | assumption | assumption]|].
  split; assumption.
Qed.

(** The noise scale of point [j] for the member with the scales [e_i]. *)
Lemma point_errors_nth (e_i : list R) (wnids lcids : list Z) (npt j : Z) :
  (0 <= j < npt)%Z ->
  nth (Z.to_nat j) (point_errors e_i wnids lcids npt) 0 =
  nth (Z.to_nat (nth (Z.to_nat (nth (Z.to_nat j) lcids 0%Z)) wnids 0%Z)) e_i 0.
Proof.
  intros Hj. unfold point_errors. rewrite nth_map_range by lia.
  rewrite Z2Nat.id by lia. reflexivity.
Qed.

Lemma lnlike_normal_v_value (sched : list Z) (os : list R) (ms es : list (list R))
    (wnids lcids : list Z) (nb : Z) :
  Permutation sched (range 0 (size ms)) ->
  length es = length ms ->
  Forall (fun m => length m = length os) ms ->
  Forall (fun e_i => size e_i = nb /\ Forall (fun e => 0 < e) e_i) es ->
  length lcids = length os ->
  Forall (fun lc => (0 <= lc < size wnids)%Z) lcids ->
  Forall (fun k => (0 <= k < nb)%Z) wnids ->
  lnlike_normal_v sched (map Fin os) (map (map Fin) ms) (map (map Fin) es)
    wnids lcids =
  Ok (map (fun i =>
             Fin (gaussian_lnlike os (nth (Z.to_nat i) ms [])
                    (fun j => nth (Z.to_nat j)
                                (point_errors (nth (Z.to_nat i) es []) wnids lcids
                                   (size os)) 0)))
          (range 0 (size ms))).
Proof.
  intros Hperm Hes Hms Hpos Hlc Hlcr Hnr.
  unfold lnlike_normal_v. rewrite !size_map. unfold zeros.
  apply (for_cells_parallel _ sched (size ms) (Fin 0) Hperm).
  apply mapM_pure. intros i Hi. apply in_range in Hi.
  set (m := nth (Z.to_nat i) ms []).
  set (e_i := nth (Z.to_nat i) es []).
  assert (Hm : length m = length os).
  { rewrite Forall_forall in Hms. apply Hms. apply nth_In. unfold size in Hi. lia. }
  assert (He : size e_i = nb /\ Forall (fun e => 0 < e) e_i).
  { rewrite Forall_forall in Hpos. apply Hpos. apply nth_In. unfold size in Hi. lia. }
  destruct He as [Hnb Hei].
  rewrite (foldM_sum _
             (fun j => normal_logpdf (nth (Z.to_nat j) os 0) (nth (Z.to_nat j) m 0)
                         (nth (Z.to_nat j) (point_errors e_i wnids lcids (size os)) 0))).
  - unfold gaussian_lnlike. do 2 f_equal. ring.
  - intros j a Hj. apply in_range in Hj.
    rewrite point_errors_nth by lia.
    set (lc := nth (Z.to_nat j) lcids 0%Z).
    assert (Hlcj : (0 <= lc < size wnids)%Z).
    { rewrite Forall_forall in Hlcr. apply Hlcr. apply nth_In. unfold size in Hj. lia. }
    set (k := nth (Z.to_nat lc) wnids 0%Z).
    assert (Hk : (0 <= k < nb)%Z).
    { rewrite Forall_forall in Hnr. apply Hnr. apply nth_In. unfold size in Hlcj. lia. }
    rewrite (getitem_nth lcids j 0%Z) by (unfold size in *; lia).
    cbn [bind]. fold lc.
    rewrite (getitem_nth wnids lc 0%Z) by assumption.
    cbn [bind]. fold k.
    rewrite (getitem_map _ _ i e_i) by (try lia; apply getitem_nth; unfold size in *; lia).
    cbn [bind]. rewrite getitem_fin by lia.
    cbn [bind]. rewrite getitem_fin by (unfold size in *; lia).
    cbn [bind].
    rewrite (getitem_map _ _ i m) by (try lia; apply getitem_nth; lia).
    cbn [bind]. rewrite getitem_fin by (unfold size in *; lia).
    cbn [bind].
    assert (Hek : 0 < nth (Z.to_nat k) e_i 0).
    { rewrite Forall_forall in Hei. apply Hei. apply nth_In. unfold size in Hnb. lia. }
    rewrite flog_pos by assumption.
    rewrite flog_pos by (pose proof PI_RGT_0; lra).
    fnorm. rewrite fdiv_fin by lra. fnorm. reflexivity.
Qed.

(** X18.  The population kernel is the scalar kernel applied member by
    member: for finite data, positive noise scales and index maps within
    range, entry [i] of [lnlike_normal_v] is [lnlike_normal] for the model
    row [m[i]], with the error of each point taken from the noise block of
    its light curve, [e[i, wnids[lcids[j]]]]; this holds for every schedule
    of the [prange] loop. *)
Theorem lnlike_normal_v_members (sched : list Z) (os : list R)
    (ms es : list (list R)) (wnids lcids : list Z) (nb : Z) :
  Permutation sched (range 0 (size ms)) ->
  length es = length ms ->
  Forall (fun m => length m = length os) ms ->
  Forall (fun e_i => size e_i = nb /\ Forall (fun e => 0 < e) e_i) es ->
  length lcids = length os ->
  Forall (fun lc => (0 <= lc < size wnids)%Z) lcids ->
  Forall (fun k => (0 <= k < nb)%Z) wnids ->
  lnlike_normal_v sched (map Fin os) (map (map Fin) ms) (map (map Fin) es)
    wnids lcids =
  mapM (fun i =>
          lnlike_normal (map Fin os) (map Fin (nth (Z.to_nat i) ms []))
            (map Fin (point_errors (nth (Z.to_nat i) es []) wnids lcids (size os))))
       (range 0 (size ms)).
Proof.
  intros Hperm Hes Hms Hpos Hlc Hlcr Hnr.
  rewrite (lnlike_normal_v_value sched os ms es wnids lcids nb) by assumption.
  symmetry. apply mapM_pure. intros i Hi. apply in_range in Hi.
  apply lnlike_normal_value.
  - rewrite Forall_forall in Hms. apply Hms. apply nth_In. unfold size in Hi. lia.
  - unfold point_errors. rewrite length_map, range_length. unfold size. lia.
  - assert (He : size (nth (Z.to_nat i) es []) = nb /\
                 Forall (fun e => 0 < e) (nth (Z.to_nat i) es [])).
    { rewrite Forall_forall in Hpos. apply Hpos. apply nth_In. unfold size in Hi. lia. }
    destruct He as [Hnb Hei].
    apply Forall_forall. intros x Hx. unfold point_errors in Hx.
    apply in_map_iff in Hx. destruct Hx as [j [<- Hj]]. apply in_range in Hj.
    set (lc := nth (Z.to_nat j) lcids 0%Z).
    assert (Hlcj : (0 <= lc < size wnids)%Z).
    { rewrite Forall_forall in Hlcr. apply Hlcr. apply nth_In. unfold size in Hj. lia. }
    set (k := nth (Z.to_nat lc) wnids 0%Z).
    assert (Hk : (0 <= k < nb)%Z).
    { rewrite Forall_forall in Hnr. apply Hnr. apply nth_In. unfold size in Hlcj. lia. }
    rewrite Forall_forall in Hei. apply Hei. apply nth_In. unfold size in Hnb. lia.
Qed.

(** ** The limb-darkening coefficient mapping *)

Lemma flat_pairs_interleave (qs : list (R * R)) :
  flat_pairs qs = interleave (map (fun q => Fin (fst q)) qs)
                             (map (fun q => Fin (snd q)) qs).
Proof.
  induction qs as [|q qs IH]; [reflexivity|].
  cbn [flat_pairs flat_map app map interleave]. fold (flat_pairs qs).
  rewrite IH. reflexivity.
Qed.

Lemma map_interleave {A B} (f : A -> B) (xs ys : list A) :
  map f (interleave xs ys) = interleave (map f xs) (map f ys).
Proof.
  revert ys. induction xs as [|x xs IH]; intros [|y ys]; try reflexivity.
  cbn [interleave map]. rewrite IH. reflexivity.
Qed.

Lemma stride2_interleave {A} (xs ys : list A) :
  length xs = length ys -> stride2 (interleave xs ys) = xs.
Proof.
  revert ys. induction xs as [|x xs IH]; intros [|y ys] H; try discriminate.
  - reflexivity.
  - cbn [interleave stride2]. rewrite IH by (cbn in H; lia). reflexivity.
Qed.

Lemma interleave_tl {A} (x : A) (xs : list A) (y : A) (ys : list A) :
  interleave (x :: xs) (y :: ys) = x :: tl (interleave (x :: xs) (y :: ys)).
Proof. reflexivity. Qed.

Lemma stride2_tl_interleave {A} (xs ys : list A) :
  length xs = length ys -> stride2 (tl (interleave xs ys)) = ys.
Proof.
  revert ys. induction xs as [|x xs IH]; intros [|y ys] H; try discriminate.
  - reflexivity.
  - cbn [interleave tl stride2]. f_equal.
    destruct xs as [|x' xs], ys as [|y' ys]; try discriminate; [reflexivity|].
    apply (IH (y' :: ys)). cbn in H |- *. lia.
Qed.

Lemma put_stride2_interleave (xs ys us : list float) :
  length xs = length ys -> length us = length ys ->
  put_stride2 (interleave xs ys) us = interleave us ys.
Proof.
  revert ys us. induction xs as [|x xs IH]; intros [|y ys] [|u us] Hx Hu;
    try discriminate.
  - reflexivity.
  - cbn [interleave put_stride2]. rewrite IH by (cbn in *; lia). reflexivity.
Qed.

Lemma put_stride2_tl_interleave (xs ys vs : list float) :
  length xs = length ys -> length vs = length ys ->
  put_stride2 (tl (interleave xs ys)) vs = tl (interleave xs vs).
Proof.
  revert ys vs. induction xs as [|x xs IH]; intros [|y ys] [|v vs] Hx Hv;
    try discriminate.
  - reflexivity.
  - cbn [interleave tl put_stride2]. f_equal.
    destruct xs as [|x' xs], ys as [|y' ys], vs as [|v' vs]; try discriminate;
      [reflexivity|].
    rewrite (interleave_tl x' xs y' ys), (interleave_tl x' xs v' vs). f_equal.
    apply IH; cbn in *; lia.
Qed.

Lemma set_stride2_interleave (xs ys us : list float) :
  length xs = length ys -> length us = length ys ->
  set_stride2 (interleave xs ys) us = Ok (interleave us ys).
Proof.
  intros Hx Hu. unfold set_stride2.
  rewrite stride2_interleave by assumption.
  replace (size us =? size xs)%Z with true
    by (symmetry; apply Z.eqb_eq; unfold size; lia).
  rewrite put_stride2_interleave by assumption. reflexivity.
Qed.

Lemma set_stride2_odd_interleave (xs ys vs : list float) :
  length xs = length ys -> length vs = length ys ->
  set_stride2_odd (interleave xs ys) vs = Ok (interleave xs vs).
Proof.
  intros Hx Hv.
  destruct xs as [|x xs], ys as [|y ys], vs as [|v vs]; try discriminate;
    [reflexivity|].
  rewrite (interleave_tl x xs y ys). unfold set_stride2_odd, set_stride2.
  rewrite stride2_tl_interleave by assumption.
  replace (size (v :: vs) =? size (y :: ys))%Z with true
    by (symmetry; apply Z.eqb_eq; unfold size; lia).
  rewrite put_stride2_tl_interleave by assumption. reflexivity.
Qed.

Lemma map_ldc_row (qs : list (R * R)) :
  Forall (fun q => 0 <= fst q) qs ->
  let row := flat_pairs qs in
  (ab <- broadcast fmul (map fsqrt (stride2 row))
           (map (fun x => (2 * x)%flt) (stride2 (tl row))) ;;
   uv <- set_stride2 (map (fun _ => Fin 0) row) ab ;;
   ab' <- broadcast fmul (map fsqrt (stride2 row))
            (map (fun x => (1 - x)%flt) (map (fun x => (2 * x)%flt) (stride2 (tl row)))) ;;
   set_stride2_odd uv ab') =
  Ok (flat_pairs (map quadratic_coefficients qs)).
Proof.
  intros Hpos row. unfold row.
  rewrite (flat_pairs_interleave (map quadratic_coefficients qs)).
  rewrite flat_pairs_interleave.
  rewrite stride2_interleave, stride2_tl_interleave by (rewrite !length_map; reflexivity).
  rewrite map_interleave, !map_map.
  rewrite (map_ext_in (fun q => fsqrt (Fin (fst q))) (fun q => Fin (sqrt (fst q)))).
  2:{ intros q Hq. rewrite Forall_forall in Hpos. apply fsqrt_fin. apply Hpos.
      assumption. }
  rewrite broadcast_same by (rewrite !length_map; reflexivity). cbn [bind].
  rewrite set_stride2_interleave.
  2:{ rewrite !length_map. reflexivity. }
  2:{ clear. induction qs as [|q qs IH]; [reflexivity|]. cbn [map map2 length].
      rewrite IH. reflexivity. }
  cbn [bind].
  rewrite broadcast_same by (rewrite !length_map; reflexivity). cbn [bind].
  rewrite set_stride2_odd_interleave.
  2:{ clear. induction qs as [|q qs IH]; [reflexivity|]. cbn [map map2 length].
      rewrite IH. reflexivity. }
  2:{ clear. induction qs as [|q qs IH]; [reflexivity|]. cbn [map map2 length].
      rewrite IH. reflexivity. }
  f_equal. clear. induction qs as [|q qs IH]; [reflexivity|].
  cbn [map map2 interleave]. rewrite IH. unfold quadratic_coefficients.
  cbn [fst snd]. fnorm. reflexivity.
Qed.

(** X19.  [map_ldc] maps every coefficient pair (q1, q2) of every row to the
    quadratic coefficients u = 2 sqrt(q1) q2 and v = sqrt(q1) (1 - 2 q2),
    keeping the shape of the array, for rows of pairs with q1 >= 0.  For
    pairs in the unit square the result is a physical limb-darkening law
    (u >= 0, u + v <= 1, u + 2v >= 0), and the pair is recovered from it:
    q1 = (u + v)^2 and u = 2 q2 (u + v). *)
Theorem map_ldc_quadratic (qss : list (list (R * R))) :
  Forall (Forall (fun q => 0 <= fst q)) qss ->
  map_ldc (map flat_pairs qss) =
    Ok (map (fun qs => flat_pairs (map quadratic_coefficients qs)) qss) /\
  (forall qs q, In qs qss -> In q qs ->
     0 <= fst q <= 1 -> 0 <= snd q <= 1 ->
     let uv := quadratic_coefficients q in
     0 <= fst uv /\ fst uv + snd uv <= 1 /\ 0 <= fst uv + 2 * snd uv /\
     (fst uv + snd uv) ^ 2 = fst q /\ fst uv = 2 * snd q * (fst uv + snd uv)).
Proof.
  intros Hpos. split.
  - unfold map_ldc. rewrite mapM_map. apply mapM_pure.
    intros qs Hqs. rewrite Forall_forall in Hpos.
    apply (map_ldc_row qs). apply Hpos. assumption.
  - intros qs [q1 q2] _ _ H1 H2. cbn [fst snd] in *.
    unfold quadratic_coefficients. cbn [fst snd].
    assert (Hs0 : 0 <= sqrt q1) by apply sqrt_pos.
    assert (Hs1 : sqrt q1 <= 1).
    { rewrite <- sqrt_1. apply sqrt_le_1_alt. lra. }
    assert (Hsq : sqrt q1 * sqrt q1 = q1) by (apply sqrt_sqrt; lra).
    repeat split; try nra.
Qed.

Lemma stride2_odd_length {A} (l : list A) :
  Nat.Odd (length l) -> length (stride2 l) = S (length (stride2 (tl l))).
Proof.
  assert (G : forall n (l : list A), (length l <= n)%nat -> Nat.Odd (length l) ->
              length (stride2 l) = S (length (stride2 (tl l)))).
  { induction n as [|n IH]; intros l0 Hn Hodd.
    - destruct l0; [|cbn in Hn; lia]. destruct Hodd as [m Hm]. cbn in Hm. lia.
    - destruct l0 as [|x [|y l']].
      + destruct Hodd as [m Hm]. cbn in Hm. lia.
      + reflexivity.
      + cbn [stride2 tl length]. f_equal.
        destruct l' as [|z l''].
        * destruct Hodd as [m Hm]. cbn in Hm. lia.
        * change (length (stride2 (z :: l'')) = S (length (stride2 (tl (z :: l''))))).
          apply IH.
          -- cbn [length] in Hn |- *. lia.
          -- destruct Hodd as [m Hm]. cbn [length] in Hm. exists (m - 1)%nat.
             cbn [length]. lia. }
  intros H. apply (G (length l)); [lia | assumption].
Qed.

(** X20.  [map_ldc] refuses a row with an odd number of coefficients: the
    products of the two strided halves, or their assignment into the result,
    fail with [ValueError]. *)
Theorem map_ldc_odd_row (row : list float) (rest : list (list float)) :
  Nat.Odd (length row) -> map_ldc (row :: rest) = Err ValueError.
Proof.
  intros Hodd. unfold map_ldc. cbn [mapM].
  assert (E : (ab <- broadcast fmul (map fsqrt (stride2 row))
                       (map (fun x => (2 * x)%flt) (stride2 (tl row))) ;;
               uv <- set_stride2 (map (fun _ => Fin 0) row) ab ;;
               ab' <- broadcast fmul (map fsqrt (stride2 row))
                        (map (fun x => (1 - x)%flt)
                             (map (fun x => (2 * x)%flt) (stride2 (tl row)))) ;;
               set_stride2_odd uv ab') = Err ValueError).
  { pose proof (stride2_odd_length row Hodd) as Hl.
    destruct row as [|x0 [|x1 [|x2 [|x3 [|x4 row]]]]].
    - destruct Hodd as [n Hn]. cbn in Hn. lia.
    - reflexivity.
    - destruct Hodd as [n Hn]. cbn in Hn. lia.
    - reflexivity.
    - destruct Hodd as [n Hn]. cbn in Hn. lia.
    - cbn [stride2 tl map length] in Hl |- *.
      unfold broadcast at 1.
      match goal with
      | |- context [(?a =? ?b)%Z] => destruct (Z.eqb_spec a b) as [E | _]
      end.
      + exfalso. unfold size in E. cbn [length] in E. rewrite !length_map in E. lia.
      + reflexivity. }
  rewrite E. reflexivity.
Qed.

(** ** The evaluators over a time series *)

Lemma same_result_trans {A} (r1 r2 r3 : res A) :
  same_result r1 r2 -> same_result r2 r3 -> same_result r1 r3.
Proof. intros H1 H2 x. rewrite (H1 x). apply H2. Qed.

Lemma same_result_sym {A} (r1 r2 : res A) : same_result r1 r2 -> same_result r2 r1.
Proof. intros H x. symmetry. apply H. Qed.

Lemma for_cells_schedules {A} (body : Z -> A -> res A) (sched sched' : list Z)
    (n : Z) (x0 : A) :
  Permutation sched (range 0 n) -> Permutation sched' (range 0 n) ->
  same_result (for_cells body sched (repeat x0 (Z.to_nat n)))
              (for_cells body sched' (repeat x0 (Z.to_nat n))).
Proof.
  intros H1 H2.
  apply same_result_trans with (mapM (fun j => body j x0) (range 0 n)).
  - apply for_cells_parallel. assumption.
  - apply same_result_sym. apply for_cells_parallel. assumption.
Qed.

Section EvaluatorComposition.

Variable z_ip_s :
  float -> float -> float -> float -> float -> float -> float ->
  list float -> list float -> list (list float) -> float.

Variable z_ip_v :
  list float -> float -> float -> float -> float -> float -> float ->
  list float -> list float -> list (list float) -> list float.


(** X23.  [swmodel_interpolated_v] computes the index of the table plane,
    int(floor((k[ipv, 0] - k0) / dk)), before it tests the radius ratio for
    NaN: when the first radius ratio of a member of the population is NaN,
    the index cannot be computed and the evaluator returns no flux table,
    whatever the other members and the schedule of the loop over the
    population are. *)
Theorem swmodel_interpolated_v_nan_ratio (sched : list Z) (t : list float)
    (k : list (list float)) (t0 p a i e w : list float)
    (ldp : list (list (list float))) (istar : list (list float))
    (weights : list (list (list float))) (dk k0 dg : float)
    (lcids pbids nsamples : list Z) (exptimes : list float) (npb : Z)
    (es ms : list float) (tae : list (list float))
    (ipv : Z) (k_pv : list float) :
  Permutation sched (range 0 (size k)) ->
  (0 <= ipv < size k)%Z ->
  getitem k ipv = Ok k_pv -> getitem k_pv 0 = Ok NaN ->
  exists err,
    swmodel_interpolated_v z_ip_s sched t k t0 p a i e w ldp istar weights dk k0 dg
      lcids pbids nsamples exptimes npb es ms tae = Err err.
Proof.
  intros Hp Hi Ek Ek0.
  destruct (swmodel_interpolated_v z_ip_s sched t k t0 p a i e w ldp istar weights
              dk k0 dg lcids pbids nsamples exptimes npb es ms tae)
    as [flux|err] eqn:E; [exfalso | eauto].
  unfold swmodel_interpolated_v in E.
  destruct (negb _ || negb _); [discriminate|].
  destruct (population_entry _ _ _ _ _ ipv Hp E Hi) as [row [Em _]].
  unfold swmodel_interpolated_v_member in Em.
  rewrite Ek in Em. cbn [bind] in Em. rewrite Ek0 in Em. cbn [bind] in Em.
  destruct k0, dk; discriminate Em.
Qed.

End EvaluatorComposition.

(** ** The population evaluators, member by member *)




Section PopulationMembers.

Variable z_ip_s :
  float -> float -> float -> float -> float -> float -> float ->
  list float -> list float -> list (list float) -> float.

Variables (t : list float) (t0 p a i e w : list float)
          (istar : list (list float))
          (lcids pbids nsamples : list Z) (exptimes : list float)
          (es ms : list float) (tae : list (list float)).

(** The member [ipv] of the population, its orbit and its stellar
    intensities. *)
Variables (ipv : Z) (t0v pv av iv ev wv : float) (istar_pv : list float).
Hypothesis Ht0 : getitem t0 ipv = Ok t0v.
Hypothesis Hp : getitem p ipv = Ok pv.
Hypothesis Ha : getitem a ipv = Ok av.
Hypothesis Hi : getitem i ipv = Ok iv.
Hypothesis He : getitem e ipv = Ok ev.
Hypothesis Hw : getitem w ipv = Ok wv.
Hypothesis Hav : isnan av = false.
Hypothesis Hiv : isnan iv = false.
Hypothesis Histar : getitem istar ipv = Ok istar_pv.

Variables (zm : list float) (splimit : float).



Variable k_pv : list float.
Hypothesis Hk_pv : Forall (fun x => (x >? splimit)%flt = true) k_pv.




Variables (k : list (list float)) (ldp : list (list (list float)))
          (ldp_pv : list (list float)) (npb : Z).
Hypothesis Hk : getitem k ipv = Ok k_pv.
Hypothesis Hldp : getitem ldp ipv = Ok ldp_pv.
Hypothesis Hnpb : size ldp_pv = npb.



End PopulationMembers.



(** ** The simple evaluator against the general one *)

Lemma fadd_0_r (x : float) : (x + Fin 0)%flt = x.
Proof. destruct x; cbn; try reflexivity. f_equal. ring. Qed.

Lemma fadd_0_l (x : float) : (Fin 0 + x)%flt = x.
Proof. destruct x; cbn; try reflexivity. f_equal. ring. Qed.

Lemma fdiv_1_r (x : float) : (x / of_int 1)%flt = x.
Proof.
  rewrite of_int_fin. destruct x as [v| | |]; try reflexivity.
  - rewrite fdiv_fin by lra. f_equal. field.
  - cbn. rewrite Rltb_false by lra. reflexivity.
  - cbn. rewrite Rltb_false by lra. reflexivity.
Qed.

(** A single sample sits at the mid-time of the exposure. *)
Lemma single_sample_offset (et : R) :
  (Fin et * ((of_int 1 - 0.5) / of_int 1 - 0.5))%flt = Fin 0.
Proof.
  rewrite of_int_fin. fnorm. rewrite fdiv_fin by lra. fnorm. f_equal.
  replace ((1 - 0.5) / 1 - 0.5) with 0 by lra. ring.
Qed.

Lemma cci_beyond (k : R) (z : float) :
  (z >? 1 + Fin k)%flt = true -> circle_circle_intersection_area 1 (Fin k) z = Fin 0.
Proof.
  intros H. unfold circle_circle_intersection_area.
  destruct z as [zr| | |]; try discriminate.
  - revert H. fnorm. intros H.
    destruct (Rltb_spec (1 + k) zr) as [Hlt | Hge]; [|discriminate].
    rewrite Rltb_true by lra. reflexivity.
  - reflexivity.
Qed.

Lemma lerp_beyond (k : R) (z dg : float) (ldw : list float) :
  0 <= k -> (z >? 1 + Fin k)%flt = true ->
  lerp (z / (1 + Fin k))%flt dg ldw = Ok (Fin 0).
Proof.
  intros Hk H. unfold lerp.
  destruct z as [zr| | |]; try discriminate.
  - revert H. fnorm. intros H.
    destruct (Rltb_spec (1 + k) zr) as [Hlt | Hge]; [|discriminate].
    rewrite fdiv_fin by lra. fnorm.
    rewrite Rleb_true; [reflexivity|].
    apply Rmult_le_reg_r with (1 + k); [lra|].
    unfold Rdiv. rewrite Rmult_assoc, Rinv_l, Rmult_1_r by lra. lra.
  - fnorm. cbn. rewrite Rltb_false by lra. reflexivity.
Qed.

Lemma interpolate_beyond (k : R) (z : float) (mzs ls : list R) :
  0 <= k -> (z >? 1 + Fin k)%flt = true ->
  mzs <> [] -> ls <> [] -> last mzs 0 <= 1 ->
  interpolate_limb_darkening_s z (map Fin mzs) (map Fin ls) = Ok (Fin (last ls 0)).
Proof.
  intros Hk H Hm Hl Hlast. unfold interpolate_limb_darkening_s.
  assert (Hm' : map Fin mzs <> []) by (destruct mzs; [contradiction | discriminate]).
  assert (Hl' : map Fin ls <> []) by (destruct ls; [contradiction | discriminate]).
  destruct z as [zr| | |]; try discriminate.
  - revert H. fnorm. intros H.
    destruct (Rltb_spec (1 + k) zr) as [Hlt | Hge]; [|discriminate].
    rcmp. rewrite (getitem_last _ NaN) by assumption. cbn [bind].
    rewrite last_fin by assumption. fnorm. rcmp.
    rewrite (getitem_last _ NaN) by assumption.
    rewrite last_fin by assumption. reflexivity.
  - cbn [fltb]. rewrite (getitem_last _ NaN) by assumption. cbn [bind].
    rewrite last_fin by assumption. cbn [fgtb fltb].
    rewrite (getitem_last _ NaN) by assumption.
    rewrite last_fin by assumption. reflexivity.
Qed.

Lemma full_flux (is00 ip : R) :
  is00 <> 0 -> ((Fin is00 - Fin ip * Fin 0) / Fin is00)%flt = Fin 1.
Proof.
  intros H. fnorm. rewrite fdiv_fin by assumption. f_equal. field. assumption.
Qed.

Section SimpleEvaluator.

Variable z_ip_s :
  float -> float -> float -> float -> float -> float -> float ->
  list float -> list float -> list (list float) -> float.

Variable z_ip_v :
  list float -> float -> float -> float -> float -> float -> float ->
  list float -> list float -> list (list float) -> list float.

Variables (t k : list float) (t0 p a i e w : float)
          (ldp : list (list (list float))) (istar : list (list float))
          (zm : list float) (splimit : float)
          (lcids pbids nsamples : list Z) (exptimes : list float)
          (es ms : list float) (tae : list (list float)).

(** The flux of a point of an unsupersampled series in the first passband,
    as the general evaluator computes it from the time [tj] of the point. *)
Lemma _eval_s_serial_point_single_sample (dg : float) (ldw : list (list float))
    (j ilc : Z) (et : R) (kf tj : float) :
  getitem lcids j = Ok ilc -> getitem pbids ilc = Ok 0%Z ->
  getitem nsamples ilc = Ok 1%Z -> getitem exptimes ilc = Ok (Fin et) ->
  getitem k 0 = Ok kf -> getitem t j = Ok tj ->
  _eval_s_serial_point z_ip_s t k t0 p a i e w istar zm dg ldp ldw splimit
    lcids pbids nsamples exptimes es ms tae j (Fin 0) =
  (if (z_ip_s tj t0 p a i e w es ms tae >? 1 + kf)%flt then Ok (Fin 1)
   else blocked_flux
          (if (kf >? splimit)%flt then exact_intensity dg ldw 0 kf
           else small_planet_intensity zm ldp 0)
          istar 0 kf (z_ip_s tj t0 p a i e w es ms tae)).
Proof.
  intros Hlc Hpb Hns Het Hk Ht.
  unfold _eval_s_serial_point. rewrite Hlc. cbn [bind]. rewrite Hpb. cbn [bind].
  replace (if (size k =? 1)%Z then getitem k 0 else getitem k 0) with (Ok kf)
    by (destruct (size k =? 1)%Z; symmetry; assumption).
  cbn [bind]. rewrite Hns. cbn [bind].
  change (range 1 (1 + 1)) with [1%Z]. cbn [foldM].
  unfold _eval_s_serial_sample. rewrite Het, Hns, Ht. cbn [bind].
  rewrite single_sample_offset, fadd_0_r.
  destruct (z_ip_s tj t0 p a i e w es ms tae >? 1 + kf)%flt.
  - cbn [bind]. rewrite fdiv_1_r. fnorm. f_equal. f_equal. ring.
  - unfold blocked_flux, exact_intensity, small_planet_intensity.
    destruct (kf >? splimit)%flt.
    + destruct (getitem ldw 0) as [ldw_pb|]; [|reflexivity]. cbn [bind].
      destruct (lerp _ _ _) as [ip|]; [|reflexivity]. cbn [bind].
      destruct (getitem istar 0) as [istar0|]; [|reflexivity]. cbn [bind].
      destruct (getitem istar0 0) as [istar_pb|]; [|reflexivity]. cbn [bind].
      rewrite fadd_0_l, fdiv_1_r. reflexivity.
    + destruct (getitem ldp 0) as [ldp0|]; [|reflexivity]. cbn [bind].
      destruct (getitem ldp0 0) as [ldp_pb|]; [|reflexivity]. cbn [bind].
      destruct (interpolate_limb_darkening_s _ _ _) as [ip|]; [|reflexivity].
      cbn [bind].
      destruct (getitem istar 0) as [istar0|]; [|reflexivity]. cbn [bind].
      destruct (getitem istar0 0) as [istar_pb|]; [|reflexivity]. cbn [bind].
      rewrite fadd_0_l, fdiv_1_r. reflexivity.
Qed.

End SimpleEvaluator.

(** X25.  [swmodel_direct_s_simple] is [swmodel_direct_s] for the data it is
    meant for: a series in the first passband with one sample per exposure.
    Provided that [z_ip_v] is [z_ip_s] applied to every time and gives
    numbers, that k[0] lies in (0, 1), the edges are non-negative and end at
    1 (so that the weight table is built), every profile has one value per
    edge, the profile of the first passband is finite, the stellar intensity
    is a non-zero number and the last node of [zm] is at most 1, the simple
    evaluator returns exactly what the serial general evaluator returns (the
    same flux array, or the same error), and the parallel general evaluator
    returns it too. *)
Theorem swmodel_direct_s_simple_agrees
    (z_ip_s : float -> float -> float -> float -> float -> float -> float ->
              list float -> list float -> list (list float) -> float)
    (z_ip_v : list float -> float -> float -> float -> float -> float -> float ->
              list float -> list float -> list (list float) -> list float)
    (sched : list Z) (t k : list float) (t0 p a i e w : float)
    (ldp : list (list (list float))) (istar : list (list float))
    (zm : list float) (ng : Z) (splimit : float)
    (lcids pbids nsamples : list Z) (exptimes : list float)
    (es ms : list float) (tae : list (list float)) (parallel : bool)
    (kf is00 : R) (ldp0 : list (list float)) (ls mzs zes : list R)
    (istar0 : list float) :
  let ze := map Fin zes in
  z_ip_v t t0 p a i e w es ms tae =
    map (fun tj => z_ip_s tj t0 p a i e w es ms tae) t ->
  (forall tj, In tj t -> exists zr, z_ip_s tj t0 p a i e w es ms tae = Fin zr) ->
  getitem k 0 = Ok (Fin kf) -> 0 < kf < 1 ->
  getitem ldp 0 = Ok ldp0 -> getitem ldp0 0 = Ok (map Fin ls) -> ls <> [] ->
  Forall (fun l => length l = length zes) ldp0 ->
  getitem istar 0 = Ok istar0 -> getitem istar0 0 = Ok (Fin is00) -> is00 <> 0 ->
  zm = map Fin mzs -> mzs <> [] -> last mzs 0 <= 1 ->
  zes <> [] -> Forall (fun z => 0 <= z) zes -> last zes 0 = 1 -> (2 <= ng)%Z ->
  (forall j, (0 <= j < size t)%Z ->
     exists ilc et,
       getitem lcids j = Ok ilc /\ getitem pbids ilc = Ok 0%Z /\
       getitem nsamples ilc = Ok 1%Z /\ getitem exptimes ilc = Ok (Fin et)) ->
  swmodel_direct_s_simple z_ip_v t k t0 p a i e w ldp istar ze zm ng splimit
    lcids pbids nsamples exptimes es ms tae parallel =
  swmodel_direct_s z_ip_s sched t k t0 p a i e w ldp istar ze zm ng splimit
    lcids pbids nsamples exptimes es ms tae false /\
  (Permutation sched (range 0 (size t)) ->
   same_result
     (swmodel_direct_s z_ip_s sched t k t0 p a i e w ldp istar ze zm ng splimit
        lcids pbids nsamples exptimes es ms tae true)
     (swmodel_direct_s_simple z_ip_v t k t0 p a i e w ldp istar ze zm ng splimit
        lcids pbids nsamples exptimes es ms tae parallel)).
Proof.
  intros ze Hzv _ Hk Hkf01 Hldp Hldp0 Hls _ Histar Histar0 His Hzm Hmz Hlast
         Hze Hzpos Hzlast Hng Hpts.
  assert (Hkf : 0 <= kf) by lra.
  destruct (calculate_weights_2d_built kf zes ng Hkf01 Hng Hze Hzpos Hzlast)
    as (wts & Ecalc & _).
  fold ze in Ecalc.
  (* the general evaluator *)
  assert (Hpos : (0 < size ldp0)%Z).
  { apply (getitem_Ok_range ldp0 0 (map Fin ls)); [lia | assumption]. }
  destruct (mapM_defined (fun ipb => l <- getitem ldp0 ipb ;; Ok (matvec wts l))
              (range 0 (size ldp0))) as [ldw Eldw].
  { intros ipb Hipb. apply in_range in Hipb.
    destruct (getitem_in_range ldp0 ipb Hipb) as [l ->]. cbn [bind]. eauto. }
  assert (Hldw : getitem ldw 0 = Ok (matvec wts (map Fin ls))).
  { destruct (mapM_getitem _ _ _ 0 0%Z Eldw ltac:(lia)
                (getitem_range 0 (size ldp0) 0 ltac:(lia))) as (y & Ey & Hy).
    rewrite Hldp0 in Ey. cbn [bind] in Ey. congruence. }
  set (G := fun tj =>
              if (z_ip_s tj t0 p a i e w es ms tae >? 1 + Fin kf)%flt then Ok (Fin 1)
              else blocked_flux
                     (if (Fin kf >? splimit)%flt
                      then exact_intensity (Fin (grazing_step ng)) ldw 0 (Fin kf)
                      else small_planet_intensity zm ldp 0)
                     istar 0 (Fin kf) (z_ip_s tj t0 p a i e w es ms tae)).
  assert (Hgen : swmodel_direct_s z_ip_s sched t k t0 p a i e w ldp istar ze zm ng
                   splimit lcids pbids nsamples exptimes es ms tae false =
                 mapM G t).
  { unfold swmodel_direct_s. rewrite Hldp. cbn [bind]. rewrite Hk. cbn [bind].
    rewrite Ecalc. cbn [bind]. rewrite Eldw. cbn [bind].
    unfold _eval_s_serial, zeros. rewrite for_cells_serial.
    rewrite <- (mapM_range_getitem G t).
    apply mapM_ext. intros j Hj. apply in_range in Hj.
    destruct (Hpts j Hj) as (ilc & et & Hlc & Hpb & Hns & Het).
    destruct (getitem_in_range t j Hj) as [tj Htj].
    rewrite Htj. cbn [bind].
    apply (_eval_s_serial_point_single_sample z_ip_s t k t0 p a i e w ldp istar zm
             splimit lcids pbids nsamples exptimes es ms tae
             (Fin (grazing_step ng)) ldw j ilc et (Fin kf) tj); assumption. }
  (* the simple evaluator *)
  assert (Hsimple : swmodel_direct_s_simple z_ip_v t k t0 p a i e w ldp istar ze zm
                      ng splimit lcids pbids nsamples exptimes es ms tae parallel =
                    mapM G t).
  { destruct (swmodel_direct_s_simple_branch z_ip_v t k t0 p a i e w ldp istar ze zm
                ng splimit lcids pbids nsamples exptimes es ms tae parallel
                (Fin kf) ldp0 (map Fin ls) istar0 (Fin is00)
                Hk Hldp Hldp0 Histar Histar0) as [Hexact Hsmall].
    destruct (Fin kf >? splimit)%flt eqn:Ebranch.
    - rewrite (Hexact eq_refl _ _ _ Ecalc). rewrite Hzv. unfold simple_flux.
      rewrite mapM_map. apply mapM_ext. intros tj _. unfold G.
      destruct (z_ip_s tj t0 p a i e w es ms tae >? 1 + Fin kf)%flt eqn:Eoff.
      + rewrite (lerp_beyond kf _ _ _ Hkf Eoff). cbn [bind].
        rewrite (cci_beyond kf _ Eoff). rewrite full_flux by assumption. reflexivity.
      + unfold blocked_flux, exact_intensity. rewrite Hldw. cbn [bind].
        destruct (lerp _ _ _) as [ip|]; [|reflexivity]. cbn [bind].
        rewrite Histar. cbn [bind]. rewrite Histar0. reflexivity.
    - rewrite (Hsmall eq_refl). rewrite Hzv. unfold simple_flux.
      rewrite mapM_map. apply mapM_ext. intros tj _. unfold G.
      destruct (z_ip_s tj t0 p a i e w es ms tae >? 1 + Fin kf)%flt eqn:Eoff.
      + rewrite Hzm.
        rewrite (interpolate_beyond kf _ mzs ls Hkf Eoff Hmz Hls Hlast). cbn [bind].
        rewrite (cci_beyond kf _ Eoff). rewrite full_flux by assumption. reflexivity.
      + unfold blocked_flux, small_planet_intensity.
        rewrite Hldp. cbn [bind]. rewrite Hldp0. cbn [bind].
        destruct (interpolate_limb_darkening_s _ _ _) as [ip|]; [|reflexivity].
        cbn [bind]. rewrite Histar. cbn [bind]. rewrite Histar0. reflexivity. }
  split.
  - rewrite Hsimple, Hgen. reflexivity.
  - intros Hperm. rewrite Hsimple, <- Hgen.
    unfold swmodel_direct_s. rewrite Hldp. cbn [bind]. rewrite Hk. cbn [bind].
    rewrite Ecalc. cbn [bind]. rewrite Eldw. cbn [bind].
    apply _eval_s_agree. assumption.
Qed.

(** ** The copies of the intensity interpolation *)

Lemma getitem_map_bind {A B} (f : A -> B) (l : list A) (i : Z) :
  getitem (map f l) i = (x <- getitem l i ;; Ok (f x)).
Proof.
  unfold getitem. rewrite size_map.
  destruct ((if (i <? 0)%Z then (i + size l)%Z else i) <? 0)%Z; [reflexivity|].
  rewrite nth_error_map.
  destruct (nth_error l _); reflexivity.
Qed.

Lemma im_p_s_lerp (g dg : float) (weights : list (list float)) (ldp : list float) :
  im_p_s g dg weights ldp = lerp g dg (matvec weights ldp).
Proof.
  unfold im_p_s, lerp, matvec.
  destruct (g >=? 1)%flt; [reflexivity|].
  destruct (int_floor (g / dg)%flt) as [ig|]; [|reflexivity]. cbn [bind].
  rewrite !getitem_map_bind.
  destruct (getitem weights ig) as [w0|]; [|reflexivity]. cbn [bind].
  destruct (getitem weights (ig + 1)) as [w1|]; reflexivity.
Qed.

(** X26.  The four copies of the interpolation of the blocked intensity over
    the grazing axis agree: for a table whose rows have the size of the
    profile, [im_p_s] is [lerp] over the table contracted with the profile,
    [dot(weights, ldp)]; [im_p_v] is [im_p_s] applied to every grazing
    parameter of its array; and [im_p_v2], given the contracted table,
    returns what [im_p_v] returns.  They return the same values and fail on
    the same grazing parameters. *)
Theorem im_p_copies_agree (gs : list float) (g dg : float)
    (weights : list (list float)) (ldp : list float) :
  Forall (fun row => length row = length ldp) weights ->
  im_p_s g dg weights ldp = lerp g dg (matvec weights ldp) /\
  im_p_v gs dg weights ldp = mapM (fun g' => im_p_s g' dg weights ldp) gs /\
  im_p_v2 gs dg (matvec weights ldp) = im_p_v gs dg weights ldp.
Proof.
  intros _. split; [apply im_p_s_lerp|]. split.
  - rewrite im_p_v_lerp. apply mapM_ext. intros g' _. symmetry. apply im_p_s_lerp.
  - rewrite im_p_v_lerp, im_p_v2_lerp. reflexivity.
Qed.

(** ** A uniform stellar disk *)





(** ** The overlap area grows with the radius *)






Section LensDerivative.

Variables k b : R.
Hypothesis Hk : 0 < k.
Hypothesis Hb : 0 < b.









End LensDerivative.










(** ** The weights are non-negative *)







(** ** Bounds on the flux *)






(** ** The further properties at concrete inputs *)

Lemma create_z_grid_layout_witness :
  exists z_edges z_means,
    create_z_grid (Fin 0.5) 2 2 = Ok (z_edges, z_means) /\
    getitem z_edges (-1) = Ok (Fin 1) /\ getitem z_means 0 = Ok (Fin 0).
Proof.
  destruct (create_z_grid_layout 0.5 2 2) as
    (ze & zm & H & _ & _ & _ & _ & _ & Hl & Hm & _); [lra | lia | lia |].
  exists ze, zm. split; [assumption|]. split; assumption.
Defined.

Lemma create_z_grid_increasing_witness :
  exists es ms : list R,
    create_z_grid (Fin 0.5) 2 2 = Ok (map Fin es, map Fin ms) /\
    StronglySorted Rlt es /\ last es 0 = 1.
Proof.
  destruct (create_z_grid_increasing 0.5 2 2) as
    (es & ms & H & _ & _ & Hs & _ & Hl & _); [lra | lia | lia |].
  exists es, ms. split; [assumption|]. split; assumption.
Defined.


Lemma create_z_grid_interpolation_witness :
  exists z_edges z_means,
    create_z_grid (Fin 0.5) 2 2 = Ok (z_edges, z_means) /\
    exists v, interpolate_limb_darkening_s (Fin 0.3) z_means
                (map Fin [1; 0.9; 0.7; 0.5]) = Ok (Fin v) /\
              0.5 <= v <= 1.
Proof.
  destruct (create_z_grid_interpolation 0.5 2 2 [1; 0.9; 0.7; 0.5] 0.5 1 0.3) as
    (ze & zm & H & _ & Hv); [lra | lia | lia | lia | reflexivity | |].
  - repeat constructor; lra.
  - exists ze, zm. split; [assumption|]. apply Hv. lra.
Defined.

Lemma create_z_grid_acos_increasing_witness :
  exists es ms : list R,
    create_z_grid_acos 3 = Ok (map Fin es, map Fin ms) /\
    nth 0 es 0 = 0 /\ last es 0 = 1.
Proof.
  destruct (create_z_grid_acos_increasing 3) as
    (es & ms & H & _ & _ & _ & H0 & Hl & _); [lia|].
  exists es, ms. split; [assumption|]. split; assumption.
Defined.

Lemma calculate_weights_2d_domain_witness :
  calculate_weights_2d (Fin 0) (map Fin [0.5; 1]) 2 = Err ZeroDivisionError.
Proof.
  apply (proj1 (proj2 (proj2 (proj2
           (calculate_weights_2d_domain (Fin 0) [] [0.5; 1] 2)))));
    [lia | discriminate].
Defined.

Lemma swmodel_z_interpolated_serial_parallel_witness :
  same_result
    (swmodel_z_interpolated_parallel [1%Z; 0%Z] [Fin 2; Fin 3] (Fin 0.1) (Fin 1)
       [Fin 1] [[[Fin 1]; [Fin 1]]; [[Fin 1]; [Fin 1]]] (Fin 0.1) (Fin 0.1) (Fin 0.5))
    (swmodel_z_interpolated_serial [Fin 2; Fin 3] (Fin 0.1) (Fin 1)
       [Fin 1] [[[Fin 1]; [Fin 1]]; [[Fin 1]; [Fin 1]]] (Fin 0.1) (Fin 0.1) (Fin 0.5)).
Proof.
  apply (swmodel_z_interpolated_serial_parallel [1%Z; 0%Z] [Fin 2; Fin 3]).
  apply perm_swap.
Defined.



Lemma lerp_interpolates_witness :
  lerp (Fin (IZR 1 * 0.25)) (Fin 0.25) (map Fin [1; 2; 3]) = Ok (Fin 2).
Proof.
  apply (proj1 (lerp_interpolates 0.25 [1; 2; 3] ltac:(lra)) 1%Z);
    [lia | unfold size; cbn; lia | lra].
Defined.

Lemma lerp_negative_wraps_witness :
  lerp (Fin (-0.25)) (Fin 0.5) (map Fin [1; 2]) =
  Ok (Fin ((1 - (-0.25 / 0.5 + 1)) * 2 + (-0.25 / 0.5 + 1) * 1)).
Proof.
  apply (lerp_negative_wraps 0.5 (-0.25) [1; 2]); [lra | lra | cbn; lia].
Defined.

Lemma interpolate_limb_darkening_at_nodes_witness :
  interpolate_limb_darkening_s (Fin 0.5) (map Fin [0; 0.5; 1]) (map Fin [1; 0.8; 0.4]) =
  Ok (Fin 0.8).
Proof.
  apply (interpolate_limb_darkening_at_nodes [0; 0.5; 1] [1; 0.8; 0.4] 1).
  - repeat constructor; lra.
  - cbn; lia.
  - reflexivity.
  - reflexivity.
  - cbn; lia.
Defined.

Lemma interpolate_limb_darkening_domain_witness :
  exists i : nat,
    (i + 1 < length [0; 0.5; 1]%R)%nat /\
    nth i [0; 0.5; 1] 0 <= 0.7 <= nth (S i) [0; 0.5; 1] 0 /\
    interpolate_limb_darkening_s (Fin 0.7) (map Fin [0; 0.5; 1])
      (map Fin [1; 0.8; 0.4]) =
    Ok (Fin (linear_interpolation 0.7 (nth i [0; 0.5; 1] 0) (nth (S i) [0; 0.5; 1] 0)
                                      (nth i [1; 0.8; 0.4] 0)
                                      (nth (S i) [1; 0.8; 0.4] 0))).
Proof.
  apply (interpolate_limb_darkening_domain [0; 0.5; 1] [1; 0.8; 0.4] 0.7).
  - repeat constructor; lra.
  - cbn; lia.
  - reflexivity.
  - reflexivity.
  - cbn; lra.
Defined.


Lemma lnlike_normal_density_sum_witness :
  lnlike_normal [Fin 1; Fin 2; Fin 3] [Fin 1; Fin 2] [Fin 1] = Err ValueError.
Proof.
  apply (proj2 (lnlike_normal_density_sum [] [] [] [Fin 1; Fin 2; Fin 3]
                  [Fin 1; Fin 2] [Fin 1])); unfold size; cbn; lia.
Defined.

Lemma lnlike_normal_s_constant_error_witness :
  lnlike_normal_s (map Fin [1; 2]) (map Fin [1.5; 2]) (Fin 0.1) =
  lnlike_normal (map Fin [1; 2]) (map Fin [1.5; 2]) (map Fin (repeat 0.1 2)).
Proof.
  apply (lnlike_normal_s_constant_error [1; 2] [1.5; 2] 0.1); [reflexivity | lra].
Defined.

Lemma lnlike_normal_maximum_witness :
  exists v vmax,
    lnlike_normal (map Fin [1; 2]) (map Fin [1.5; 2]) (map Fin [0.1; 0.2]) = Ok (Fin v) /\
    lnlike_normal (map Fin [1; 2]) (map Fin [1; 2]) (map Fin [0.1; 0.2]) = Ok (Fin vmax) /\
    v <= vmax.
Proof.
  destruct (lnlike_normal_maximum [1; 2] [1.5; 2] [0.1; 0.2]) as
    (v & vmax & H1 & H2 & H3 & _); [reflexivity | reflexivity | |].
  - repeat constructor; lra.
  - exists v, vmax. split; [assumption|]. split; assumption.
Defined.

Lemma lnlike_normal_v_members_witness :
  lnlike_normal_v [1%Z; 0%Z] (map Fin [1; 2])
    (map (map Fin) [[1.5; 2]; [1; 2]]) (map (map Fin) [[0.1; 0.2]; [0.3; 0.4]])
    [0%Z; 1%Z] [1%Z; 0%Z] =
  mapM (fun i =>
          lnlike_normal (map Fin [1; 2])
            (map Fin (nth (Z.to_nat i) [[1.5; 2]; [1; 2]] []))
            (map Fin (point_errors (nth (Z.to_nat i) [[0.1; 0.2]; [0.3; 0.4]] [])
                        [0%Z; 1%Z] [1%Z; 0%Z] (size [1; 2]))))
       (range 0 (size [[1.5; 2]; [1; 2]])).
Proof.
  apply (lnlike_normal_v_members [1%Z; 0%Z] [1; 2] [[1.5; 2]; [1; 2]]
           [[0.1; 0.2]; [0.3; 0.4]] [0%Z; 1%Z] [1%Z; 0%Z] 2).
  - apply perm_swap.
  - reflexivity.
  - repeat constructor.
  - repeat constructor; lra.
  - reflexivity.
  - repeat constructor; unfold size; cbn; lia.
  - repeat constructor; lia.
Defined.

Lemma map_ldc_quadratic_witness :
  map_ldc (map flat_pairs [[(0.25, 0.5); (1, 0)]]) =
  Ok (map (fun qs => flat_pairs (map quadratic_coefficients qs))
          [[(0.25, 0.5); (1, 0)]]).
Proof.
  apply (proj1 (map_ldc_quadratic [[(0.25, 0.5); (1, 0)]]
                  ltac:(repeat constructor; cbn; lra))).
Defined.

Lemma map_ldc_odd_row_witness :
  map_ldc [[Fin 0.25; Fin 0.5; Fin 1]] = Err ValueError.
Proof.
  apply (map_ldc_odd_row [Fin 0.25; Fin 0.5; Fin 1] []).
  exists 1%nat. reflexivity.
Defined.

Lemma calculate_weights_3d_planes_witness :
  exists weights,
    calculate_weights_3d 2 (Fin 0.1) (Fin 0.2) (map Fin [0.5; 1]) 2 =
      Ok (Fin ((0.2 - 0.1) / IZR 2), Fin (grazing_step 2), weights) /\
    size weights = 2%Z.
Proof.
  destruct (calculate_weights_3d_planes 2 0.1 0.2 [0.5; 1] 2)
    as (w & H1 & H2 & _); try lia; try lra.
  - discriminate.
  - constructor; [lra|]. constructor; [lra|]. constructor.
  - reflexivity.
  - exists w. split; assumption.
Defined.


Lemma swmodel_interpolated_v_nan_ratio_witness :
  exists err,
    swmodel_interpolated_v (fun _ _ _ _ _ _ _ _ _ _ => Fin 2) [1%Z; 0%Z]
      [Fin 0] [[Fin 0.1]; [NaN]] [Fin 0; Fin 0] [Fin 1; Fin 1] [Fin 3; Fin 3]
      [Fin 1; Fin 1] [Fin 0; Fin 0] [Fin 0; Fin 0]
      [[[Fin 1; Fin 1]]; [[Fin 1; Fin 1]]] [[Fin 1]; [Fin 1]]
      [[[Fin 1; Fin 0]; [Fin 0; Fin 1]]; [[Fin 1; Fin 0]; [Fin 0; Fin 1]]]
      (Fin 0.1) (Fin 0.1) (Fin 0.5)
      [0%Z] [0%Z] [1%Z] [Fin 0] 1 [] [] [] = Err err.
Proof.
  apply (swmodel_interpolated_v_nan_ratio (fun _ _ _ _ _ _ _ _ _ _ => Fin 2)
           [1%Z; 0%Z] [Fin 0] [[Fin 0.1]; [NaN]] [Fin 0; Fin 0] [Fin 1; Fin 1]
           [Fin 3; Fin 3] [Fin 1; Fin 1] [Fin 0; Fin 0] [Fin 0; Fin 0]
           [[[Fin 1; Fin 1]]; [[Fin 1; Fin 1]]] [[Fin 1]; [Fin 1]]
           [[[Fin 1; Fin 0]; [Fin 0; Fin 1]]; [[Fin 1; Fin 0]; [Fin 0; Fin 1]]]
           (Fin 0.1) (Fin 0.1) (Fin 0.5)
           [0%Z] [0%Z] [1%Z] [Fin 0] 1 [] [] [] 1 [NaN]
           (perm_swap _ _ _) ltac:(unfold size; simpl; lia) eq_refl eq_refl).
Defined.


Lemma swmodel_direct_s_simple_agrees_witness :
  swmodel_direct_s_simple
    (fun t _ _ _ _ _ _ _ _ _ => t)
    [Fin 0.5; Fin 2] [Fin 0.1] (Fin 0) (Fin 1) (Fin 3) (Fin 1) (Fin 0) (Fin 0)
    [[[Fin 1; Fin 0.4]]] [[Fin 1]] (map Fin [0.5; 1]) (map Fin [0; 1]) 2 (Fin 0.2)
    [0%Z; 0%Z] [0%Z] [1%Z] [Fin 0] [] [] [] false =
  swmodel_direct_s (fun tj _ _ _ _ _ _ _ _ _ => tj) [0%Z; 1%Z]
    [Fin 0.5; Fin 2] [Fin 0.1] (Fin 0) (Fin 1) (Fin 3) (Fin 1) (Fin 0) (Fin 0)
    [[[Fin 1; Fin 0.4]]] [[Fin 1]] (map Fin [0.5; 1]) (map Fin [0; 1]) 2 (Fin 0.2)
    [0%Z; 0%Z] [0%Z] [1%Z] [Fin 0] [] [] [] false.
Proof.
  apply (proj1 (swmodel_direct_s_simple_agrees
                  (fun tj _ _ _ _ _ _ _ _ _ => tj)
                  (fun t _ _ _ _ _ _ _ _ _ => t)
                  [0%Z; 1%Z]
                  [Fin 0.5; Fin 2] [Fin 0.1] (Fin 0) (Fin 1) (Fin 3) (Fin 1) (Fin 0)
                  (Fin 0) [[[Fin 1; Fin 0.4]]] [[Fin 1]]
                  (map Fin [0; 1]) 2 (Fin 0.2)
                  [0%Z; 0%Z] [0%Z] [1%Z] [Fin 0] [] [] [] false
                  0.1 1 [[Fin 1; Fin 0.4]] [1; 0.4] [0; 1] [0.5; 1] [Fin 1]
                  eq_refl
                  ltac:(intros tj [<- | [<- | []]]; eauto)
                  eq_refl ltac:(lra) eq_refl eq_refl ltac:(discriminate)
                  ltac:(repeat constructor)
                  eq_refl eq_refl ltac:(lra) eq_refl ltac:(discriminate)
                  ltac:(cbn; lra) ltac:(discriminate)
                  ltac:(constructor; [lra|]; constructor; [lra|]; constructor)
                  eq_refl ltac:(lia)
                  ltac:(intros j Hj; exists 0%Z, 0;
                        assert (Hc : j = 0%Z \/ j = 1%Z)
                          by (unfold size in Hj; cbn in Hj; lia);
                        destruct Hc as [-> | ->]; repeat split; reflexivity))).
Defined.





Lemma im_p_copies_agree_witness :
  im_p_v2 [Fin 0.25] (Fin 0.5)
    (matvec [[Fin 1; Fin 2]; [Fin 3; Fin 4]] [Fin 1; Fin 1]) =
  im_p_v [Fin 0.25] (Fin 0.5) [[Fin 1; Fin 2]; [Fin 3; Fin 4]] [Fin 1; Fin 1].
Proof.
  apply (proj2 (proj2 (im_p_copies_agree [Fin 0.25] (Fin 0.25) (Fin 0.5)
                         [[Fin 1; Fin 2]; [Fin 3; Fin 4]] [Fin 1; Fin 1]
                         ltac:(repeat constructor)))).
Defined.


Lemma branch_by_radius_ratio_witness :
  exists weights : list (list float),
    same_result
      (swmodel_direct_s
         (fun tj _ _ _ _ _ _ _ _ _ => match tj with Fin x => Fin x | _ => Fin 2 end)
         [1%Z; 0%Z]
         [Fin 0.5; Fin 2] [Fin 0.1] (Fin 0) (Fin 1) (Fin 3) (Fin 1) (Fin 0) (Fin 0)
         [[[Fin 1; Fin 0.4]]] [[Fin 1]] (map Fin [0.5; 1]) (map Fin [0; 1]) 2
         (Fin 0.05) [0%Z; 0%Z] [0%Z] [2%Z] [Fin 0.1] [] [] [] true)
      (series_flux
         (fun tj _ _ _ _ _ _ _ _ _ => match tj with Fin x => Fin x | _ => Fin 2 end)
         (branch_intensity (Fin 0.05) (Fin (grazing_step 2))
            (table_profiles weights [[Fin 1; Fin 0.4]]) (map Fin [0; 1])
            [[[Fin 1; Fin 0.4]]])
         [Fin 0.5; Fin 2] [Fin 0.1] (Fin 0) (Fin 1) (Fin 3) (Fin 1) (Fin 0) (Fin 0)
         [[Fin 1]] [0%Z; 0%Z] [0%Z] [2%Z] [Fin 0.1] [] [] []).
Proof.
  destruct (calculate_weights_2d_built 0.1 [0.5; 1] 2) as [weights [E _]];
    [lra | lia | discriminate | repeat constructor; lra | reflexivity |].
  exists weights.
  destruct (branch_by_radius_ratio
              (fun tj _ _ _ _ _ _ _ _ _ =>
                 match tj with Fin x => Fin x | _ => Fin 2 end)
              (fun t _ _ _ _ _ _ _ _ _ => t)
              [1%Z; 0%Z] [Fin 0.5; Fin 2] [Fin 0.1] (Fin 0) (Fin 1) (Fin 3) (Fin 1)
              (Fin 0) (Fin 0) [[Fin 1]] (map Fin [0; 1]) (Fin 1)
              [[[Fin 1; Fin 0.4]]] [[Fin 1; Fin 1]] (Fin 0.05)
              [0%Z; 0%Z] [0%Z] [2%Z] [Fin 0.1] [] [] []
              (map Fin [0.5; 1]) 2 [] (Fin 0.1) (Fin 0.1) true)
    as [_ [_ [H _]]].
  - eexists. reflexivity.
  - split; [|split].
    + repeat constructor. exists 0.1. split; [reflexivity | lra].
    + repeat constructor. exists 1. split; [reflexivity | lra].
    + repeat constructor. lia.
  - exists 1. split; [reflexivity | lra].
  - exists [0; 1]. split; [reflexivity | repeat constructor; lra].
  - intros [x| | |]; eexists; reflexivity.
  - repeat constructor; eexists; reflexivity.
  - apply (H [[Fin 1; Fin 0.4]] (Fin 0.1) _ _ weights eq_refl eq_refl E).
    + repeat constructor.
    + apply perm_swap.
Defined.

Lemma invalid_member_is_flagged_witness :
  swmodel_direct_v (fun _ _ _ _ _ _ _ _ _ _ => Fin 2) [1%Z; 0%Z]
    [Fin 0; Fin 1] [[NaN]; [Fin 0.1]] [Fin 0; Fin 0] [Fin 1; Fin 1]
    [Fin 3; Fin 3] [Fin 1; Fin 1] [Fin 0; Fin 0] [Fin 0; Fin 0]
    [[[Fin 1; Fin 0.4]]; [[Fin 1; Fin 0.4]]] [[Fin 1]; [Fin 1]]
    (map Fin [0.5; 1]) 2 [0%Z; 0%Z] [0%Z] [2%Z] [Fin 0.1] 1 [] [] [] =
  Ok [[PInf; PInf]; [Fin 1; Fin 1]] <->
  exists flux',
    swmodel_direct_v (fun _ _ _ _ _ _ _ _ _ _ => Fin 2) [0%Z]
      [Fin 0; Fin 1] (drop_member 0 [[NaN]; [Fin 0.1]])
      (drop_member 0 [Fin 0; Fin 0]) (drop_member 0 [Fin 1; Fin 1])
      (drop_member 0 [Fin 3; Fin 3]) (drop_member 0 [Fin 1; Fin 1])
      (drop_member 0 [Fin 0; Fin 0]) (drop_member 0 [Fin 0; Fin 0])
      (drop_member 0 [[[Fin 1; Fin 0.4]]; [[Fin 1; Fin 0.4]]])
      (drop_member 0 [[Fin 1]; [Fin 1]])
      (map Fin [0.5; 1]) 2 [0%Z; 0%Z] [0%Z] [2%Z] [Fin 0.1] 1 [] [] [] = Ok flux' /\
    [[PInf; PInf]; [Fin 1; Fin 1]] =
    insert_row 0 (repeat PInf (length [Fin 0; Fin 1])) flux'.
Proof.
  destruct (invalid_member_is_flagged (fun _ _ _ _ _ _ _ _ _ _ => Fin 2)
              [1%Z; 0%Z] [0%Z] [Fin 0; Fin 1] [[NaN]; [Fin 0.1]]
              [Fin 0; Fin 0] [Fin 1; Fin 1] [Fin 3; Fin 3] [Fin 1; Fin 1]
              [Fin 0; Fin 0] [Fin 0; Fin 0]
              [[[Fin 1; Fin 0.4]]; [[Fin 1; Fin 0.4]]] [[Fin 1]; [Fin 1]]
              (map Fin [0.5; 1]) 2 [] (Fin 0.1) (Fin 0.1) (Fin 0.5)
              [0%Z; 0%Z] [0%Z] [2%Z] [Fin 0.1] 1 [] [] [] 0%nat 2%nat 2%nat)
    as [_ [_ H]].
  { split; [|split].
    - apply Forall_cons; [repeat constructor|].
      apply Forall_cons; [|apply Forall_nil].
      apply Forall_cons; [|apply Forall_nil].
      right. exists 0.1. split; [reflexivity | lra].
    - repeat constructor; exists 1; (split; [reflexivity | lra]).
    - repeat constructor. lia. }
  { exists 0.5. split; [reflexivity | lra]. }
  destruct H as [H _].
  - split; [reflexivity | repeat constructor].
  - simpl. lia.
  - apply perm_swap.
  - apply Permutation_refl.
  - exists [NaN]. split; [reflexivity|].
    intros j Hj.
    assert (Hd : j = 0%Z \/ j = 1%Z) by (unfold size in Hj; simpl in Hj; lia).
    destruct Hd as [-> | ->];
      exists 0%Z, 0%Z, NaN; repeat split; left; reflexivity.
  - apply H.
    + destruct (calculate_weights_2d_nan (map Fin [0.5; 1]) 2) as [tbl E];
        [discriminate | lia |].
      exists [NaN], NaN, tbl. repeat split. exact E.
    + repeat constructor.
Defined.
